(** * FishPy: trajectory post-processing of [fish_3d/utility.py]

    A shallow embedding of the overlap detector, the trajectory normalizer,
    the batch filter, the temporal stitcher and the overlap resolver of
    [lib/fish_3d/utility.py], with the properties of its specification.

    Conventions.
    - A coordinate is an exact rational ([Q]); rounding of IEEE doubles is
      not modelled, except for [get_overlap_pairs], which is also given
      over the arithmetic as a parameter and run on binary64 numbers.  A
      position is [option point3]: [None] is the row of NaN the linking
      engine writes for a frame it could not reconstruct.
    - A numpy array is a [list]; an index array is a [list nat].
    - A Python exception is [None] in the [option] error monad. *)

From Stdlib Require Import List Arith ZArith QArith Qabs Bool Lia Lqa Lra.
From Stdlib Require Import Reals.
From Stdlib Require Import Qreals.
From Stdlib Require Import Sorted.
From Stdlib Require PrimFloat SpecFloat FloatOps.
Import ListNotations.

Set Implicit Arguments.

Close Scope R_scope.
Close Scope Q_scope.
Close Scope Z_scope.
Open Scope nat_scope.

(* ================================================================== *)
(** * Part I: the model                                                *)
(* ================================================================== *)

(** ** The error monad for Python exceptions *)

Definition bind {A B : Type} (m : option A) (f : A -> option B) : option B :=
  match m with
  | Some x => f x
  | None => None
  end.

Notation "x <- m ;; k" := (bind m (fun x => k))
  (at level 61, m at next level, right associativity).

(** ** fill_hole_1d *)

Module Hole.

(** [probe = np.zeros(s); probe[0] = 1; probe[-1] = 1].  The loop only
    builds probes with [s >= 3]. *)
Definition probe (s : nat) : list bool :=
  match s with
  | 0 => []
  | 1 => [true]
  | S (S k) => true :: repeat false k ++ [true]
  end.

(** [a[shift : shift + s]] *)
Definition slice (a : list bool) (shift s : nat) : list bool :=
  firstn s (skipn shift a).

(** [a[shift : shift + s] = 1] *)
Fixpoint assign_ones (a : list bool) (shift s : nat) : list bool :=
  match a with
  | [] => []
  | b :: a' =>
      match shift with
      | S k => b :: assign_ones a' k s
      | 0 => match s with
             | 0 => b :: a'
             | S s' => true :: assign_ones a' 0 s'
             end
      end
  end.

(** [np.array_equal] on two 0/1 arrays. *)
Definition array_equal (a b : list bool) : bool :=
  if list_eq_dec Bool.bool_dec a b then true else false.

(** The body of the inner loop, for one [shift]. *)
Definition scan_step (s : nat) (filled : list bool) (shift : nat) : list bool :=
  if array_equal (probe s) (slice filled shift s)
  then assign_ones filled shift s
  else filled.

(** [for shift in range(0, len(binary) - s + 1)] *)
Definition scan (n s : nat) (filled : list bool) : list bool :=
  fold_left (scan_step s) (seq 0 (n + 1 - s)) filled.

(** [np.arange(size + 2, 2, -1)]: [size + 2, size + 1, ..., 3]. *)
Definition probe_sizes (size : Z) : list nat :=
  rev (seq 3 (Z.to_nat size)).

Definition fill_hole_1d (binary : list bool) (size : Z) : list bool :=
  fold_left (fun filled s => scan (length binary) s filled)
            (probe_sizes size) binary.

(** A hole of [a]: a window [a[u : u + s]] that reads [1 0 ... 0 1]. *)
Definition hole (a : list bool) (u s : nat) : Prop :=
  u + s <= length a /\
  nth u a false = true /\
  nth (u + s - 1) a false = true /\
  forall j, u < j < u + s - 1 -> nth j a false = false.

(** The specification read literally: an entry is valid after the call
    exactly when it was valid before, or lies in a run of [L] invalid
    entries with a valid entry on each side and [L < size]. *)
Definition claimed_valid (binary : list bool) (size : Z) (i : nat) : Prop :=
  nth i binary false = true \/
  exists u L, hole binary u (L + 2) /\ 1 <= L /\ (Z.of_nat L < size)%Z /\
              u < i <= u + L.

(** What the code does: the same with [L <= size]. *)
Definition filled_valid (binary : list bool) (size : Z) (i : nat) : Prop :=
  nth i binary false = true \/
  exists u L, hole binary u (L + 2) /\ 1 <= L /\ (Z.of_nat L <= size)%Z /\
              u < i <= u + L.

(** A sequence of fills of holes whose window is at most [m] long. *)
Inductive fills (m : nat) : list bool -> list bool -> Prop :=
| fills_refl a : fills m a a
| fills_step a t s a' :
    3 <= s <= m -> hole a t s -> fills m (assign_ones a t s) a' ->
    fills m a a'.

End Hole.

(** ** Arrays, positions and fragments *)

(** A 3D point, a position of a fragment (None is a NaN row) and a
    candidate fragment [(positions, error)]. *)
Definition point3 : Type := (Q * Q * Q)%type.
Definition position : Type := option point3.
Definition fragment : Type := (list position * Q)%type.

Definition Qltb (x y : Q) : bool := negb (Qle_bool y x).

(** [d < r] on doubles: False when [d] is NaN. *)
Definition nan_lt (d : option Q) (r : Q) : bool :=
  match d with
  | Some v => Qltb v r
  | None => false
  end.

(** [np.sum(np.square(p - q))] for two rows without NaN. *)
Definition sq_diff (p q : point3) : Q :=
  let '(x1, y1, z1) := p in
  let '(x2, y2, z2) := q in
  ((x1 - x2) * (x1 - x2) + (y1 - y2) * (y1 - y2) + (z1 - z2) * (z1 - z2))%Q.

(** The same for rows that may be NaN: NaN propagates through the sum. *)
Definition sq_dist (p q : position) : option Q :=
  match p, q with
  | Some a, Some b => Some (sq_diff a b)
  | _, _ => None
  end.

Fixpoint mapM {A B : Type} (f : A -> option B) (l : list A) : option (list B) :=
  match l with
  | [] => Some []
  | x :: l' => y <- f x ;; ys <- mapM f l' ;; Some (y :: ys)
  end.

(** [enumerate(l)] *)
Definition enumerate {A : Type} (l : list A) : list (nat * A) :=
  combine (seq 0 (length l)) l.

(** numpy broadcasting of a binary operation along the first axis: equal
    lengths pair up, a single row is repeated, anything else raises. *)
Definition broadcast2 {A B C : Type} (f : A -> B -> C)
    (a : list A) (b : list B) : option (list C) :=
  if length a =? length b
  then Some (map (fun ab => f (fst ab) (snd ab)) (combine a b))
  else match a, b with
       | [x], _ => Some (map (f x) b)
       | _, [y] => Some (map (fun x => f x y) a)
       | _, _ => None
       end.

(** [row[:] = v] for a row of length [n]. *)
Definition assign_row {A : Type} (n : nat) (v : list A) : option (list A) :=
  if length v =? n then Some v
  else match v with
       | [x] => Some (repeat x n)
       | _ => None
       end.

(** [np.nonzero] of a vector and of a matrix (row-major order). *)
Definition where_true (r : list bool) : list nat :=
  map fst (filter snd (enumerate r)).

Definition nonzero (m : list (list bool)) : list (nat * nat) :=
  flat_map (fun ir => map (fun j => (fst ir, j)) (where_true (snd ir)))
           (enumerate m).

(** [np.triu(m, k=1)] *)
Definition triu1 (m : list (list bool)) : list (list bool) :=
  map (fun ir => map (fun jb => (fst ir <? fst jb) && snd jb)
                     (enumerate (snd ir)))
      (enumerate m).

(** [np.setdiff1d(np.arange(n), b)] *)
Definition setdiff_arange (n : nat) (b : list nat) : list nat :=
  filter (fun i => negb (existsb (Nat.eqb i) b)) (seq 0 n).

(** [np.sum(d < r)] along the time axis. *)
Definition count_lt (d : list (option Q)) (r : Q) : nat :=
  length (filter (fun v => nan_lt v r) d).

(** [a - b] squared and summed, row by row, for arrays of one length. *)
Definition pairwise (a b : list position) : list (option Q) :=
  map (fun ab => sq_dist (fst ab) (snd ab)) (combine a b).

(** ** get_overlap_pairs *)

(** The function on exact rationals.  [get_overlap_pairs_in], further
    down, is the same code over the arithmetic as a parameter; this one is
    its instance on [Q]. *)

(** [dist_mat[i, j] = np.sum(np.square(t1[0] - t2[0]), axis=1)] *)
Definition dist_row (T : nat) (a b : list position) : option (list (option Q)) :=
  v <- broadcast2 sq_dist a b ;; assign_row T v.

Definition get_overlap_pairs (trajs : list fragment) (num : Z) (rtol : Q)
  : option (list (nat * nat)) :=
  match trajs with
  | [] => None
  | t0 :: _ =>
      let T := length (fst t0) in
      let rtol_sq := (rtol * rtol)%Q in
      dist_mat <- mapM (fun t1 =>
                    mapM (fun t2 => dist_row T (fst t1) (fst t2)) trajs) trajs ;;
      let adj_mat :=
        map (map (fun d => (num <=? Z.of_nat (count_lt d rtol_sq))%Z)) dist_mat in
      Some (nonzero (triu1 adj_mat))
  end.

(** The words of the specification.  The Euclidean distance of two points,
    as a real number. *)
Definition euclid (p q : point3) : R := sqrt (Q2R (sq_diff p q)).

(** At offset [t] both positions are present and closer than [rtol]. *)
Definition near_at (a b : list position) (rtol : Q) (t : nat) : Prop :=
  exists p q, nth_error a t = Some (Some p) /\ nth_error b t = Some (Some q) /\
              (euclid p q < Q2R rtol)%R.

(** [counts P T n]: exactly [n] of the offsets [0 .. T-1] satisfy [P]. *)
Inductive counts (P : nat -> Prop) : nat -> nat -> Prop :=
| counts_O : counts P 0 0
| counts_yes T n : counts P T n -> P T -> counts P (S T) (S n)
| counts_no T n : counts P T n -> ~ P T -> counts P (S T) n.

(** Fragments [i < j] overlap: at least [num] offsets are near. *)
Definition overlapping (T : nat) (trajs : list fragment) (num : Z) (rtol : Q)
    (i j : nat) : Prop :=
  i < j < length trajs /\
  exists n, counts (near_at (fst (nth i trajs ([], 0%Q)))
                            (fst (nth j trajs ([], 0%Q))) rtol) T n /\
            (num <= Z.of_nat n)%Z.

(** ** get_valid_ctraj *)

(** [z = t[0].T[-1]; z = z[~np.isnan(z)]] *)
Definition valid_z (t : fragment) : list Q :=
  flat_map (fun p : position =>
              match p with
              | Some (_, _, z) => [z]
              | None => []
              end) (fst t).

(** The three factors multiplied into [is_valid] for one fragment. *)
Definition in_tank (z_min z_max : Q) (t : fragment) : bool :=
  let z := valid_z t in
  forallb (fun v => Qltb v z_max) z &&
  forallb (fun v => Qltb z_min v) z &&
  (1 <? length z).

(** [is_valid] is set before the loop and only ever multiplied. *)
Definition get_valid_ctraj (trajectories : list fragment) (z_min z_max : Q)
  : list fragment :=
  snd (fold_left
         (fun (st : bool * list fragment) t =>
            let is_valid := fst st && in_tank z_min z_max t in
            (is_valid, if is_valid then snd st ++ [t] else snd st))
         trajectories (true, [])).

(** The specification read literally: a fragment is kept exactly when its
    own non-missing z never leave [[z_min, z_max]] and it has more than
    one valid sample. *)
Definition claimed_keep (z_min z_max : Q) (t : fragment) : bool :=
  let z := valid_z t in
  forallb (fun v => Qle_bool z_min v && Qle_bool v z_max) z &&
  (1 <? length z).

(** The longest prefix whose members all pass the test. *)
Fixpoint passing_prefix (ok : fragment -> bool) (l : list fragment)
  : list fragment :=
  match l with
  | [] => []
  | t :: l' => if ok t then t :: passing_prefix ok l' else []
  end.

(** ** remove_spatial_overlap *)

(** [np.argmin]: the index of the first minimum; raises on an empty list. *)
Fixpoint argmin_from (best : Q) (bi i : nat) (l : list Q) : nat :=
  match l with
  | [] => bi
  | x :: l' =>
      if Qltb x best then argmin_from x i (S i) l'
      else argmin_from best bi (S i) l'
  end.

Definition argmin (l : list Q) : option nat :=
  match l with
  | [] => None
  | x :: l' => Some (argmin_from x 0 1 l')
  end.

(** [np.sum(not_nan)] *)
Definition valid_count (t : fragment) : nat :=
  length (filter (fun p : position =>
                    match p with Some _ => true | None => false end) (fst t)).

Section RemoveSpatialOverlap.

(** [join_pairs] comes from the compiled module [cutility]. *)
Variable join_pairs : list (nat * nat) -> list (list nat).

(** [trajs_filtered[p[np.argmin([trajs_filtered[idx][1] for idx in p])]]] *)
Definition choose_best (trajs_filtered : list fragment) (p : list nat)
  : option fragment :=
  errs <- mapM (fun idx => option_map snd (nth_error trajs_filtered idx)) p ;;
  best_idx <- argmin errs ;;
  k <- nth_error p best_idx ;;
  nth_error trajs_filtered k.

Definition remove_spatial_overlap (trajectories : list fragment)
    (ntol : Z) (rtol : Q) : option (list fragment) :=
  let trajs_filtered := filter (fun t => 1 <? valid_count t) trajectories in
  match trajs_filtered with
  | [] => Some []
  | _ =>
      op <- get_overlap_pairs trajs_filtered ntol rtol ;;
      let jop := join_pairs op in
      match jop with
      | [] => Some trajs_filtered
      | _ =>
          let not_unique := concat jop in
          let unique := setdiff_arange (length trajs_filtered) not_unique in
          singles <- mapM (nth_error trajs_filtered) unique ;;
          chosen <- mapM (choose_best trajs_filtered) jop ;;
          Some (singles ++ chosen)
      end
  end.

(** The groups the function works with: the joined overlap pairs of the
    fragments that passed the first filter. *)
Definition overlap_groups (trajs_filtered : list fragment)
    (ntol : Z) (rtol : Q) : list (list nat) :=
  match get_overlap_pairs trajs_filtered ntol rtol with
  | Some op => join_pairs op
  | None => []
  end.

End RemoveSpatialOverlap.

(** The member [choose_best] takes from a group [p] of valid indices. *)
Definition best_of (trajs_filtered : list fragment) (p : list nat) : nat :=
  match argmin (map (fun idx => snd (nth idx trajs_filtered ([], 0%Q))) p) with
  | Some b => nth b p 0
  | None => 0
  end.

(** Groups of indices below [N]: none is empty and no index occurs twice,
    within a group or in two groups. *)
Definition groups_wf (N : nat) (jop : list (list nat)) : Prop :=
  (forall g, In g jop -> g <> [] /\ forall i, In i g -> i < N) /\
  NoDup (concat jop).

(** Modelled from the spec: [join_pairs] of the compiled module
    [fish_3d/cutility], which is not among the sources; it joins the overlap
    pairs into connected groups of fragment indices.  Each pair merges the
    groups that already hold one of its ends. *)
Definition join_pair (groups : list (list nat)) (p : nat * nat)
  : list (list nat) :=
  let touched := fun g => existsb (Nat.eqb (fst p)) g ||
                          existsb (Nat.eqb (snd p)) g in
  nodup Nat.eq_dec (fst p :: snd p :: concat (filter touched groups))
  :: filter (fun g => negb (touched g)) groups.

Definition join_pairs (pairs : list (nat * nat)) : list (list nat) :=
  fold_left join_pair pairs [].

(** ** interpolate_nan and convert_traj_format *)

Definition is_nan (p : position) : bool :=
  match p with
  | None => true
  | Some _ => false
  end.

(** [for i in idxs: if not is_nan[i]: break]: the value the loop variable
    holds after the loop, [last] (unbound: [None]) if the loop never ran. *)
Fixpoint scan_break (idxs : list nat) (nans : list bool) (last : option nat)
  : option nat :=
  match idxs with
  | [] => last
  | i :: rest =>
      if negb (nth i nans true) then Some i
      else scan_break rest nans (Some i)
  end.

(** One value of [np.interp] to the right of the sample point [(x0, f0)]. *)
Fixpoint interp_from (x x0 : nat) (f0 : Q) (xp : list nat) (fp : list Q) : Q :=
  match xp, fp with
  | x1 :: xp', f1 :: fp' =>
      if x <? x1
      then ((f1 - f0) / (inject_Z (Z.of_nat x1) - inject_Z (Z.of_nat x0))
            * (inject_Z (Z.of_nat x) - inject_Z (Z.of_nat x0)) + f0)%Q
      else interp_from x x1 f1 xp' fp'
  | _, _ => f0
  end.

(** [np.interp(x, xp, fp)] for increasing integer sample points [xp]: it
    raises ValueError when [xp] is empty or [fp] has another length. *)
Definition np_interp (x xp : list nat) (fp : list Q) : option (list Q) :=
  match xp, fp with
  | x0 :: xp', f0 :: fp' =>
      if length fp' =? length xp'
      then Some (map (fun v => if v <=? x0 then f0
                               else interp_from v x0 f0 xp' fp') x)
      else None
  | _, _ => None
  end.

(** [a[i] = v] *)
Fixpoint set_nth {A : Type} (a : list A) (i : nat) (v : A) : list A :=
  match a, i with
  | [] , _ => []
  | _ :: a', 0 => v :: a'
  | x :: a', S k => x :: set_nth a' k v
  end.

Definition px (p : point3) : Q := fst (fst p).
Definition py (p : point3) : Q := snd (fst p).
Definition pz (p : point3) : Q := snd p.

(** The rows without NaN, in order: [rows[not_nan_indices]]. *)
Definition anchors (rows : list position) : list point3 :=
  flat_map (fun p : position =>
              match p with Some q => [q] | None => [] end) rows.

Definition interpolate_nan (coordinates : list position)
  : option (list position) :=
  let nans := map is_nan coordinates in
  let n := length coordinates in
  head_idx <- scan_break (seq 0 n) nans None ;;
  tail_idx <- scan_break (rev (seq 0 n)) nans None ;;
  (* valid_range = slice(head_idx, tail_idx + 1, 1) *)
  let rows := firstn (tail_idx + 1 - head_idx) (skipn head_idx coordinates) in
  let nan_indices := where_true (map is_nan rows) in
  let not_nan_indices := where_true (map (fun p => negb (is_nan p)) rows) in
  xs <- np_interp nan_indices not_nan_indices (map px (anchors rows)) ;;
  ys <- np_interp nan_indices not_nan_indices (map py (anchors rows)) ;;
  zs <- np_interp nan_indices not_nan_indices (map pz (anchors rows)) ;;
  Some (fold_left
          (fun result kv => set_nth result (head_idx + fst kv) (Some (snd kv)))
          (combine nan_indices (combine (combine xs ys) zs))
          coordinates).

(** The result is a list of one trajectory [(time, positions)]. *)
Definition convert_traj_format (traj : fragment) (t0 : Z)
  : option (list (list Z * list point3)) :=
  let coordinates := fst traj in
  let is_valid_array := map (fun p => negb (is_nan p)) coordinates in
  let is_valid_array := Hole.fill_hole_1d is_valid_array 3 in
  coordinates <- interpolate_nan coordinates ;;
  (* coordinates[~is_valid_array] = np.nan *)
  let coordinates :=
    map (fun vc : bool * position => if fst vc then snd vc else None)
        (combine is_valid_array coordinates) in
  let new_traj :=
    flat_map (fun tc : nat * position =>
                match snd tc with
                | Some coord => [((t0 + Z.of_nat (fst tc))%Z, coord)]
                | None => []
                end) (enumerate coordinates) in
  Some [(map fst new_traj, map snd new_traj)].

(** ** get_temporal_overlapped_pairs *)

(** The uniqueness policy: ['dist'] or ['conn']. *)
Inductive policy : Type := Dist | Conn.

(** [a[-lag:]] and [a[:-lag]].  With [lag = 0] the first is the whole
    array and the second is empty. *)
Definition last_n {A : Type} (lag : nat) (a : list A) : list A :=
  if lag =? 0 then a else skipn (length a - lag) a.

Definition drop_last {A : Type} (lag : nat) (a : list A) : list A :=
  if lag =? 0 then [] else firstn (length a - lag) a.

(** [np.nanmin] and [np.nanmax] of a vector: NaN entries are skipped, and
    the result is NaN when there is nothing else. *)
Definition nan_fold (pick : Q -> Q -> Q) (v : list (option Q)) : option Q :=
  fold_left (fun acc x =>
               match acc, x with
               | Some a, Some b => Some (pick a b)
               | None, _ => x
               | _, None => acc
               end) v None.

Definition nan_min : list (option Q) -> option Q :=
  nan_fold (fun a b => if Qltb b a then b else a).

Definition nan_max : list (option Q) -> option Q :=
  nan_fold (fun a b => if Qltb a b then b else a).

(** [np.isclose(a, b)] with its default tolerances: NaN is close to
    nothing. *)
Definition isclose (a b : option Q) : bool :=
  match a, b with
  | Some x, Some y =>
      Qle_bool (Qabs (x - y)) ((1 # 100000000) + (1 # 100000) * Qabs y)
  | _, _ => false
  end.

(** [dist_mat], of shape [(N1, N2, lag)]. *)
Definition temporal_dist_mat (batch_1 batch_2 : list fragment) (lag : nat)
  : option (list (list (list (option Q)))) :=
  mapM (fun t1 =>
    mapM (fun t2 =>
      dist_sq <- broadcast2 sq_dist (last_n lag (fst t1))
                                    (firstn lag (fst t2)) ;;
      assign_row lag dist_sq) batch_2) batch_1.

Definition temporal_conn_mat (dist_mat : list (list (list (option Q))))
    (rtol : Q) : list (list nat) :=
  map (map (fun d => count_lt d (rtol * rtol))) dist_mat.

(** The matrix the masks are taken from: [min_dist_mat] for ['dist'] (the
    reduction raises on an empty lag axis), [conn_mat] for ['conn']. *)
Definition score_mat (u : policy) (lag : nat)
    (dist_mat : list (list (list (option Q)))) (conn_mat : list (list nat))
  : option (list (list (option Q))) :=
  match u with
  | Dist => if lag =? 0 then None else Some (map (map nan_min) dist_mat)
  | Conn => Some (map (map (fun c => Some (inject_Z (Z.of_nat c)))) conn_mat)
  end.

Definition best (u : policy) : list (option Q) -> option Q :=
  match u with
  | Dist => nan_min
  | Conn => nan_max
  end.

Definition column (j : nat) (m : list (list (option Q))) : list (option Q) :=
  map (fun row => nth j row None) m.

(** [np.logical_and(mask_1, mask_2)] *)
Definition unique_mask (u : policy) (score : list (list (option Q)))
  : list (list bool) :=
  map (fun row =>
         map (fun jv : nat * option Q =>
                isclose (snd jv) (best u (column (fst jv) score)) &&
                isclose (snd jv) (best u row))
             (enumerate row)) score.

(** [a *= b] on boolean matrices of one shape. *)
Definition and_mat (a b : list (list bool)) : list (list bool) :=
  map (fun rs => map (fun xy : bool * bool => fst xy && snd xy)
                     (combine (fst rs) (snd rs))) (combine a b).

Definition get_temporal_overlapped_pairs (batch_1 batch_2 : list fragment)
    (lag : nat) (ntol : Z) (rtol : Q) (unique : option policy)
  : option (list (nat * nat)) :=
  dist_mat <- temporal_dist_mat batch_1 batch_2 lag ;;
  let conn_mat := temporal_conn_mat dist_mat rtol in
  let adj_mat := map (map (fun c => (ntol <=? Z.of_nat c)%Z)) conn_mat in
  adj_mat <-
    match unique with
    | Some u =>
        if (0 <? length batch_1) && (0 <? length batch_2)
        then score <- score_mat u lag dist_mat conn_mat ;;
             Some (and_mat adj_mat (unique_mask u score))
        else Some adj_mat
    | None => Some adj_mat
    end ;;
  Some (nonzero adj_mat).

(** ** resolve_temporal_overlap *)

(** The bookkeeping carried from one pair of batches to the next. *)
Record stitch_state : Type := {
  extended : list fragment;
  fragments : list fragment;
  t0_extended : list nat;
  t0_fragments : list nat;
  previous_pairs : list (nat * nat)
}.

(** [(np.concatenate((olds[p][0][:-lag], b1[p1][0])), olds[p][1] + b1[p1][1])] *)
Definition extend_pair (olds b1 : list fragment) (lag : nat) (p : nat * nat)
  : option fragment :=
  old <- nth_error olds (fst p) ;;
  new <- nth_error b1 (snd p) ;;
  Some (drop_last lag (fst old) ++ fst new, (snd old + snd new)%Q).

(** The body of the loop, for the batches [b0 = trajectory_batches[i]] and
    [b1 = trajectory_batches[i + 1]]. *)
Definition stitch_step (lag : nat) (ntol : Z) (rtol : Q)
    (st : stitch_state) (i : nat) (b0 b1 : list fragment)
  : option stitch_state :=
  pairs_extend <-
    get_temporal_overlapped_pairs (extended st) b1 lag ntol rtol (Some Conn) ;;
  let has_extended := 0 <? length (extended st) in
  ext_1 <- (if has_extended
            then mapM (extend_pair (extended st) b1 lag) pairs_extend
            else Some []) ;;
  t0_1 <- (if has_extended
           then mapM (fun p => nth_error (t0_extended st) (fst p)) pairs_extend
           else Some []) ;;
  let ne_pe_indices :=
    if has_extended
    then setdiff_arange (length (extended st)) (map fst pairs_extend)
    else [] in
  frag_1 <- mapM (nth_error (extended st)) ne_pe_indices ;;
  t0_frag_1 <- mapM (nth_error (t0_extended st)) ne_pe_indices ;;
  let pne_indices :=
    setdiff_arange (length b0) (map snd (previous_pairs st)) in
  pne_trajs <- mapM (nth_error b0) pne_indices ;;
  let indice_not_extended :=
    setdiff_arange (length b1) (map snd pairs_extend) in
  b1_not_extended <- mapM (nth_error b1) indice_not_extended ;;
  pairs_new <-
    get_temporal_overlapped_pairs pne_trajs b1_not_extended lag ntol rtol
                                  (Some Conn) ;;
  (* remap = np.arange(len(b1))[indice_not_extended] *)
  pairs_new <- mapM (fun p => j <- nth_error indice_not_extended (snd p) ;;
                              Some (fst p, j)) pairs_new ;;
  ext_2 <- mapM (extend_pair pne_trajs b1 lag) pairs_new ;;
  let ne_ne_indices :=
    setdiff_arange (length pne_trajs) (map fst pairs_new) in
  frag_2 <- mapM (nth_error pne_trajs) ne_ne_indices ;;
  Some {| extended := ext_1 ++ ext_2;
          t0_extended := t0_1 ++ map (fun _ => i * lag) pairs_new;
          fragments := fragments st ++ frag_1 ++ frag_2;
          t0_fragments := t0_fragments st ++ t0_frag_1
                          ++ map (fun _ => i * lag) ne_ne_indices;
          previous_pairs := pairs_extend ++ pairs_new |}.

(** [for i, b1 in enumerate(trajectory_batches[1:])] *)
Fixpoint stitch_loop (lag : nat) (ntol : Z) (rtol : Q) (st : stitch_state)
    (i : nat) (batches : list (list fragment)) : option stitch_state :=
  match batches with
  | b0 :: ((b1 :: _) as rest) =>
      st' <- stitch_step lag ntol rtol st i b0 b1 ;;
      stitch_loop lag ntol rtol st' (S i) rest
  | _ => Some st
  end.

Definition resolve_temporal_overlap (trajectory_batches : list (list fragment))
    (lag : nat) (ntol : Z) (rtol : Q) : option (list fragment * list nat) :=
  st <- stitch_loop lag ntol rtol
          {| extended := []; fragments := []; t0_extended := [];
             t0_fragments := []; previous_pairs := [] |}
          0 trajectory_batches ;;
  (* b0 = trajectory_batches[-2] *)
  b0 <- (if 2 <=? length trajectory_batches
         then nth_error trajectory_batches (length trajectory_batches - 2)
         else None) ;;
  let pne_indices :=
    setdiff_arange (length b0) (map snd (previous_pairs st)) in
  pne_trajs <- mapM (nth_error b0) pne_indices ;;
  Some (extended st ++ fragments st ++ pne_trajs,
        t0_extended st ++ t0_fragments st
        ++ map (fun _ => (length trajectory_batches - 1) * lag) pne_trajs).

(** [b] is the best score among [vs]: the least for ['dist'], the greatest
    for ['conn'], NaN entries apart. *)
Definition is_best (u : policy) (vs : list (option Q)) (b : Q) : Prop :=
  In (Some b) vs /\
  forall v, In (Some v) vs ->
    match u with
    | Dist => (b <= v)%Q
    | Conn => (v <= b)%Q
    end.

(** The specification read literally: no fragment index of either batch
    occurs in two returned pairs. *)
Definition one_match_each (pairs : list (nat * nat)) : Prop :=
  forall i j i' j', In (i, j) pairs -> In (i', j') pairs ->
    (i = i' <-> j = j').

(** ** solve_overlap_lp and solve_overlap_lp_fast *)

(** A row of [points]. *)
Definition point : Type := list Q.

(** The binary program built in the loop of [solve_overlap_lp]: one
    variable [x_i] per point, the constraint [sum(x) == n_target], for
    every [i <> j] the constraint [coef[i][j] * x_i * x_j >= 0] with
    [coef[i][j] = dist_mat[i, j] - diameter], and the cost to minimise. *)
Record lp_model : Type := {
  lp_size : nat;
  lp_target : nat;
  lp_coef : list (list Q);
  lp_cost : list Q
}.

Definition b2q (b : bool) : Q := if b then 1%Q else 0%Q.

(** [x] satisfies the constraints of the program. *)
Definition feasible (m : lp_model) (x : list bool) : bool :=
  (length x =? lp_size m) &&
  (length (filter (fun b => b) x) =? lp_target m) &&
  forallb (fun i =>
    forallb (fun j =>
      (i =? j) ||
      Qle_bool 0 (nth j (nth i (lp_coef m) []) 0%Q
                  * b2q (nth i x false) * b2q (nth j x false)))
      (seq 0 (lp_size m)))
    (seq 0 (lp_size m)).

(** [a[mask]] for a boolean mask, which must have the length of [a]. *)
Definition mask_select {A : Type} (mask : list bool) (a : list A)
  : option (list A) :=
  if length mask =? length a
  then Some (map snd (filter fst (combine mask a)))
  else None.

(** [a[idxs]] for an index array. *)
Definition take {A : Type} (a : list A) (idxs : list nat) : option (list A) :=
  mapM (nth_error a) idxs.

(** [range(N, 1, -1)] *)
Definition ladder_sizes (N : nat) : list nat := rev (seq 2 (N - 1)).

Section Resolver.

(** The metric of [scipy.spatial.distance.pdist]: the Euclidean distance of
    two rows. *)
Variable dist : point -> point -> Q.

(** [model.solve()] of the optimisation backend, with the solution values
    read as booleans; [None] when the backend reports no solution. *)
Variable solve : lp_model -> option (list bool).

(** [scipy.sparse.csgraph.connected_components]: the number of components
    and the label of every node. *)
Variable connected_components : list (list bool) -> nat * list nat.

(** [pdist(points)]: the distances of the pairs [i < j], row by row. *)
Fixpoint pdist (points : list point) : list Q :=
  match points with
  | [] => []
  | p :: ps => map (dist p) ps ++ pdist ps
  end.

(** [squareform(pdist(points))] *)
Definition dist_matrix (points : list point) : list (list Q) :=
  map (fun i =>
         map (fun j =>
                if i <? j then dist (nth i points []) (nth j points [])
                else if j <? i then dist (nth j points []) (nth i points [])
                else 0%Q)
             (seq 0 (length points)))
      (seq 0 (length points)).

Definition overlap_model (points : list point) (errors : list Q)
    (diameter : Q) (n_target : nat) : lp_model :=
  {| lp_size := length points;
     lp_target := n_target;
     lp_coef := map (map (fun d => (d - diameter)%Q)) (dist_matrix points);
     lp_cost := errors |}.

(** The loop over the target sizes, and the fallback after it. *)
Fixpoint ladder (points : list point) (errors : list Q) (diameter : Q)
    (targets : list nat) : option (list point) :=
  match targets with
  | [] =>
      b <- argmin errors ;;
      p <- nth_error points b ;;
      Some [p]
  | n_target :: rest =>
      match solve (overlap_model points errors diameter n_target) with
      | Some indices => mask_select indices points
      | None => ladder points errors diameter rest
      end
  end.

Definition solve_overlap_lp (points : list point) (errors : list Q)
    (diameter : Q) : option (list point) :=
  if forallb (fun d => Qltb diameter d) (pdist points) then Some points
  else if length points <=? 1 then Some points
  else ladder points errors diameter (ladder_sizes (length points)).

(** The target sizes the loop goes through when no attempt succeeds: none
    when the function returns before the loop. *)
Definition attempted_sizes (points : list point) (diameter : Q) : list nat :=
  if forallb (fun d => Qltb diameter d) (pdist points) then []
  else if length points <=? 1 then []
  else ladder_sizes (length points).

(** [aij = squareform(dists) < diameter; np.fill_diagonal(aij, 0)] *)
Definition proximity (points : list point) (diameter : Q) : list (list bool) :=
  map (fun ir =>
         map (fun jd => negb (fst ir =? fst jd) && Qltb (snd jd) diameter)
             (enumerate (snd ir)))
      (enumerate (dist_matrix points)).

Definition solve_overlap_lp_fast (points : list point) (errors : list Q)
    (diameter : Q) : option (list point) :=
  let aij := proximity points diameter in
  let n_cliques := fst (connected_components aij) in
  let labels := snd (connected_components aij) in
  result <- mapM (fun val =>
              let clique := where_true (map (fun l => l =? val) labels) in
              if length clique =? 1 then take points clique
              else pts <- take points clique ;;
                   errs <- take errors clique ;;
                   solve_overlap_lp pts errs diameter)
              (seq 0 n_cliques) ;;
  (* np.concatenate raises on an empty list *)
  match result with
  | [] => None
  | _ => Some (concat result)
  end.

(** No two points of [pts] are closer than [diameter]. *)
Definition separated (diameter : Q) (pts : list point) : Prop :=
  ForallOrdPairs (fun p q => (diameter <= dist p q)%Q) pts.

End Resolver.

(** Nodes joined by an edge carry one label. *)
Definition labels_respect (aij : list (list bool)) (labels : list nat) : bool :=
  forallb (fun a =>
    forallb (fun b =>
      negb (nth b (nth a aij []) false) ||
      (nth a labels 0 =? nth b labels 0))
      (seq 0 (length aij)))
    (seq 0 (length aij)).

(** A reference backend, by exhaustive search: the cheapest of the
    assignments that satisfy the constraints. *)
Fixpoint all_masks (n : nat) : list (list bool) :=
  match n with
  | 0 => [[]]
  | S k => flat_map (fun m => [false :: m; true :: m]) (all_masks k)
  end.

Definition cost (m : lp_model) (x : list bool) : Q :=
  fold_left Qplus (map (fun xe => (b2q (fst xe) * snd xe)%Q)
                       (combine x (lp_cost m))) 0%Q.

Fixpoint cheapest (c : list bool -> Q) (l : list (list bool))
  : option (list bool) :=
  match l with
  | [] => None
  | x :: l' =>
      match cheapest c l' with
      | Some y => if Qltb (c y) (c x) then Some y else Some x
      | None => Some x
      end
  end.

Definition exhaustive_solve (m : lp_model) : option (list bool) :=
  cheapest (cost m) (filter (feasible m) (all_masks (lp_size m))).

(** A reference labelling of connected components: every node takes the
    least index it can reach, and the components are numbered in the order
    of their least node. *)
Definition spread (aij : list (list bool)) (labels : list nat) : list nat :=
  map (fun i =>
         fold_left Nat.min
           (map (fun j => if nth j (nth i aij []) false
                          then nth j labels 0 else nth i labels 0)
                (seq 0 (length aij)))
           (nth i labels 0))
      (seq 0 (length aij)).

Definition reach_labels (aij : list (list bool)) : nat * list nat :=
  let n := length aij in
  let least := fold_left (fun l _ => spread aij l) (seq 0 n) (seq 0 n) in
  let roots := filter (fun i => nth i least 0 =? i) (seq 0 n) in
  (length roots,
   map (fun r => length (filter (fun root => root <? r) roots)) least).

(** The Euclidean distance of two points that have one coordinate. *)
Definition dist_1d (p q : point) : Q := Qabs (nth 0 p 0%Q - nth 0 q 0%Q).

(** The valid rows of an array with their indices, counted from [s]. *)
Definition valid_rows (s : nat) (rows : list position) : list (nat * point3) :=
  flat_map (fun ip : nat * position =>
              match snd ip with
              | Some p => [(fst ip, p)]
              | None => []
              end) (combine (seq s (length rows)) rows).

(** The value on the line through [(a, fa)] and [(b, fb)] at [i], as
    [np.interp] computes it. *)
Definition lerp (a b : nat) (fa fb : Q) (i : nat) : Q :=
  ((fb - fa) / (inject_Z (Z.of_nat b) - inject_Z (Z.of_nat a))
   * (inject_Z (Z.of_nat i) - inject_Z (Z.of_nat a)) + fa)%Q.

Definition lerp3 (a b : nat) (pa pb : point3) (i : nat) : point3 :=
  (lerp a b (px pa) (px pb) i, lerp a b (py pa) (py pb) i,
   lerp a b (pz pa) (pz pb) i).

(** One value of [np.interp(x, xp, fp)] with the sample points and values
    given as the valid rows [V] of a slice, for the coordinate [c]. *)
Definition interp_over (c : point3 -> Q) (V : list (nat * point3)) (k : nat) : Q :=
  match V with
  | [] => 0%Q
  | (x0, p0) :: V' =>
      if k <=? x0 then c p0
      else interp_from k x0 (c p0) (map fst V') (map c (map snd V'))
  end.

Definition interp_point (V : list (nat * point3)) (k : nat) : point3 :=
  (interp_over px V k, interp_over py V k, interp_over pz V k).

(** [is_valid_array] of [convert_traj_format] after [fill_hole_1d]: the
    mask of the offsets it keeps. *)
Definition kept_mask (traj : fragment) : list bool :=
  Hole.fill_hole_1d (map (fun p => negb (is_nan p)) (fst traj)) 3.

(** ** post_process_ctraj *)

Section PostProcess.

(** [join_pairs] comes from the compiled module [cutility]. *)
Variable join_pairs : list (nat * nat) -> list (list nat).

(** [trajs_3d_opt += convert_traj_format(traj, t0)] extends the result by
    the one trajectory of the conversion. *)
Definition post_process_ctraj (trajs_3d : list fragment) (t0 : Z)
    (z_min z_max : Q) (num : Z) (rtol : Q)
  : option (list (list Z * list point3)) :=
  let trajs_3d_filtered := get_valid_ctraj trajs_3d z_min z_max in
  match trajs_3d_filtered with
  | [] => Some []
  | _ =>
      op <- get_overlap_pairs trajs_3d_filtered num rtol ;;
      let jop := join_pairs op in
      match jop with
      | [] =>
          converted <- mapM (fun traj => convert_traj_format traj t0)
                            trajs_3d_filtered ;;
          Some (concat converted)
      | _ =>
          let not_unique := concat jop in
          singles <-
            mapM (fun it : nat * fragment => convert_traj_format (snd it) t0)
                 (filter (fun it : nat * fragment =>
                            negb (existsb (Nat.eqb (fst it)) not_unique))
                         (enumerate trajs_3d_filtered)) ;;
          chosen <-
            mapM (fun p => chosen_traj <- choose_best trajs_3d_filtered p ;;
                           convert_traj_format chosen_traj t0) jop ;;
          Some (concat singles ++ concat chosen)
      end
  end.

End PostProcess.

(** The bookkeeping of [resolve_temporal_overlap] is consistent at the
    start of iteration [n]: every trajectory carried along has a start
    frame, and a start frame is [k * lag] for an earlier iteration [k]. *)
Definition stitch_inv (lag n : nat) (st : stitch_state) : Prop :=
  length (extended st) = length (t0_extended st) /\
  length (fragments st) = length (t0_fragments st) /\
  forall t, In t (t0_extended st ++ t0_fragments st) ->
            exists k, k < n /\ t = k * lag.

(** ** get_trajectory_batches and get_short_trajs *)

Section Batches.

(** The 2D features of the three views at one frame: an entry of
    [features_mv_mt]. *)
Variable frame : Type.

(** The tracking of one window of frames: [match_v3] on every frame of the
    window followed by [get_trajs_3d], [get_trajs_3d_t1t2] (with [tau_1]
    and [tau_2]) or [get_trajs_3d_t1t2t3], all from the compiled module
    [cgreta]; the cameras and the tolerances are fixed. *)
Variable get_trajs_3d : list frame -> list fragment.
Variable get_trajs_3d_t1t2 : nat -> nat -> list frame -> list fragment.
Variable get_trajs_3d_t1t2t3 : nat -> nat -> nat -> list frame -> list fragment.

(** [join_pairs] comes from the compiled module [cutility]. *)
Variable join_pairs : list (nat * nat) -> list (list nat).

(** [t_starts] of [get_trajectory_batches], for non-negative [tau]:
    [frame_num // shift] raises ZeroDivisionError when [shift] is 0. *)
Definition batch_starts (frame_num tau : nat) : option (list nat) :=
  let shift := tau / 2 in
  if shift =? 0 then None
  else
    let t_starts := map (fun t => t * shift) (seq 0 (frame_num / shift)) in
    Some (filter (fun t => t + tau <=? frame_num) t_starts).

Definition get_trajectory_batches (features_mv_mt : list frame) (tau : nat)
    (z_min z_max : Q) (overlap_num : Z) (overlap_rtol : Q) (t1 : nat)
  : option (list (list fragment)) :=
  t_starts <- batch_starts (length features_mv_mt) tau ;;
  mapM (fun t0 =>
          (* features_mv_mt[t0 : t0 + tau] *)
          let window := firstn tau (skipn t0 features_mv_mt) in
          ctrajs_3d <-
            (if t1 =? 1 then Some (get_trajs_3d window)
             else if t1 =? 0 then None   (* tau // t1 *)
             else Some (get_trajs_3d_t1t2 t1 (tau / t1) window)) ;;
          let ctrajs_3d := get_valid_ctraj ctrajs_3d z_min z_max in
          remove_spatial_overlap join_pairs ctrajs_3d overlap_num overlap_rtol)
       t_starts.

(** The loop of [get_short_trajs] over the windows, for non-negative
    [t1], [t2], [t3]: the trajectories of each window. *)
Definition short_traj_parts (features_mv_mt : list frame) (t1 t2 t3 : nat)
    (z_min z_max : Q) (overlap_num : Z) (overlap_rtol : Q)
  : option (list (list (list Z * list point3))) :=
  let shift := t1 * t2 * t3 in
  if shift =? 0 then None   (* frame_num // shift *)
  else
    let t_starts :=
      map (fun t => t * shift) (seq 0 (length features_mv_mt / shift)) in
    mapM (fun t0 =>
            let window := firstn shift (skipn t0 features_mv_mt) in
            ctrajs_3d <-
              (if (t2 =? 1) && (t3 =? 1) then Some (get_trajs_3d window)
               else if (1 <? t2) && (t3 =? 1)
                    then Some (get_trajs_3d_t1t2 t1 t2 window)
               else if (1 <? t2) && (1 <? t3)
                    then Some (get_trajs_3d_t1t2t3 t1 t2 t3 window)
               else None) ;;   (* ValueError *)
            post_process_ctraj join_pairs ctrajs_3d (Z.of_nat t0)
                               z_min z_max overlap_num overlap_rtol)
         t_starts.

(** [return [t for t in trajectories if len(t[0]) > 1]] *)
Definition get_short_trajs (features_mv_mt : list frame) (t1 t2 t3 : nat)
    (z_min z_max : Q) (overlap_num : Z) (overlap_rtol : Q)
  : option (list (list Z * list point3)) :=
  parts <- short_traj_parts features_mv_mt t1 t2 t3
                            z_min z_max overlap_num overlap_rtol ;;
  Some (filter (fun t : list Z * list point3 => 1 <? length (fst t))
               (concat parts)).

End Batches.

(** ** get_overlap_pairs in the arithmetic of the program *)

Section Arithmetic.

(** The numbers of the program with the operations the function uses on
    them.  For numpy these are the IEEE doubles, the rounded difference,
    product and sum, and [<], which is False when an operand is NaN; for
    the exact model above they are the rationals. *)
Variable dbl : Type.
Variables fsub fmul fadd : dbl -> dbl -> dbl.
Variable flt : dbl -> dbl -> bool.

Definition point3_in : Type := (dbl * dbl * dbl)%type.
Definition position_in : Type := option point3_in.
Definition fragment_in : Type := (list position_in * dbl)%type.

(** [np.sum(np.square(p - q))] for two rows without NaN: the three squares
    are added from the left. *)
Definition sq_diff_in (p q : point3_in) : dbl :=
  let '(x1, y1, z1) := p in
  let '(x2, y2, z2) := q in
  fadd (fadd (fmul (fsub x1 x2) (fsub x1 x2))
             (fmul (fsub y1 y2) (fsub y1 y2)))
       (fmul (fsub z1 z2) (fsub z1 z2)).

Definition sq_dist_in (p q : position_in) : option dbl :=
  match p, q with
  | Some a, Some b => Some (sq_diff_in a b)
  | _, _ => None
  end.

(** [d < r]: False for the NaN of a missing row. *)
Definition nan_lt_in (d : option dbl) (r : dbl) : bool :=
  match d with
  | Some v => flt v r
  | None => false
  end.

Definition count_lt_in (d : list (option dbl)) (r : dbl) : nat :=
  length (filter (fun v => nan_lt_in v r) d).

Definition pairwise_in (a b : list position_in) : list (option dbl) :=
  map (fun ab => sq_dist_in (fst ab) (snd ab)) (combine a b).

Definition dist_row_in (T : nat) (a b : list position_in)
  : option (list (option dbl)) :=
  v <- broadcast2 sq_dist_in a b ;; assign_row T v.

Definition get_overlap_pairs_in (trajs : list fragment_in) (num : Z)
    (rtol : dbl) : option (list (nat * nat)) :=
  match trajs with
  | [] => None
  | t0 :: _ =>
      let T := length (fst t0) in
      let rtol_sq := fmul rtol rtol in
      dist_mat <- mapM (fun t1 =>
                    mapM (fun t2 => dist_row_in T (fst t1) (fst t2)) trajs)
                    trajs ;;
      let adj_mat :=
        map (map (fun d => (num <=? Z.of_nat (count_lt_in d rtol_sq))%Z))
            dist_mat in
      Some (nonzero (triu1 adj_mat))
  end.

(** At offset [t] both positions are present and the squared distance the
    program computes is below the squared tolerance it computes. *)
Definition near_at_in (a b : list position_in) (rtol : dbl) (t : nat)
  : Prop :=
  exists p q, nth_error a t = Some (Some p) /\ nth_error b t = Some (Some q) /\
              flt (sq_diff_in p q) (fmul rtol rtol) = true.

(** Fragments [i < j] overlap for the program: at least [num] offsets are
    near in that sense. *)
Definition overlapping_in (T : nat) (trajs : list fragment_in) (num : Z)
    (rtol : dbl) (i j : nat) : Prop :=
  i < j /\
  exists ti tj n,
    nth_error trajs i = Some ti /\ nth_error trajs j = Some tj /\
    counts (near_at_in (fst ti) (fst tj) rtol) T n /\
    (num <= Z.of_nat n)%Z.

End Arithmetic.

(** The IEEE doubles of numpy as the primitive binary64 numbers. *)
Module Binary64.

Definition float : Type := PrimFloat.float.

(** The double [m * 2 ^ e]. *)
Definition double (m e : Z) : float :=
  FloatOps.SF2Prim
    (match m with
     | Z0 => SpecFloat.S754_zero false
     | Zpos p => SpecFloat.S754_finite false p e
     | Zneg p => SpecFloat.S754_finite true p e
     end).

(** The rational a finite double stands for. *)
Definition exact_value (f : float) : option Q :=
  match FloatOps.Prim2SF f with
  | SpecFloat.S754_zero _ => Some 0%Q
  | SpecFloat.S754_finite s m e =>
      Some ((if s then inject_Z (Zneg m) else inject_Z (Zpos m))
            * Qpower 2 e)%Q
  | _ => None
  end.

Definition exact_position (p : position_in float) : option position :=
  match p with
  | None => Some None
  | Some (x, y, z) =>
      x' <- exact_value x ;; y' <- exact_value y ;; z' <- exact_value z ;;
      Some (Some (x', y', z'))
  end.

Definition exact_fragment (t : fragment_in float) : option fragment :=
  rows <- mapM exact_position (fst t) ;;
  e <- exact_value (snd t) ;;
  Some (rows, e).

(** [get_overlap_pairs] on doubles. *)
Definition get_overlap_pairs_f64 (trajs : list (fragment_in float)) (num : Z)
    (rtol : float) : option (list (nat * nat)) :=
  get_overlap_pairs_in PrimFloat.sub PrimFloat.mul PrimFloat.add
                       PrimFloat.ltb trajs num rtol.

End Binary64.

(* ================================================================== *)
(** * Part II: properties                                              *)
(* ================================================================== *)

(** ** fill_hole_1d *)

Module HoleFacts.
Import Hole.

Lemma assign_ones_length a : forall shift s,
  length (assign_ones a shift s) = length a.
Proof.
  induction a as [|b a IH]; intros shift s; simpl; [reflexivity|].
  destruct shift; [destruct s|]; simpl; auto.
Qed.

Lemma assign_ones_nth a : forall shift s i,
  nth i (assign_ones a shift s) false =
  if (shift <=? i) && (i <? shift + s) && (i <? length a)
  then true else nth i a false.
Proof.
  induction a as [|b a IH]; intros shift s i; simpl.
  - destruct i; simpl; rewrite ?andb_false_r; reflexivity.
  - destruct shift as [|k].
    + destruct s as [|s'].
      * simpl. destruct i; reflexivity.
      * destruct i as [|i]; simpl; [reflexivity|].
        rewrite IH. simpl. reflexivity.
    + destruct i as [|i]; simpl; [reflexivity|].
      rewrite IH. reflexivity.
Qed.

Lemma probe_length s : length (probe s) = s.
Proof.
  destruct s as [|[|k]]; simpl; auto.
  rewrite length_app, repeat_length. simpl. lia.
Qed.

Lemma probe_nth s i : 2 <= s -> i < s ->
  nth i (probe s) false = (i =? 0) || (i =? s - 1).
Proof.
  intros Hs Hi. destruct s as [|[|k]]; try lia. simpl.
  destruct i as [|i]; [reflexivity|]. simpl.
  replace (k - 0) with k by lia.
  destruct (Nat.eq_dec i k) as [->|Hne].
  - rewrite Nat.eqb_refl.
    rewrite <- (repeat_length false k) at 1. rewrite nth_middle. reflexivity.
  - rewrite app_nth1 by (rewrite repeat_length; lia).
    rewrite nth_repeat.
    symmetry. apply Nat.eqb_neq. exact Hne.
Qed.

Lemma slice_length a shift s :
  length (slice a shift s) = Nat.min s (length a - shift).
Proof. unfold slice. rewrite length_firstn, length_skipn. reflexivity. Qed.

Lemma slice_nth a shift s i : i < s ->
  nth i (slice a shift s) false = nth (shift + i) a false.
Proof.
  intros Hi. unfold slice. rewrite nth_firstn.
  destruct (Nat.ltb_spec i s); [|lia]. apply nth_skipn.
Qed.

(** The test of the inner loop is the hole predicate. *)
Lemma array_equal_hole a u s : 3 <= s ->
  array_equal (probe s) (slice a u s) = true <-> hole a u s.
Proof.
  intros Hs. unfold array_equal.
  destruct (list_eq_dec _ _ _) as [E|NE]; split; intros H; try discriminate;
    try reflexivity.
  - assert (Hlen : u + s <= length a).
    { pose proof (f_equal (@length bool) E) as HL.
      rewrite probe_length, slice_length in HL. lia. }
    assert (Hn : forall i, i < s ->
               nth (u + i) a false = (i =? 0) || (i =? s - 1)).
    { intros i Hi. rewrite <- (slice_nth a u Hi).
      rewrite <- E. apply probe_nth; lia. }
    repeat split; [exact Hlen | | |].
    + rewrite <- (Nat.add_0_r u) at 1. rewrite Hn by lia. reflexivity.
    + replace (u + s - 1) with (u + (s - 1)) by lia.
      rewrite Hn by lia. rewrite Nat.eqb_refl. apply orb_true_r.
    + intros j Hj. replace j with (u + (j - u)) by lia.
      rewrite Hn by lia.
      destruct (Nat.eqb_spec (j - u) 0); [lia|].
      destruct (Nat.eqb_spec (j - u) (s - 1)); [lia|]. reflexivity.
  - exfalso. apply NE. destruct H as (Hlen & H0 & H1 & Hin).
    apply nth_ext with (d := false) (d' := false).
    + rewrite probe_length, slice_length. lia.
    + intros i Hi. rewrite probe_length in Hi.
      rewrite slice_nth by exact Hi. rewrite probe_nth by lia.
      destruct (Nat.eqb_spec i 0) as [->|].
      * rewrite Nat.add_0_r. symmetry; exact H0.
      * destruct (Nat.eqb_spec i (s - 1)) as [->|].
        -- replace (u + (s - 1)) with (u + s - 1) by lia. symmetry; exact H1.
        -- simpl. symmetry. apply Hin. lia.
Qed.


Ltac window_cases :=
  repeat match goal with
  | H : context [Nat.leb ?x ?y] |- _ => destruct (Nat.leb_spec x y); simpl in H
  | H : context [Nat.ltb ?x ?y] |- _ => destruct (Nat.ltb_spec x y); simpl in H
  | |- context [Nat.leb ?x ?y] => destruct (Nat.leb_spec x y); simpl
  | |- context [Nat.ltb ?x ?y] => destruct (Nat.ltb_spec x y); simpl
  end.

(** Filling only turns entries on. *)
Lemma assign_ones_mono a t s i :
  nth i a false = true -> nth i (assign_ones a t s) false = true.
Proof.
  intros H. rewrite assign_ones_nth.
  destruct (_ && _); [reflexivity | exact H].
Qed.

(** A hole seen after a fill was already a hole before it. *)
Lemma hole_fill_back a t s' u s :
  hole a t s' -> 3 <= s ->
  hole (assign_ones a t s') u s -> hole a u s.
Proof.
  intros (Hl & Ht0 & Ht1 & Htin) Hs (Hl' & Hu0 & Hu1 & Huin).
  rewrite assign_ones_length in Hl'.
  assert (Hin : forall j, u < j < u + s - 1 ->
            nth j a false = false /\ ~ (t <= j < t + s')).
  { intros j Hj. specialize (Huin j Hj). rewrite assign_ones_nth in Huin.
    window_cases; try discriminate; split; auto; lia. }
  rewrite assign_ones_nth in Hu0, Hu1.
  destruct (Hin (u + 1)) as [_ Hnext]; [lia|].
  destruct (Hin (u + s - 2)) as [_ Hprev]; [lia|].
  repeat split; [exact Hl' | | | intros j Hj; apply Hin; exact Hj].
  - clear Hu1. window_cases; auto.
    destruct (Nat.eq_dec u t) as [->|]; [exact Ht0|].
    destruct (Nat.eq_dec u (t + s' - 1)) as [->|]; [exact Ht1|]. lia.
  - clear Hu0. window_cases; auto.
    destruct (Nat.eq_dec (u + s - 1) t) as [->|]; [exact Ht0|].
    destruct (Nat.eq_dec (u + s - 1) (t + s' - 1)) as [E|]; [|lia].
    rewrite E. exact Ht1.
Qed.

(** Two holes that share an inner entry are the same hole. *)
Lemma hole_unique a u s u' s' j :
  hole a u s -> hole a u' s' ->
  u < j < u + s - 1 -> u' < j < u' + s' - 1 ->
  u = u' /\ s = s'.
Proof.
  intros (Hl & H0 & H1 & Hin) (Hl' & H0' & H1' & Hin') Hj Hj'.
  assert (u = u').
  { destruct (Nat.lt_total u u') as [Hlt|[->|Hlt]]; [|reflexivity|].
    - rewrite Hin in H0' by lia. discriminate.
    - rewrite Hin' in H0 by lia. discriminate. }
  subst u'. split; [reflexivity|].
  destruct (Nat.lt_total s s') as [Hlt|[->|Hlt]]; [|reflexivity|].
  - rewrite Hin' in H1 by lia. discriminate.
  - rewrite Hin in H1' by lia. discriminate.
Qed.

(** Filling one hole leaves every other hole as it is. *)
Lemma hole_fill_other a t s' u s :
  hole a t s' -> hole a u s -> 3 <= s -> (t, s') <> (u, s) ->
  hole (assign_ones a t s') u s.
Proof.
  intros Ht Hu Hs Hne.
  pose proof Ht as (Hl & H0 & H1 & Hin).
  pose proof Hu as (Hl' & H0' & H1' & Hin').
  repeat split.
  - rewrite assign_ones_length. exact Hl'.
  - apply assign_ones_mono. exact H0'.
  - apply assign_ones_mono. exact H1'.
  - intros j Hj. rewrite assign_ones_nth.
    destruct ((t <=? j) && (j <? t + s') && (j <? length a)) eqn:E;
      [|apply Hin'; exact Hj].
    exfalso. apply andb_prop in E. destruct E as [E _].
    apply andb_prop in E. destruct E as [E1 E2].
    apply Nat.leb_le in E1. apply Nat.ltb_lt in E2.
    pose proof (Hin' j Hj) as Hjf.
    assert (t < j < t + s' - 1).
    { destruct (Nat.eq_dec j t) as [->|]; [congruence|].
      destruct (Nat.eq_dec j (t + s' - 1)) as [->|]; [congruence|]. lia. }
    destruct (@hole_unique a t s' u s j Ht Hu) as [E1' E2']; auto.
Qed.

Lemma fills_trans m a b c : fills m a b -> fills m b c -> fills m a c.
Proof.
  induction 1 as [|a t s a' Hs Hh _ IH]; intros Hbc; [exact Hbc|].
  eapply fills_step; eauto.
Qed.

Lemma fills_length m a b : fills m a b -> length b = length a.
Proof.
  induction 1 as [|a t s a' _ _ _ IH]; [reflexivity|].
  rewrite IH. apply assign_ones_length.
Qed.

Lemma fills_mono m a b i :
  fills m a b -> nth i a false = true -> nth i b false = true.
Proof.
  induction 1 as [|a t s a' _ _ _ IH]; intros H; [exact H|].
  apply IH. apply assign_ones_mono. exact H.
Qed.

Lemma fills_hole_back m a b u s :
  fills m a b -> 3 <= s -> hole b u s -> hole a u s.
Proof.
  induction 1 as [|a t s' a' _ Hh _ IH]; intros Hs Hb; [exact Hb|].
  eapply hole_fill_back; eauto.
Qed.

(** Every entry that is on after a sequence of fills was on before it, or
    is inside a hole of the starting array. *)
Lemma fills_sound m a b i :
  fills m a b -> nth i b false = true ->
  nth i a false = true \/
  exists u s, 3 <= s <= m /\ hole a u s /\ u < i < u + s - 1.
Proof.
  induction 1 as [|a t s a' Hs Hh Hf IH]; intros Hb; [left; exact Hb|].
  destruct (IH Hb) as [Hon | (u & s0 & Hs0 & Hh0 & Hi)].
  - rewrite assign_ones_nth in Hon.
    destruct (nth i a false) eqn:Ei; [left; reflexivity|].
    right. exists t, s. split; [lia|]. split; [exact Hh|]. split.
    + destruct Hh as (_ & H0 & _). window_cases; try discriminate.
      destruct (Nat.eq_dec i t); [congruence | lia].
    + destruct Hh as (_ & _ & H1 & _). window_cases; try discriminate.
      destruct (Nat.eq_dec i (t + s - 1)); [congruence | lia].
  - right. exists u, s0. split; [lia|]. split; [|lia].
    eapply hole_fill_back; eauto. lia.
Qed.

(** A hole of the starting array is either still there or filled whole. *)
Lemma fills_hole_fate m a b u s :
  fills m a b -> 3 <= s -> hole a u s ->
  hole b u s \/ forall i, u <= i < u + s -> nth i b false = true.
Proof.
  induction 1 as [|a t s' a' Hs' Hh Hf IH]; intros Hs Hu; [left; exact Hu|].
  destruct (Nat.eq_dec t u) as [Etu|Ntu];
    [destruct (Nat.eq_dec s' s) as [Ess|Nss]|].
  - subst t s'. right. intros i Hi. apply (fills_mono i Hf).
    rewrite assign_ones_nth. destruct Hu as (Hl & _).
    window_cases; try reflexivity; lia.
  - apply IH; [exact Hs|]. apply hole_fill_other; auto. congruence.
  - apply IH; [exact Hs|]. apply hole_fill_other; auto. congruence.
Qed.


(** One test of the inner loop. *)
Lemma scan_step_fills m s a t :
  3 <= s <= m -> fills m a (scan_step s a t).
Proof.
  intros Hs. unfold scan_step.
  destruct (array_equal _ _) eqn:E; [|apply fills_refl].
  apply array_equal_hole in E; [|lia].
  eapply fills_step; eauto. apply fills_refl.
Qed.

Lemma scan_step_no_hole s a t : 3 <= s -> ~ hole (scan_step s a t) t s.
Proof.
  intros Hs. unfold scan_step.
  destruct (array_equal _ _) eqn:E.
  - apply array_equal_hole in E; [|lia].
    intros (Hl & _ & _ & Hin). specialize (Hin (t + 1)).
    rewrite assign_ones_nth in Hin. rewrite assign_ones_length in Hl.
    destruct E as (Hl0 & _).
    assert (Hf : true = false); [|discriminate].
    { rewrite <- Hin by lia. window_cases; try reflexivity; lia. }
  - intros Hh. apply array_equal_hole in Hh; [|lia]. congruence.
Qed.

(** The inner loop: all its tests are fills, and no hole of the probe's
    length is left at a tested shift. *)
Lemma scan_loop m s : 3 <= s <= m -> forall k a,
  let r := fold_left (scan_step s) (seq 0 k) a in
  fills m a r /\ forall u, u < k -> ~ hole r u s.
Proof.
  intros Hs. induction k as [|k IH]; intros a; cbv zeta.
  - split; [apply fills_refl | intros u Hu; lia].
  - rewrite seq_S, fold_left_app. simpl.
    destruct (IH a) as [Hf Hn]. split.
    + eapply fills_trans; [exact Hf|]. apply scan_step_fills. exact Hs.
    + intros u Hu. destruct (Nat.eq_dec u k) as [->|Hne].
      * apply scan_step_no_hole. lia.
      * intros Hh. apply (Hn u); [lia|].
        eapply fills_hole_back; [apply scan_step_fills; exact Hs | lia |].
        exact Hh.
Qed.

Lemma scan_spec m s a :
  3 <= s <= m ->
  fills m a (scan (length a) s a) /\
  forall u, ~ hole (scan (length a) s a) u s.
Proof.
  intros Hs. unfold scan.
  destruct (scan_loop Hs (length a + 1 - s) a) as [Hf Hn].
  split; [exact Hf|]. intros u Hh. apply (Hn u); [|exact Hh].
  destruct Hh as (Hl & _). rewrite (fills_length Hf) in Hl. lia.
Qed.

(** The outer loop over a list of probe lengths. *)
Lemma passes_spec m : forall ss a,
  (forall s, In s ss -> 3 <= s <= m) ->
  let r := fold_left (fun filled s => scan (length a) s filled) ss a in
  fills m a r /\ forall s u, In s ss -> ~ hole r u s.
Proof.
  intros ss a Hss. simpl.
  remember (length a) as n eqn:En.
  revert a En. induction ss as [|s ss IH]; intros a En; simpl.
  - split; [apply fills_refl | intros s u []].
  - assert (Hs : 3 <= s <= m) by (apply Hss; left; reflexivity).
    destruct (@scan_spec m s a Hs) as [Hf1 Hn1]. rewrite <- En in Hf1, Hn1.
    destruct (IH (fun z Hz => Hss z (or_intror Hz)) (scan n s a)) as [Hf2 Hn2].
    { rewrite (fills_length Hf1). exact En. }
    split; [eapply fills_trans; eauto|].
    intros s0 u [<-|Hin]; [|apply Hn2; exact Hin].
    intros Hh. apply (Hn1 u).
    eapply fills_hole_back; [exact Hf2 | lia | exact Hh].
Qed.

Lemma probe_sizes_range size s :
  In s (probe_sizes size) <-> 3 <= s /\ (Z.of_nat s <= size + 2)%Z.
Proof.
  unfold probe_sizes. rewrite <- in_rev, in_seq. lia.
Qed.

Lemma fill_hole_1d_fills b size :
  fills (Z.to_nat size + 2) b (fill_hole_1d b size) /\
  forall s u, In s (probe_sizes size) -> ~ hole (fill_hole_1d b size) u s.
Proof.
  unfold fill_hole_1d. apply passes_spec.
  intros s Hs. apply probe_sizes_range in Hs. lia.
Qed.

Lemma fill_hole_1d_length b size : length (fill_hole_1d b size) = length b.
Proof. destruct (fill_hole_1d_fills b size) as [H _]. apply (fills_length H). Qed.

(** A scan over an array without a hole of the probe's length changes
    nothing. *)
Lemma scan_noop n s a : 3 <= s ->
  (forall u, ~ hole a u s) -> scan n s a = a.
Proof.
  intros Hs Hn. unfold scan. generalize (seq 0 (n + 1 - s)) as l.
  induction l as [|t l IH]; simpl; [reflexivity|].
  unfold scan_step at 2. destruct (array_equal _ _) eqn:E; [|exact IH].
  apply array_equal_hole in E; [|exact Hs]. destruct (Hn t E).
Qed.

(** C9: fill_hole_1d is idempotent: applying it to its own output with the
    same size returns that output. *)
Theorem fill_hole_1d_idempotent (b : list bool) (size : Z) :
  fill_hole_1d (fill_hole_1d b size) size = fill_hole_1d b size.
Proof.
  destruct (fill_hole_1d_fills b size) as [_ Hn].
  set (r := fill_hole_1d b size) in *. unfold fill_hole_1d at 1.
  assert (H : forall ss, (forall s, In s ss -> In s (probe_sizes size)) ->
            fold_left (fun filled s => scan (length r) s filled) ss r = r).
  { induction ss as [|s ss IH]; intros Hss; simpl; [reflexivity|].
    rewrite scan_noop.
    - apply IH. intros z Hz. apply Hss. right. exact Hz.
    - apply (probe_sizes_range size). apply Hss. left. reflexivity.
    - intros u. apply Hn. apply Hss. left. reflexivity. }
  apply H. auto.
Qed.

(** C4, as the code has it: an entry is valid after fill_hole_1d exactly
    when it was valid before or lies in a run of L invalid entries that has
    a valid entry on each side and 1 <= L <= size; every other entry,
    and so every run with L > size, stays invalid. *)
Theorem fill_hole_1d_fills_up_to_size (b : list bool) (size : Z) (i : nat) :
  nth i (fill_hole_1d b size) false = true <-> filled_valid b size i.
Proof.
  destruct (fill_hole_1d_fills b size) as [Hf Hn]. split.
  - intros Hi. destruct (fills_sound i Hf Hi) as [H|(u & s & Hs & Hh & Hu)].
    + left. exact H.
    + right. exists u, (s - 2). replace (s - 2 + 2) with s by lia.
      split; [exact Hh | lia].
  - intros [H|(u & L & Hh & HL & Hsz & Hu)].
    + apply (fills_mono i Hf H).
    + destruct (@fills_hole_fate _ _ _ u (L + 2) Hf) as [Hstill|Hall];
        [lia | exact Hh | | apply Hall; lia].
      exfalso. apply (@Hn (L + 2) u); [|exact Hstill].
      apply probe_sizes_range. lia.
Qed.

(** C4 as stated fails: with size 2 the run of two invalid
    entries in [1 0 0 1] is made valid, although its length is not below
    the size. *)
Lemma fill_hole_1d_fills_length_eq_size :
  nth 1 (fill_hole_1d [true; false; false; true] 2) false = true /\
  ~ claimed_valid [true; false; false; true] 2 1.
Proof.
  split; [reflexivity|].
  intros [H|(u & L & (Hl & H0 & H1 & Hin) & HL & Hsz & Hu)];
    [discriminate|].
  assert (L = 1) by lia. subst L. simpl in Hl.
  assert (u = 0) by lia. subst u. simpl in H1. discriminate.
Qed.

(** The example of the docstring: with size 2 the holes of length 2 and 1
    are filled, the hole of length 4 and the leading zero are not. *)
Example fill_hole_1d_docstring :
  fill_hole_1d [false; true; true; false; false; false; false; true;
                false; false; true; false; true] 2
  = [false; true; true; false; false; false; false; true;
     true; true; true; true; true].
Proof. reflexivity. Qed.

End HoleFacts.

(** ** Arrays *)

Module ArrayFacts.

Lemma mapM_total {A B : Type} (f : A -> option B) (g : A -> B) l :
  (forall x, In x l -> f x = Some (g x)) -> mapM f l = Some (map g l).
Proof.
  induction l as [|x l IH]; intros H; simpl; [reflexivity|].
  rewrite (H x (or_introl eq_refl)). simpl.
  rewrite IH by (intros y Hy; apply H; right; exact Hy). reflexivity.
Qed.

Lemma mapM_Some {A B : Type} (f : A -> option B) l ys :
  mapM f l = Some ys ->
  length ys = length l /\
  forall i x, nth_error l i = Some x ->
    exists y, f x = Some y /\ nth_error ys i = Some y.
Proof.
  revert ys. induction l as [|x l IH]; intros ys H; simpl in H.
  - inversion H; subst. split; [reflexivity|]. intros [|i] z Hz; discriminate.
  - destruct (f x) as [y|] eqn:Ef; simpl in H; [|discriminate].
    destruct (mapM f l) as [ys'|] eqn:Em; simpl in H; [|discriminate].
    inversion H; subst. destruct (IH ys' eq_refl) as [Hl Hn].
    split; [simpl; congruence|].
    intros [|i] z Hz; simpl in *.
    + inversion Hz; subst. exists y. auto.
    + apply Hn. exact Hz.
Qed.

Lemma in_combine_seq {A : Type} (l : list A) : forall s i x,
  In (i, x) (combine (seq s (length l)) l) <->
  s <= i /\ nth_error l (i - s) = Some x.
Proof.
  induction l as [|y l IH]; intros s i x; simpl.
  - split; [intros [] | intros [_ H]; destruct (i - s); discriminate].
  - rewrite IH. split.
    + intros [H|[Hs Hn]].
      * inversion H; subst. rewrite Nat.sub_diag. simpl. auto.
      * split; [lia|]. replace (i - s) with (S (i - S s)) by lia. exact Hn.
    + intros [Hs Hn]. destruct (Nat.eq_dec i s) as [->|Hne].
      * rewrite Nat.sub_diag in Hn. simpl in Hn. left. congruence.
      * right. split; [lia|].
        replace (i - s) with (S (i - S s)) in Hn by lia. exact Hn.
Qed.

Lemma in_enumerate {A : Type} (l : list A) i x :
  In (i, x) (enumerate l) <-> nth_error l i = Some x.
Proof.
  unfold enumerate. rewrite in_combine_seq, Nat.sub_0_r.
  split; [intros [_ H]; exact H | intros H; split; [lia | exact H]].
Qed.

Lemma enumerate_fst {A : Type} (l : list A) :
  map fst (enumerate l) = seq 0 (length l).
Proof.
  unfold enumerate. generalize 0.
  induction l as [|x l IH]; intros s; simpl; [reflexivity|].
  rewrite IH. reflexivity.
Qed.

Lemma NoDup_map_fst_filter {A B : Type} (f : A * B -> bool) (l : list (A * B)) :
  NoDup (map fst l) -> NoDup (map fst (filter f l)).
Proof.
  induction l as [|x l IH]; simpl; intros H; [constructor|].
  inversion H as [|? ? Hx Hl]; subst.
  destruct (f x); simpl; [|apply IH; exact Hl].
  constructor; [|apply IH; exact Hl].
  intros Hin. apply Hx. apply in_map_iff in Hin.
  destruct Hin as (y & Hy & Hin). apply filter_In in Hin.
  apply in_map_iff. exists y. tauto.
Qed.

Lemma nth_error_nth_bool (r : list bool) j :
  nth_error r j = Some true <-> nth j r false = true.
Proof.
  split; intros H.
  - apply nth_error_nth. exact H.
  - destruct (Nat.lt_ge_cases j (length r)) as [Hlt|Hge].
    + rewrite (nth_error_nth' r false Hlt). congruence.
    + rewrite nth_overflow in H by exact Hge. discriminate.
Qed.

Lemma in_where_true r j : In j (where_true r) <-> nth j r false = true.
Proof.
  unfold where_true. rewrite in_map_iff. split.
  - intros ([j' b] & Hj & Hin). simpl in Hj. subst j'.
    apply filter_In in Hin. destruct Hin as [Hin Hb]. simpl in Hb. subst b.
    apply in_enumerate in Hin. apply nth_error_nth_bool. exact Hin.
  - intros H. exists (j, true). split; [reflexivity|].
    apply filter_In. split; [|reflexivity].
    apply in_enumerate. apply nth_error_nth_bool. exact H.
Qed.

Lemma NoDup_where_true r : NoDup (where_true r).
Proof.
  unfold where_true. apply NoDup_map_fst_filter.
  rewrite enumerate_fst. apply seq_NoDup.
Qed.

Lemma in_nonzero m i j :
  In (i, j) (nonzero m) <-> nth j (nth i m []) false = true.
Proof.
  unfold nonzero. rewrite in_flat_map. split.
  - intros ([i' r] & Hin & Hj). simpl in Hj. apply in_map_iff in Hj.
    destruct Hj as (j' & E & Hj). inversion E; subst.
    apply in_enumerate in Hin. rewrite (nth_error_nth _ _ [] Hin).
    apply in_where_true. exact Hj.
  - intros H. destruct (Nat.lt_ge_cases i (length m)) as [Hlt|Hge].
    + exists (i, nth i m []). split.
      * apply in_enumerate. apply nth_error_nth'. exact Hlt.
      * simpl. apply in_map. apply in_where_true. exact H.
    + rewrite (nth_overflow m [] Hge) in H. destruct j; discriminate.
Qed.

Lemma NoDup_nonzero m : NoDup (nonzero m).
Proof.
  unfold nonzero, enumerate. generalize 0.
  induction m as [|r m IH]; intros s; simpl; [constructor|].
  apply NoDup_app.
  - apply NoDup_map_NoDup_ForallPairs; [|apply NoDup_where_true].
    intros x y _ _ E. congruence.
  - apply IH.
  - intros [i j] H1 H2. apply in_map_iff in H1.
    destruct H1 as (j' & E & _). inversion E; subst.
    apply in_flat_map in H2. destruct H2 as ([i' r'] & Hin & Hj).
    apply in_combine_l in Hin. apply in_seq in Hin.
    simpl in Hj. apply in_map_iff in Hj. destruct Hj as (? & E' & _).
    inversion E'. lia.
Qed.

Lemma nth_enumerate_map {A B : Type} (f : nat * A -> B) (l : list A) i d d' :
  i < length l ->
  nth i (map f (enumerate l)) d' = f (i, nth i l d).
Proof.
  intros Hi.
  assert (H : forall s, nth_error (combine (seq s (length l)) l) i
                        = Some (s + i, nth i l d)).
  { revert i Hi.
    induction l as [|x l IH]; intros i Hi s; simpl in *; [lia|].
    destruct i as [|i]; simpl; [rewrite Nat.add_0_r; reflexivity|].
    rewrite IH by lia. replace (S s + i) with (s + S i) by lia.
    reflexivity. }
  apply nth_error_nth. rewrite nth_error_map. unfold enumerate.
  rewrite H. reflexivity.
Qed.

Lemma enumerate_length {A : Type} (l : list A) :
  length (enumerate l) = length l.
Proof. unfold enumerate. rewrite length_combine, length_seq. lia. Qed.

Lemma triu1_nth m i j :
  nth j (nth i (triu1 m) []) false = (i <? j) && nth j (nth i m []) false.
Proof.
  unfold triu1.
  destruct (Nat.lt_ge_cases i (length m)) as [Hi|Hi].
  - rewrite (nth_enumerate_map _ m [] [] Hi). simpl.
    destruct (Nat.lt_ge_cases j (length (nth i m []))) as [Hj|Hj].
    + rewrite (nth_enumerate_map _ _ false false Hj). reflexivity.
    + rewrite !nth_overflow;
        [rewrite andb_false_r; reflexivity | exact Hj |].
      rewrite length_map, enumerate_length. exact Hj.
  - rewrite (nth_overflow (map _ _)) by
      (rewrite length_map, enumerate_length; exact Hi).
    rewrite (nth_overflow m) by exact Hi.
    destruct j; rewrite andb_false_r; reflexivity.
Qed.

Lemma nth_map_in {A B : Type} (f : A -> B) (l : list A) d d' i :
  i < length l -> nth i (map f l) d' = f (nth i l d).
Proof.
  intros Hi. apply nth_error_nth. rewrite nth_error_map.
  rewrite (nth_error_nth' l d Hi). reflexivity.
Qed.

Lemma in_setdiff_arange n b i :
  In i (setdiff_arange n b) <-> i < n /\ ~ In i b.
Proof.
  unfold setdiff_arange. rewrite filter_In, in_seq, negb_true_iff.
  rewrite <- not_true_iff_false, existsb_exists.
  split; intros [H1 H2]; (split; [lia|]).
  - intros Hin. apply H2. exists i. split; [exact Hin | apply Nat.eqb_refl].
  - intros (x & Hx & E). apply Nat.eqb_eq in E. subst x. auto.
Qed.

Lemma NoDup_setdiff_arange n b : NoDup (setdiff_arange n b).
Proof. apply NoDup_filter. apply seq_NoDup. Qed.

End ArrayFacts.

(** ** get_overlap_pairs *)

Module OverlapFacts.
Import ArrayFacts.

Lemma Qltb_lt x y : Qltb x y = true <-> (x < y)%Q.
Proof.
  unfold Qltb. rewrite negb_true_iff, <- not_true_iff_false, Qle_bool_iff.
  split; [apply Qnot_le_lt | apply Qlt_not_le].
Qed.

Lemma sq_diff_nonneg p q : (0 <= sq_diff p q)%Q.
Proof.
  assert (Hsq : forall a : Q, (0 <= a * a)%Q).
  { intros [n d]. unfold Qle. simpl. nia. }
  destruct p as [[x1 y1] z1], q as [[x2 y2] z2]. unfold sq_diff.
  pose proof (Hsq (x1 - x2)%Q). pose proof (Hsq (y1 - y2)%Q).
  pose proof (Hsq (z1 - z2)%Q). Lqa.lra.
Qed.

Lemma sqrt_lt_sq x r :
  (0 <= x)%R -> (0 <= r)%R -> (sqrt x < r <-> x < r * r)%R.
Proof.
  intros Hx Hr. split; intros H.
  - rewrite <- (sqrt_sqrt x Hx).
    pose proof (sqrt_pos x). nra.
  - rewrite <- (sqrt_square r Hr). apply sqrt_lt_1; nra.
Qed.

(** For a tolerance that is not negative, comparing squares is comparing
    distances. *)
Lemma nan_lt_euclid p q rtol : (0 <= rtol)%Q ->
  nan_lt (sq_dist (Some p) (Some q)) (rtol * rtol) = true <->
  (euclid p q < Q2R rtol)%R.
Proof.
  intros Hr. simpl. rewrite Qltb_lt. unfold euclid.
  rewrite sqrt_lt_sq.
  - rewrite <- Q2R_mult. split; [apply Qlt_Rlt | apply Rlt_Qlt].
  - replace 0%R with (Q2R 0) by lra. apply Qle_Rle, sq_diff_nonneg.
  - replace 0%R with (Q2R 0) by lra. apply Qle_Rle, Hr.
Qed.

Lemma dist_row_same T a b :
  length a = T -> length b = T -> dist_row T a b = Some (pairwise a b).
Proof.
  intros Ha Hb. unfold dist_row, broadcast2.
  rewrite Ha, Hb, Nat.eqb_refl. simpl. unfold assign_row.
  rewrite length_map, length_combine, Ha, Hb, Nat.min_id, Nat.eqb_refl.
  reflexivity.
Qed.

Lemma pairwise_nth a b t : length a = length b ->
  nth t (pairwise a b) None = sq_dist (nth t a None) (nth t b None).
Proof.
  intros Hl. unfold pairwise.
  change (@None Q) with ((fun ab : position * position =>
            sq_dist (fst ab) (snd ab)) (None, None)).
  rewrite map_nth, combine_nth by exact Hl. reflexivity.
Qed.

Lemma nth_error_position (a : list position) t p :
  nth_error a t = Some (Some p) <-> nth t a None = Some p.
Proof.
  split; intros H.
  - apply nth_error_nth. exact H.
  - destruct (Nat.lt_ge_cases t (length a)) as [Hlt|Hge].
    + rewrite (nth_error_nth' a None Hlt), H. reflexivity.
    + rewrite nth_overflow in H by exact Hge. discriminate.
Qed.

Lemma near_at_nan_lt a b rtol t :
  length a = length b -> (0 <= rtol)%Q ->
  near_at a b rtol t <->
  nan_lt (nth t (pairwise a b) None) (rtol * rtol) = true.
Proof.
  intros Hl Hr. rewrite pairwise_nth by exact Hl. unfold near_at. split.
  - intros (p & q & Hp & Hq & Hd).
    apply nth_error_position in Hp. apply nth_error_position in Hq.
    rewrite Hp, Hq. apply nan_lt_euclid; assumption.
  - intros H. destruct (nth t a None) as [p|] eqn:Ep; [|discriminate].
    destruct (nth t b None) as [q|] eqn:Eq; [|discriminate].
    exists p, q. rewrite !nth_error_position.
    repeat split; try assumption. apply nan_lt_euclid; assumption.
Qed.

Lemma counts_ext (P Q : nat -> Prop) T n :
  (forall t, t < T -> (P t <-> Q t)) -> counts P T n -> counts Q T n.
Proof.
  intros H Hc. induction Hc as [|T n Hc IH Hp|T n Hc IH Hp].
  - constructor.
  - apply counts_yes; [apply IH; intros; apply H; lia | apply H; auto].
  - apply counts_no; [apply IH; intros; apply H; lia|].
    intros Hq. apply Hp. apply H; auto.
Qed.

Lemma counts_fun (P : nat -> Prop) T n m :
  counts P T n -> counts P T m -> n = m.
Proof.
  intros Hn. revert m.
  induction Hn as [|T n Hn IH Hp|T n Hn IH Hp]; intros m Hm;
    inversion Hm; subst; auto; try contradiction.
Qed.

Lemma counts_filter {A : Type} (f : A -> bool) (d : list A) (dflt : A) :
  counts (fun t => f (nth t d dflt) = true) (length d) (length (filter f d)).
Proof.
  induction d as [|x d IH] using rev_ind; simpl; [constructor|].
  rewrite filter_app, !length_app. simpl.
  replace (length d + 1) with (S (length d)) by lia.
  assert (Hpre : counts (fun t => f (nth t (d ++ [x]) dflt) = true)
                        (length d) (length (filter f d))).
  { eapply counts_ext; [|exact IH]. intros t Ht. simpl.
    rewrite app_nth1 by exact Ht. reflexivity. }
  destruct (f x) eqn:Ex; simpl.
  - replace (length (filter f d) + 1) with (S (length (filter f d))) by lia.
    apply counts_yes; [exact Hpre|]. rewrite nth_middle. exact Ex.
  - rewrite Nat.add_0_r. apply counts_no; [exact Hpre|].
    rewrite nth_middle. congruence.
Qed.

(** The count the code takes is the number of near offsets. *)
Lemma count_lt_counts a b rtol :
  length a = length b -> (0 <= rtol)%Q ->
  counts (near_at a b rtol) (length a) (count_lt (pairwise a b) (rtol * rtol)).
Proof.
  intros Hl Hr. unfold count_lt.
  assert (HT : length (pairwise a b) = length a).
  { unfold pairwise. rewrite length_map, length_combine. lia. }
  rewrite <- HT.
  eapply counts_ext; [|apply counts_filter with (dflt := None)].
  intros t _. simpl. symmetry. apply near_at_nan_lt; assumption.
Qed.

Lemma get_overlap_pairs_same_length T trajs num rtol :
  trajs <> [] -> (forall t, In t trajs -> length (fst t) = T) ->
  get_overlap_pairs trajs num rtol =
  Some (nonzero (triu1
    (map (fun t1 => map (fun t2 =>
        (num <=? Z.of_nat (count_lt (pairwise (fst t1) (fst t2))
                                    (rtol * rtol)))%Z) trajs) trajs))).
Proof.
  intros Hne HT. unfold get_overlap_pairs.
  destruct trajs as [|t0 rest] eqn:E; [congruence|]. rewrite <- E in *.
  assert (HT0 : length (fst t0) = T) by (apply HT; rewrite E; left; reflexivity).
  rewrite HT0.
  rewrite (mapM_total _
    (fun t1 => map (fun t2 => pairwise (fst t1) (fst t2)) trajs)).
  - simpl. rewrite map_map. do 3 f_equal.
    apply map_ext. intros t1. rewrite map_map. reflexivity.
  - intros t1 H1. apply mapM_total. intros t2 H2.
    apply dist_row_same; apply HT; assumption.
Qed.

(** In exact arithmetic: for a tolerance rtol >= 0 and a non-empty list
    of fragments of one length T, get_overlap_pairs returns, each once,
    exactly the pairs (i, j) with i < j whose number of offsets with both
    positions present and at Euclidean distance below rtol is at least
    num. *)
Lemma get_overlap_pairs_exact
    (T : nat) (trajs : list fragment) (num : Z) (rtol : Q) :
  trajs <> [] ->
  (forall t, In t trajs -> length (fst t) = T) ->
  (0 <= rtol)%Q ->
  exists pairs,
    get_overlap_pairs trajs num rtol = Some pairs /\
    NoDup pairs /\
    forall i j, In (i, j) pairs <-> overlapping T trajs num rtol i j.
Proof.
  intros Hne HT Hr. eexists. split; [|split].
  - apply (get_overlap_pairs_same_length num rtol Hne HT).
  - apply NoDup_nonzero.
  - intros i j. rewrite in_nonzero, triu1_nth, andb_true_iff, Nat.ltb_lt.
    unfold overlapping.
    set (d := (@nil position, 0%Q)).
    destruct (Nat.lt_ge_cases i (length trajs)) as [Hi|Hi];
      [destruct (Nat.lt_ge_cases j (length trajs)) as [Hj|Hj]|].
    + rewrite (nth_map_in _ trajs d [] Hi).
      rewrite (nth_map_in _ trajs d false Hj). rewrite Z.leb_le.
      assert (Hli : length (fst (nth i trajs d)) = T)
        by (apply HT, nth_In, Hi).
      assert (Hlj : length (fst (nth j trajs d)) = T)
        by (apply HT, nth_In, Hj).
      pose proof (@count_lt_counts (fst (nth i trajs d)) (fst (nth j trajs d))
                    rtol ltac:(congruence) Hr) as Hc.
      rewrite Hli in Hc. split.
      * intros [Hij Hn]. split; [lia|]. eexists. split; [exact Hc | exact Hn].
      * intros [Hij (n & Hcn & Hn)]. split; [lia|].
        rewrite (counts_fun Hc Hcn). exact Hn.
    + split; [|intros [? _]; lia]. intros [_ H].
      rewrite (nth_map_in _ trajs d [] Hi) in H.
      rewrite nth_overflow in H by (rewrite length_map; exact Hj).
      discriminate.
    + split; [|intros [? _]; lia]. intros [_ H].
      rewrite (nth_overflow (map _ trajs)) in H
        by (rewrite length_map; exact Hi).
      destruct j; discriminate.
Qed.

(** For a negative tolerance the comparison of squares is not the
    comparison of distances: with rtol = -1 two coinciding fragments are
    reported although no distance is below -1. *)
Lemma get_overlap_pairs_negative_rtol :
  let a : fragment := ([Some (0, 0, 0)%Q], 0%Q) in
  get_overlap_pairs [a; a] 1 (-1) = Some [(0, 1)] /\
  ~ overlapping 1 [a; a] 1 (-1) 0 1.
Proof.
  split; [reflexivity|].
  intros [_ (n & Hc & Hn)].
  inversion Hc as [|T' n' Hc' Hp|T' n' Hc' Hp]; subst.
  - destruct Hp as (p & q & _ & _ & Hd). unfold euclid in Hd.
    pose proof (sqrt_pos (Q2R (sq_diff p q))) as Hs.
    assert (Q2R (-1) = (-1)%R) by (unfold Q2R; simpl; lra). lra.
  - inversion Hc'; subst. simpl in Hn. lia.
Qed.

(** An instance of [get_overlap_pairs_exact]: fragments A and B coincide on
    two frames and C is far from both. *)
Lemma get_overlap_pairs_exact_witness :
  let A : fragment := ([Some (0, 0, 0)%Q; Some (1, 0, 0)%Q], 1%Q) in
  let B : fragment := ([Some (0, 0, 0)%Q; Some (1, 0, 0)%Q], 2%Q) in
  let C : fragment := ([Some (50, 0, 0)%Q; Some (51, 0, 0)%Q], 3%Q) in
  exists pairs,
    get_overlap_pairs [A; B; C] 2 1 = Some pairs /\
    NoDup pairs /\
    forall i j, In (i, j) pairs <-> overlapping 2 [A; B; C] 2 1 i j.
Proof.
  intros A B C.
  apply (@get_overlap_pairs_exact 2 [A; B; C] 2%Z 1%Q).
  - discriminate.
  - intros t [<-|[<-|[<-|[]]]]; reflexivity.
  - discriminate.
Defined.

(** *** The same in the arithmetic of the program *)

Section Arithmetic.

Variable dbl : Type.
Variables fsub fmul fadd : dbl -> dbl -> dbl.
Variable flt : dbl -> dbl -> bool.

Local Abbreviation sq_dist' := (sq_dist_in fsub fmul fadd).
Local Abbreviation pairwise' := (pairwise_in fsub fmul fadd).
Local Abbreviation near_at' := (near_at_in fsub fmul fadd flt).

Lemma dist_row_in_same T (a b : list (position_in dbl)) :
  length a = T -> length b = T ->
  dist_row_in fsub fmul fadd T a b = Some (pairwise' a b).
Proof.
  intros Ha Hb. unfold dist_row_in, broadcast2.
  rewrite Ha, Hb, Nat.eqb_refl. simpl. unfold assign_row.
  rewrite length_map, length_combine, Ha, Hb, Nat.min_id, Nat.eqb_refl.
  reflexivity.
Qed.

Lemma pairwise_in_nth (a b : list (position_in dbl)) t :
  length a = length b ->
  nth t (pairwise' a b) None = sq_dist' (nth t a None) (nth t b None).
Proof.
  intros Hl. unfold pairwise_in.
  change (@None dbl) with ((fun ab : position_in dbl * position_in dbl =>
            sq_dist' (fst ab) (snd ab)) (None, None)).
  rewrite map_nth, combine_nth by exact Hl. reflexivity.
Qed.

Lemma nth_error_row (a : list (position_in dbl)) t p :
  nth_error a t = Some (Some p) <-> nth t a None = Some p.
Proof.
  split; intros H.
  - apply nth_error_nth. exact H.
  - destruct (Nat.lt_ge_cases t (length a)) as [Hlt|Hge].
    + rewrite (nth_error_nth' a None Hlt), H. reflexivity.
    + rewrite nth_overflow in H by exact Hge. discriminate.
Qed.

Lemma near_at_in_nan_lt (a b : list (position_in dbl)) rtol t :
  length a = length b ->
  near_at' a b rtol t <->
  nan_lt_in flt (nth t (pairwise' a b) None) (fmul rtol rtol) = true.
Proof.
  intros Hl. rewrite pairwise_in_nth by exact Hl. unfold near_at_in. split.
  - intros (p & q & Hp & Hq & Hd).
    apply nth_error_row in Hp. apply nth_error_row in Hq.
    rewrite Hp, Hq. exact Hd.
  - intros H. destruct (nth t a None) as [p|] eqn:Ep; [|discriminate].
    destruct (nth t b None) as [q|] eqn:Eq; [|discriminate].
    exists p, q. rewrite !nth_error_row. auto.
Qed.

(** The count the code takes is the number of offsets that are near for
    the program. *)
Lemma count_lt_in_counts (a b : list (position_in dbl)) rtol :
  length a = length b ->
  counts (near_at' a b rtol) (length a)
         (count_lt_in flt (pairwise' a b) (fmul rtol rtol)).
Proof.
  intros Hl. unfold count_lt_in.
  assert (HT : length (pairwise' a b) = length a).
  { unfold pairwise_in. rewrite length_map, length_combine. lia. }
  rewrite <- HT.
  eapply counts_ext; [|apply counts_filter with (dflt := None)].
  intros t _. simpl. symmetry. apply near_at_in_nan_lt. exact Hl.
Qed.

Lemma get_overlap_pairs_in_same_length T (trajs : list (fragment_in dbl))
      num rtol :
  trajs <> [] -> (forall t, In t trajs -> length (fst t) = T) ->
  get_overlap_pairs_in fsub fmul fadd flt trajs num rtol =
  Some (nonzero (triu1
    (map (fun t1 => map (fun t2 =>
        (num <=? Z.of_nat (count_lt_in flt (pairwise' (fst t1) (fst t2))
                                       (fmul rtol rtol)))%Z) trajs) trajs))).
Proof.
  intros Hne HT. unfold get_overlap_pairs_in.
  destruct trajs as [|t0 rest] eqn:E; [congruence|]. rewrite <- E in *.
  assert (HT0 : length (fst t0) = T) by (apply HT; rewrite E; left; reflexivity).
  rewrite HT0.
  rewrite (mapM_total _
    (fun t1 => map (fun t2 => pairwise' (fst t1) (fst t2)) trajs)).
  - simpl. rewrite map_map. do 3 f_equal.
    apply map_ext. intros t1. rewrite map_map. reflexivity.
  - intros t1 H1. apply mapM_total. intros t2 H2.
    apply dist_row_in_same; apply HT; assumption.
Qed.

(** C8, as the code has it, in whatever arithmetic it runs: for a non-empty
    list of fragments of one length T, get_overlap_pairs returns, each
    once, exactly the pairs (i, j) with i < j whose number of offsets with
    both positions present and the computed squared distance below the
    computed rtol * rtol is at least num. *)
Theorem get_overlap_pairs_computed
    (T : nat) (trajs : list (fragment_in dbl)) (num : Z) (rtol : dbl) :
  trajs <> [] ->
  (forall t, In t trajs -> length (fst t) = T) ->
  exists pairs,
    get_overlap_pairs_in fsub fmul fadd flt trajs num rtol = Some pairs /\
    NoDup pairs /\
    forall i j, In (i, j) pairs <->
                overlapping_in fsub fmul fadd flt T trajs num rtol i j.
Proof.
  intros Hne HT. eexists. split; [|split].
  - apply (get_overlap_pairs_in_same_length num rtol Hne HT).
  - apply NoDup_nonzero.
  - intros i j. rewrite in_nonzero, triu1_nth, andb_true_iff, Nat.ltb_lt.
    unfold overlapping_in.
    destruct (nth_error trajs i) as [ti|] eqn:Ei;
      [destruct (nth_error trajs j) as [tj|] eqn:Ej|].
    + assert (Hi : i < length trajs) by (apply nth_error_Some; congruence).
      assert (Hj : j < length trajs) by (apply nth_error_Some; congruence).
      rewrite (nth_map_in _ trajs ti [] Hi).
      rewrite (nth_map_in _ trajs ti false Hj). rewrite Z.leb_le.
      rewrite (nth_error_nth _ _ ti Ei), (nth_error_nth _ _ ti Ej).
      assert (Hli : length (fst ti) = T)
        by (apply HT; exact (nth_error_In _ _ Ei)).
      assert (Hlj : length (fst tj) = T)
        by (apply HT; exact (nth_error_In _ _ Ej)).
      pose proof (@count_lt_in_counts (fst ti) (fst tj) rtol
                    ltac:(congruence)) as Hc.
      rewrite Hli in Hc. split.
      * intros [Hij Hn]. split; [exact Hij|].
        exists ti, tj. eexists. repeat split; [exact Hc | exact Hn].
      * intros [Hij (ti' & tj' & n & Eti & Etj & Hcn & Hn)].
        injection Eti as <-. injection Etj as <-. split; [exact Hij|].
        rewrite (counts_fun Hc Hcn). exact Hn.
    + apply nth_error_None in Ej.
      assert (Hi : i < length trajs) by (apply nth_error_Some; congruence).
      split.
      * intros [_ H]. rewrite (nth_map_in _ trajs ti [] Hi) in H.
        rewrite nth_overflow in H by (rewrite length_map; exact Ej).
        discriminate.
      * intros [_ (ti' & tj' & n & _ & Etj & _)]. discriminate.
    + apply nth_error_None in Ei. split.
      * intros [_ H].
        rewrite (nth_overflow (map _ trajs)) in H
          by (rewrite length_map; exact Ei).
        destruct j; discriminate.
      * intros [_ (ti' & tj' & n & Eti & _)]. discriminate.
Qed.

End Arithmetic.

(** The exact model is the program run on the rationals. *)
Lemma get_overlap_pairs_exact_arith trajs num rtol :
  get_overlap_pairs trajs num rtol
  = get_overlap_pairs_in Qminus Qmult Qplus Qltb trajs num rtol.
Proof. reflexivity. Qed.

(** An instance of [get_overlap_pairs_computed] on doubles: fragments A
    and B coincide on two frames and C is far from both. *)
Lemma get_overlap_pairs_computed_witness :
  let d := fun k : Z => Binary64.double k 0%Z in
  let A : fragment_in Binary64.float :=
    ([Some (d 0%Z, d 0%Z, d 0%Z); Some (d 1%Z, d 0%Z, d 0%Z)], d 1%Z) in
  let B : fragment_in Binary64.float :=
    ([Some (d 0%Z, d 0%Z, d 0%Z); Some (d 1%Z, d 0%Z, d 0%Z)], d 2%Z) in
  let C : fragment_in Binary64.float :=
    ([Some (d 50%Z, d 0%Z, d 0%Z); Some (d 51%Z, d 0%Z, d 0%Z)], d 3%Z) in
  Binary64.get_overlap_pairs_f64 [A; B; C] 2 (d 1%Z) = Some [(0, 1)] /\
  exists pairs,
    Binary64.get_overlap_pairs_f64 [A; B; C] 2 (d 1%Z) = Some pairs /\
    NoDup pairs /\
    forall i j, In (i, j) pairs <->
      overlapping_in PrimFloat.sub PrimFloat.mul PrimFloat.add PrimFloat.ltb
                     2 [A; B; C] 2 (d 1%Z) i j.
Proof.
  intros d A B C. split; [vm_compute; reflexivity|].
  apply (@get_overlap_pairs_computed Binary64.float
           PrimFloat.sub PrimFloat.mul PrimFloat.add PrimFloat.ltb
           2 [A; B; C] 2%Z (d 1%Z)).
  - discriminate.
  - intros t [<-|[<-|[<-|[]]]]; reflexivity.
Defined.

(** C8 as stated fails on doubles.  The positions (0, 0, 0) and
    (0.4, 0.4, 0.7) are at a distance below the tolerance 0.9 (the doubles
    nearest to these decimals, taken exactly), so the pair (0, 1) has one
    near offset; but the computed squared distance and the computed
    rtol * rtol are the same double, and no pair is returned. *)
Lemma get_overlap_pairs_rounding :
  let o := Binary64.double 0%Z 0%Z in
  let x := Binary64.double 7205759403792794%Z (-54)%Z in
  let z := Binary64.double 6305039478318694%Z (-53)%Z in
  let r := Binary64.double 8106479329266893%Z (-53)%Z in
  let a : fragment_in Binary64.float := ([Some (o, o, o)], o) in
  let b : fragment_in Binary64.float := ([Some (x, x, z)], o) in
  Binary64.get_overlap_pairs_f64 [a; b] 1 r = Some [] /\
  exists a' b' r',
    Binary64.exact_fragment a = Some a' /\
    Binary64.exact_fragment b = Some b' /\
    Binary64.exact_value r = Some r' /\
    overlapping 1 [a'; b'] 1 r' 0 1.
Proof.
  split; [vm_compute; reflexivity|].
  eexists _, _, _.
  split; [vm_compute; reflexivity|].
  split; [vm_compute; reflexivity|].
  split; [vm_compute; reflexivity|].
  split; [simpl; lia|]. exists 1. split; [|lia].
  apply counts_yes; [constructor|].
  eexists _, _. split; [reflexivity|]. split; [reflexivity|].
  apply nan_lt_euclid; [discriminate | vm_compute; reflexivity].
Qed.

End OverlapFacts.

(** ** get_valid_ctraj *)

Module TankFacts.

Lemma get_valid_ctraj_loop z_min z_max : forall l b acc,
  snd (fold_left
         (fun (st : bool * list fragment) t =>
            let is_valid := fst st && in_tank z_min z_max t in
            (is_valid, if is_valid then snd st ++ [t] else snd st))
         l (b, acc)) =
  acc ++ (if b then passing_prefix (in_tank z_min z_max) l else []).
Proof.
  induction l as [|t l IH]; intros b acc; simpl.
  - destruct b; rewrite app_nil_r; reflexivity.
  - rewrite IH. destruct b; simpl; [|reflexivity].
    destruct (in_tank z_min z_max t); simpl.
    + rewrite <- app_assoc. reflexivity.
    + rewrite app_nil_r. reflexivity.
Qed.

Lemma get_valid_ctraj_prefix ts z_min z_max :
  get_valid_ctraj ts z_min z_max = passing_prefix (in_tank z_min z_max) ts.
Proof. unfold get_valid_ctraj. apply get_valid_ctraj_loop. Qed.

Lemma passing_prefix_Forall ok l :
  Forall (fun t => ok t = true) (passing_prefix ok l).
Proof.
  induction l as [|t l IH]; simpl; [constructor|].
  destruct (ok t) eqn:E; constructor; assumption.
Qed.

Lemma passing_prefix_app ok pre l :
  forallb ok pre = true ->
  passing_prefix ok (pre ++ l) = pre ++ passing_prefix ok l.
Proof.
  induction pre as [|t pre IH]; simpl; intros H; [reflexivity|].
  apply andb_prop in H. destruct H as [Ht Hp].
  rewrite Ht, IH by exact Hp. reflexivity.
Qed.

(** C3, as the code has it: every fragment get_valid_ctraj keeps has all its
    non-missing z strictly between z_min and z_max and more than one valid
    sample; and a fragment before which every fragment passes that test is
    kept exactly when it passes the test itself. *)
Theorem get_valid_ctraj_own_test
    (pre : list fragment) (t : fragment) (post : list fragment)
    (z_min z_max : Q) :
  forallb (in_tank z_min z_max) pre = true ->
  Forall (fun t' => in_tank z_min z_max t' = true)
         (get_valid_ctraj (pre ++ t :: post) z_min z_max) /\
  (in_tank z_min z_max t = true <->
   exists rest,
     get_valid_ctraj (pre ++ t :: post) z_min z_max = pre ++ t :: rest).
Proof.
  intros Hpre. rewrite get_valid_ctraj_prefix.
  split; [apply passing_prefix_Forall|].
  rewrite passing_prefix_app by exact Hpre. simpl. split.
  - intros Ht. rewrite Ht. eexists. reflexivity.
  - intros [rest E]. destruct (in_tank z_min z_max t); [reflexivity|].
    apply app_inv_head in E. discriminate.
Qed.

Lemma get_valid_ctraj_own_test_witness :
  let a : fragment := ([Some (0, 0, 1)%Q; Some (0, 0, 2)%Q], 0%Q) in
  let b : fragment := ([Some (0, 0, 3)%Q; None; Some (0, 0, 4)%Q], 0%Q) in
  Forall (fun t' => in_tank 0 5 t' = true) (get_valid_ctraj ([a] ++ b :: []) 0 5) /\
  (in_tank 0 5 b = true <->
   exists rest, get_valid_ctraj ([a] ++ b :: []) 0 5 = [a] ++ b :: rest).
Proof.
  intros a b. apply (@get_valid_ctraj_own_test [a] b [] 0%Q 5%Q). reflexivity.
Defined.

(** C3 as stated fails twice.  A fragment whose z equals z_max
    never leaves [[z_min, z_max]], yet the strict comparisons discard it; and
    a fragment that passes is discarded when an earlier fragment failed,
    since [is_valid] is never set back. *)
Lemma get_valid_ctraj_not_own_test :
  let edge : fragment := ([Some (0, 0, 5)%Q; Some (0, 0, 5)%Q], 0%Q) in
  let bad : fragment := ([Some (0, 0, 9)%Q; Some (0, 0, 9)%Q], 0%Q) in
  let good : fragment := ([Some (0, 0, 1)%Q; Some (0, 0, 1)%Q], 0%Q) in
  get_valid_ctraj [edge] 0 5 <> filter (claimed_keep 0 5) [edge] /\
  get_valid_ctraj [bad; good] 0 5 <> filter (claimed_keep 0 5) [bad; good].
Proof.
  split; vm_compute; discriminate.
Qed.

(** The second failure on its own: the kept fragments are only the longest
    prefix of passing fragments. *)
Example get_valid_ctraj_sticky_flag :
  let bad : fragment := ([Some (0, 0, 9)%Q; Some (0, 0, 9)%Q], 0%Q) in
  let good : fragment := ([Some (0, 0, 1)%Q; Some (0, 0, 1)%Q], 0%Q) in
  in_tank 0 5 good = true /\ get_valid_ctraj [bad; good] 0 5 = [].
Proof. split; reflexivity. Qed.

End TankFacts.

(** ** remove_spatial_overlap *)

Module SpatialFacts.
Import ArrayFacts OverlapFacts.

Lemma argmin_from_spec : forall l pre best bi,
  bi < length pre -> nth bi pre 0%Q = best ->
  (forall j, j < length pre -> (best <= nth j pre 0)%Q) ->
  let r := argmin_from best bi (length pre) l in
  r < length (pre ++ l) /\
  forall j, j < length (pre ++ l) ->
    (nth r (pre ++ l) 0 <= nth j (pre ++ l) 0)%Q.
Proof.
  induction l as [|x l IH]; intros pre best bi Hbi Hb Hmin; simpl.
  - rewrite app_nil_r. split; [exact Hbi|]. intros j Hj.
    rewrite Hb. apply Hmin. exact Hj.
  - replace (pre ++ x :: l) with ((pre ++ [x]) ++ l)
      by (rewrite <- app_assoc; reflexivity).
    replace (S (length pre)) with (length (pre ++ [x]))
      by (rewrite length_app; simpl; lia).
    destruct (Qltb x best) eqn:E.
    + apply Qltb_lt in E.
      replace (length pre) with (length (pre ++ [x]) - 1) at 1
        by (rewrite length_app; simpl; lia).
      replace (length (pre ++ [x]) - 1) with (length pre)
        by (rewrite length_app; simpl; lia).
      apply IH.
      * rewrite length_app. simpl. lia.
      * apply nth_middle.
      * intros j Hj. rewrite length_app in Hj. simpl in Hj.
        destruct (Nat.eq_dec j (length pre)) as [->|Hne].
        -- rewrite nth_middle. apply Qle_refl.
        -- rewrite app_nth1 by lia. apply Qlt_le_weak.
           eapply Qlt_le_trans; [exact E|]. apply Hmin. lia.
    + apply IH.
      * rewrite length_app. simpl. lia.
      * rewrite app_nth1 by exact Hbi. exact Hb.
      * intros j Hj. rewrite length_app in Hj. simpl in Hj.
        destruct (Nat.eq_dec j (length pre)) as [->|Hne].
        -- rewrite nth_middle. apply Qnot_lt_le. intros Hlt.
           apply Qltb_lt in Hlt. congruence.
        -- rewrite app_nth1 by lia. apply Hmin. lia.
Qed.

Lemma argmin_spec l : l <> [] ->
  exists b, argmin l = Some b /\ b < length l /\
            forall j, j < length l -> (nth b l 0 <= nth j l 0)%Q.
Proof.
  destruct l as [|x l]; [congruence|]. intros _.
  exists (argmin_from x 0 1 l). split; [reflexivity|].
  apply (@argmin_from_spec l [x] x 0); simpl; auto.
  intros j Hj. assert (j = 0) by lia. subst j. apply Qle_refl.
Qed.

Lemma NoDup_app_disjoint {A : Type} (l1 l2 : list A) a :
  NoDup (l1 ++ l2) -> In a l1 -> ~ In a l2.
Proof.
  induction l1 as [|x l1 IH]; simpl; intros Hn Hin; [contradiction|].
  inversion Hn as [|? ? Hx Hn']; subst.
  destruct Hin as [->|Hin]; [|apply IH; assumption].
  intros H2. apply Hx. apply in_or_app. right. exact H2.
Qed.

(** Two groups that share an index are one group. *)
Lemma groups_share (jop : list (list nat)) g g' k :
  NoDup (concat jop) -> In g jop -> In g' jop -> In k g -> In k g' -> g = g'.
Proof.
  induction jop as [|h jop IH]; simpl; intros Hn Hg Hg' Hk Hk';
    [contradiction|].
  destruct Hg as [->|Hg], Hg' as [->|Hg']; [reflexivity| | |].
  - exfalso. apply (NoDup_app_disjoint _ _ k Hn Hk).
    apply in_concat. exists g'. auto.
  - exfalso. apply (NoDup_app_disjoint _ _ k Hn Hk').
    apply in_concat. exists g. auto.
  - apply IH; auto. apply (NoDup_app_remove_l _ _ Hn).
Qed.

Lemma NoDup_map_groups (jop : list (list nat)) (f : list nat -> nat) :
  NoDup (concat jop) -> (forall g, In g jop -> In (f g) g) ->
  NoDup (map f jop).
Proof.
  induction jop as [|h jop IH]; simpl; intros Hn Hf; [constructor|].
  constructor.
  - intros Hin. apply in_map_iff in Hin. destruct Hin as (g & E & Hg).
    apply (NoDup_app_disjoint _ _ (f h) Hn); [apply Hf; auto|].
    apply in_concat. exists g. split; [exact Hg|].
    rewrite <- E. apply Hf. auto.
  - apply IH; [apply (NoDup_app_remove_l _ _ Hn) | auto].
Qed.

Section Selection.

Variable join_pairs : list (nat * nat) -> list (list nat).
Variable filtered : list fragment.

Let d : fragment := ([], 0%Q).
Let err (i : nat) : Q := snd (nth i filtered d).

Lemma best_of_spec g : g <> [] ->
  In (best_of filtered g) g /\
  forall k, In k g -> (err (best_of filtered g) <= err k)%Q.
Proof.
  intros Hg. destruct (@argmin_spec (map err g)) as (b & E & Hb & Hmin).
  { destruct g; [congruence | discriminate]. }
  unfold best_of. fold d. fold err. rewrite E.
  rewrite length_map in Hb, Hmin. split.
  - apply nth_In. exact Hb.
  - intros k Hk. destruct (In_nth g k 0 Hk) as (j & Hj & <-).
    specialize (Hmin j Hj).
    rewrite (nth_map_in err g 0 0%Q Hb) in Hmin.
    rewrite (nth_map_in err g 0 0%Q Hj) in Hmin. exact Hmin.
Qed.

Lemma choose_best_spec g :
  g <> [] -> (forall i, In i g -> i < length filtered) ->
  choose_best filtered g = Some (nth (best_of filtered g) filtered d).
Proof.
  intros Hg Hr. unfold choose_best.
  rewrite (mapM_total _ err).
  - simpl. destruct (@argmin_spec (map err g)) as (b & E & Hb & _).
    { destruct g; [congruence | discriminate]. }
    unfold best_of. fold d. fold err. rewrite E. simpl.
    rewrite length_map in Hb.
    rewrite (nth_error_nth' g 0 Hb). simpl.
    apply nth_error_nth'. apply Hr. apply nth_In. exact Hb.
  - intros i Hi. rewrite (nth_error_nth' filtered d (Hr i Hi)). reflexivity.
Qed.

Lemma map_nth_all : map (fun i => nth i filtered d) (seq 0 (length filtered))
                    = filtered.
Proof.
  apply nth_ext with (d := d) (d' := d).
  - rewrite length_map, length_seq. reflexivity.
  - intros i Hi. rewrite length_map, length_seq in Hi.
    rewrite (nth_map_in _ (seq 0 (length filtered)) 0 d)
      by (rewrite length_seq; exact Hi).
    rewrite seq_nth by exact Hi. reflexivity.
Qed.

(** The indices the code keeps: the ungrouped ones, then one per group. *)
Lemma kept_spec (jop : list (list nat)) :
  groups_wf (length filtered) jop ->
  let kept := setdiff_arange (length filtered) (concat jop)
              ++ map (best_of filtered) jop in
  NoDup kept /\
  (forall i, In i kept -> i < length filtered) /\
  (forall g, In g jop ->
     exists b, In b g /\ In b kept /\
               (forall k, In k g -> In k kept -> k = b) /\
               (forall k, In k g -> (err b <= err k)%Q)) /\
  (forall i, i < length filtered -> (forall g, In g jop -> ~ In i g) ->
     In i kept).
Proof.
  intros [Hwf Hnd] kept.
  assert (Hbest : forall g, In g jop -> In (best_of filtered g) g).
  { intros g Hg. apply best_of_spec. apply Hwf. exact Hg. }
  repeat split.
  - apply NoDup_app.
    + apply NoDup_setdiff_arange.
    + apply NoDup_map_groups; assumption.
    + intros i Hi Hi'. apply in_setdiff_arange in Hi. destruct Hi as [_ Hi].
      apply Hi. apply in_map_iff in Hi'. destruct Hi' as (g & <- & Hg).
      apply in_concat. exists g. auto.
  - intros i Hi. apply in_app_or in Hi. destruct Hi as [Hi|Hi].
    + apply in_setdiff_arange in Hi. tauto.
    + apply in_map_iff in Hi. destruct Hi as (g & <- & Hg).
      apply (proj2 (Hwf g Hg)). auto.
  - intros g Hg. exists (best_of filtered g).
    split; [auto|]. split; [|split].
    + apply in_or_app. right. apply in_map. exact Hg.
    + intros k Hk Hkept. apply in_app_or in Hkept.
      destruct Hkept as [Hu|Hb].
      * apply in_setdiff_arange in Hu. destruct Hu as [_ Hu].
        exfalso. apply Hu. apply in_concat. exists g. auto.
      * apply in_map_iff in Hb. destruct Hb as (g' & <- & Hg').
        rewrite (@groups_share jop g g' (best_of filtered g')); auto.
    + apply best_of_spec. apply Hwf. exact Hg.
  - intros i Hi Hno. apply in_or_app. left. apply in_setdiff_arange.
    split; [exact Hi|]. intros Hin. apply in_concat in Hin.
    destruct Hin as (g & Hg & Hig). apply (Hno g Hg Hig).
Qed.

(** What the second half of the function computes from the groups. *)
Lemma selection_spec (jop : list (list nat)) :
  groups_wf (length filtered) jop ->
  match jop with
  | [] => Some filtered
  | _ =>
      singles <- mapM (nth_error filtered)
                   (setdiff_arange (length filtered) (concat jop)) ;;
      chosen <- mapM (choose_best filtered) jop ;;
      Some (singles ++ chosen)
  end =
  Some (map (fun i => nth i filtered d)
            (setdiff_arange (length filtered) (concat jop)
             ++ map (best_of filtered) jop)).
Proof.
  intros [Hwf Hnd]. destruct jop as [|g0 rest] eqn:E.
  - simpl. rewrite app_nil_r. unfold setdiff_arange. simpl.
    assert (Hall : forall l : list nat, filter (fun _ => true) l = l).
    { induction l; simpl; congruence. }
    rewrite Hall, map_nth_all. reflexivity.
  - rewrite <- E in *.
    rewrite (mapM_total _ (fun i => nth i filtered d)).
    + simpl. rewrite (mapM_total _ (fun g => nth (best_of filtered g) filtered d)).
      * simpl. rewrite map_app, map_map. reflexivity.
      * intros g Hg. apply choose_best_spec; apply Hwf; exact Hg.
    + intros i Hi. apply in_setdiff_arange in Hi.
      apply nth_error_nth'. tauto.
Qed.

End Selection.

(** C10: remove_spatial_overlap first drops every trajectory with fewer
    than two valid samples; of the remaining ones, which share one window
    length, it returns one member of each group of joined overlap pairs, a
    member of least reprojection error in its group, and every trajectory
    that is in no group, each once and as it was given. *)
Theorem remove_spatial_overlap_selects
    (join_pairs : list (nat * nat) -> list (list nat))
    (trajectories : list fragment) (ntol : Z) (rtol : Q) (T : nat) :
  let filtered := filter (fun t => 2 <=? valid_count t) trajectories in
  let groups := overlap_groups join_pairs filtered ntol rtol in
  let err := fun i => snd (nth i filtered ([], 0%Q)) in
  (forall t, In t filtered -> length (fst t) = T) ->
  groups_wf (length filtered) groups ->
  exists kept,
    remove_spatial_overlap join_pairs trajectories ntol rtol =
      Some (map (fun i => nth i filtered ([], 0%Q)) kept) /\
    NoDup kept /\
    (forall i, In i kept -> i < length filtered) /\
    (forall g, In g groups ->
       exists b, In b g /\ In b kept /\
                 (forall k, In k g -> In k kept -> k = b) /\
                 (forall k, In k g -> (err b <= err k)%Q)) /\
    (forall i, i < length filtered ->
       (forall g, In g groups -> ~ In i g) -> In i kept).
Proof.
  intros filtered groups err.
  assert (Ef : filter (fun t => 1 <? valid_count t) trajectories = filtered)
    by reflexivity.
  clearbody filtered. subst groups err. intros HT Hwf.
  exists (setdiff_arange (length filtered)
            (concat (overlap_groups join_pairs filtered ntol rtol))
          ++ map (best_of filtered)
                 (overlap_groups join_pairs filtered ntol rtol)).
  split; [|apply kept_spec; exact Hwf].
  unfold remove_spatial_overlap. rewrite Ef.
  unfold overlap_groups in *.
  destruct filtered as [|t0 rest] eqn:E; [reflexivity|].
  rewrite <- E in *.
  assert (Hne : filtered <> []) by (rewrite E; discriminate).
  rewrite (get_overlap_pairs_same_length ntol rtol Hne HT) in *.
  cbn [bind]. apply selection_spec. exact Hwf.
Qed.

(** An instance of [remove_spatial_overlap_selects]: A and B coincide, C is
    far away and D has a single valid sample. *)
Lemma remove_spatial_overlap_selects_witness :
  let A : fragment := ([Some (0, 0, 0)%Q; Some (1, 0, 0)%Q], 3%Q) in
  let B : fragment := ([Some (0, 0, 0)%Q; Some (1, 0, 0)%Q], 2%Q) in
  let C : fragment := ([Some (50, 0, 0)%Q; Some (51, 0, 0)%Q], 5%Q) in
  let D : fragment := ([Some (7, 0, 0)%Q; None], 1%Q) in
  remove_spatial_overlap join_pairs [A; D; B; C] 2 1 = Some [C; B] /\
  exists kept,
    remove_spatial_overlap join_pairs [A; D; B; C] 2 1 =
      Some (map (fun i => nth i [A; B; C] ([], 0%Q)) kept) /\
    NoDup kept /\
    (forall i, In i kept -> i < 3) /\
    (forall g, In g [[0; 1]] ->
       exists b, In b g /\ In b kept /\
                 (forall k, In k g -> In k kept -> k = b) /\
                 (forall k, In k g ->
                    (snd (nth b [A; B; C] ([], 0%Q))
                     <= snd (nth k [A; B; C] ([], 0%Q)))%Q)) /\
    (forall i, i < 3 -> (forall g, In g [[0; 1]] -> ~ In i g) -> In i kept).
Proof.
  intros A B C D. split; [reflexivity|].
  apply (@remove_spatial_overlap_selects join_pairs [A; D; B; C] 2%Z 1%Q 2).
  - intros t [<-|[<-|[<-|[]]]]; reflexivity.
  - split.
    + intros g [<-|[]]. split; [discriminate|].
      intros i [<-|[<-|[]]]; simpl; lia.
    + simpl. repeat constructor; simpl; intuition discriminate.
Defined.

End SpatialFacts.

(** ** interpolate_nan and convert_traj_format *)

Module NormalizerFacts.
Import ArrayFacts.

Lemma In_firstn {A : Type} (l : list A) n x : In x (firstn n l) -> In x l.
Proof.
  intros H. rewrite <- (firstn_skipn n l). apply in_or_app. left. exact H.
Qed.

Lemma In_skipn {A : Type} (l : list A) n x : In x (skipn n l) -> In x l.
Proof.
  intros H. rewrite <- (firstn_skipn n l). apply in_or_app. right. exact H.
Qed.

Lemma where_true_none (r : list bool) :
  (forall b, In b r -> b = false) -> where_true r = [].
Proof.
  intros H. destruct (where_true r) as [|j js] eqn:E; [reflexivity|].
  assert (Hj : In j (where_true r)) by (rewrite E; left; reflexivity).
  apply in_where_true in Hj.
  destruct (Nat.lt_ge_cases j (length r)) as [Hlt|Hge].
  - rewrite (H (nth j r false)) in Hj by (apply nth_In; exact Hlt).
    discriminate.
  - rewrite nth_overflow in Hj by exact Hge. discriminate.
Qed.

(** Without a valid sample the interpolation has no anchor: [np.interp] is
    called with an empty array of sample points, or [head_idx] was never
    bound. *)
Lemma interpolate_nan_no_anchor (coordinates : list position) :
  (forall p, In p coordinates -> p = None) ->
  interpolate_nan coordinates = None.
Proof.
  intros Hall. unfold interpolate_nan.
  destruct (scan_break (seq 0 _) _ None) as [head_idx|]; [|reflexivity].
  destruct (scan_break (rev _) _ None) as [tail_idx|]; [|reflexivity].
  cbn [bind].
  rewrite (@where_true_none (map (fun p => negb (is_nan p)) _)).
  - reflexivity.
  - intros b Hb. apply in_map_iff in Hb. destruct Hb as (p & <- & Hp).
    apply In_firstn, In_skipn in Hp. rewrite (Hall p Hp). reflexivity.
Qed.

(** C2 fails on the code: for a fragment without any valid sample
    convert_traj_format raises instead of returning an empty trajectory. *)
Theorem convert_traj_format_no_valid_raises (traj : fragment) (t0 : Z) :
  (forall p, In p (fst traj) -> p = None) ->
  convert_traj_format traj t0 = None.
Proof.
  intros Hall. unfold convert_traj_format.
  rewrite interpolate_nan_no_anchor by exact Hall. reflexivity.
Qed.

Lemma convert_traj_format_no_valid_raises_witness :
  convert_traj_format ([None; None; None], 0%Q) 0 = None.
Proof.
  apply (@convert_traj_format_no_valid_raises ([None; None; None], 0%Q) 0%Z).
  intros p [<-|[<-|[<-|[]]]]; reflexivity.
Defined.

(** The normalizer on the fragments of the specification: a hole of two
    offsets is interpolated, leading missing offsets are dropped. *)
Example convert_traj_format_hole :
  let pt := fun k : Z => Some (inject_Z k, inject_Z (2 * k), 0%Q) in
  option_map (map fst)
    (convert_traj_format
       ([pt 0; pt 1; pt 2; pt 3; None; None; pt 6; pt 7; pt 8; pt 9]%Z, 1%Q) 0)
  = Some [[0; 1; 2; 3; 4; 5; 6; 7; 8; 9]%Z].
Proof. reflexivity. Qed.

Example convert_traj_format_leading :
  let pt := fun k : Z => Some (inject_Z k, inject_Z (2 * k), 0%Q) in
  option_map (map fst)
    (convert_traj_format
       ([None; None; pt 2; pt 3; pt 4; pt 5; pt 6; pt 7; pt 8; pt 9]%Z, 1%Q) 0)
  = Some [[2; 3; 4; 5; 6; 7; 8; 9]%Z].
Proof. reflexivity. Qed.

End NormalizerFacts.

(** ** get_temporal_overlapped_pairs and resolve_temporal_overlap *)

Module TemporalFacts.
Import ArrayFacts OverlapFacts.

Lemma nan_lt_self p r :
  (0 < r)%Q -> nan_lt (sq_dist (Some p) (Some p)) r = true.
Proof.
  intros Hr. simpl. apply Qltb_lt.
  destruct p as [[x y] z]. unfold sq_diff.
  assert (E : ((x - x) * (x - x) + (y - y) * (y - y) + (z - z) * (z - z)
               == 0)%Q) by ring.
  rewrite E. exact Hr.
Qed.

Lemma isclose_three :
  isclose (Some (inject_Z (Z.of_nat 3))) (Some (inject_Z (Z.of_nat 3))) = true.
Proof. reflexivity. Qed.

(** One round of evaluation of the stitcher on fragments whose points are
    not known: the distance of a point to itself is settled by a lemma. *)
Ltac stitch_run :=
  cbn -[nan_lt sq_dist Qplus Qmult Z.leb Z.of_nat isclose];
  rewrite ?nan_lt_self by reflexivity;
  rewrite ?isclose_three;
  change ((2 <=? Z.of_nat 3)%Z) with true.

(** C5: three batches of one fragment each, of length 6, cut from one track
    of 12 frames at the frames [0,6), [3,9) and [6,12), are stitched with
    lag 3, ntol 2 and rtol 1 into the one track, with start frame 0; its
    normal form has the 12 frame numbers 0..11, each once. *)
Theorem resolve_three_batches (g : list point3) (e0 e1 e2 : Q) :
  length g = 12 ->
  resolve_temporal_overlap
    [[(firstn 6 (map Some g), e0)];
     [(firstn 6 (skipn 3 (map Some g)), e1)];
     [(skipn 6 (map Some g), e2)]] 3 2 1
  = Some ([(map Some g, (e0 + e1 + e2)%Q)], [0]) /\
  convert_traj_format (map Some g, (e0 + e1 + e2)%Q) 0
  = Some [([0; 1; 2; 3; 4; 5; 6; 7; 8; 9; 10; 11]%Z, g)].
Proof.
  intros Hg.
  do 13 (destruct g as [|? g]; try discriminate). clear Hg.
  split.
  - unfold resolve_temporal_overlap. do 3 stitch_run. reflexivity.
  - reflexivity.
Qed.

(** An instance of [resolve_three_batches]: a fish that does not move, so
    that the three fragments are the same array. *)
Lemma resolve_three_batches_witness :
  let p : position := Some (1, 2, 3)%Q in
  let f : fragment := ([p; p; p; p; p; p], 1%Q) in
  resolve_temporal_overlap [[f]; [f]; [f]] 3 2 1
  = Some ([([p; p; p; p; p; p; p; p; p; p; p; p], (1 + 1 + 1)%Q)], [0]) /\
  convert_traj_format ([p; p; p; p; p; p; p; p; p; p; p; p], (1 + 1 + 1)%Q) 0
  = Some [([0; 1; 2; 3; 4; 5; 6; 7; 8; 9; 10; 11]%Z,
           repeat (1, 2, 3)%Q 12)].
Proof.
  intros p f.
  apply (@resolve_three_batches (repeat (1, 2, 3)%Q 12) 1%Q 1%Q 1%Q).
  reflexivity.
Defined.

Lemma nth_and_row (a b : list bool) : forall j,
  nth j (map (fun xy : bool * bool => fst xy && snd xy) (combine a b)) false
    = true ->
  nth j a false = true /\ nth j b false = true.
Proof.
  revert b. induction a as [|x a IH]; intros [|y b] [|j]; simpl;
    try discriminate.
  - intros H. apply andb_prop in H. exact H.
  - apply IH.
Qed.

Lemma nth_and_mat (a b : list (list bool)) : forall i j,
  nth j (nth i (and_mat a b) []) false = true ->
  nth j (nth i a []) false = true /\ nth j (nth i b []) false = true.
Proof.
  unfold and_mat. revert b.
  induction a as [|r a IH]; intros [|r' b] [|i] j; simpl;
    try (destruct j; discriminate).
  - apply nth_and_row.
  - apply IH.
Qed.

Lemma nth_map_map_true {A : Type} (f : A -> bool) (m : list (list A)) d i j :
  nth j (nth i (map (map f) m) []) false = true ->
  i < length m /\ j < length (nth i m []) /\ f (nth j (nth i m []) d) = true.
Proof.
  intros H.
  destruct (Nat.lt_ge_cases i (length m)) as [Hi|Hi].
  - rewrite (nth_map_in (map f) m [] [] Hi) in H.
    destruct (Nat.lt_ge_cases j (length (nth i m []))) as [Hj|Hj].
    + rewrite (nth_map_in f _ d false Hj) in H. auto.
    + rewrite nth_overflow in H by (rewrite length_map; exact Hj).
      discriminate.
  - rewrite (nth_overflow (map (map f) m)) in H
      by (rewrite length_map; exact Hi).
    destruct j; discriminate.
Qed.

Lemma nth_unique_mask u score i j :
  nth j (nth i (unique_mask u score) []) false = true ->
  isclose (nth j (nth i score []) None) (best u (column j score)) = true /\
  isclose (nth j (nth i score []) None) (best u (nth i score [])) = true.
Proof.
  unfold unique_mask. intros H.
  destruct (Nat.lt_ge_cases i (length score)) as [Hi|Hi].
  - rewrite (nth_map_in _ score [] [] Hi) in H.
    destruct (Nat.lt_ge_cases j (length (nth i score []))) as [Hj|Hj].
    + rewrite (nth_enumerate_map _ _ None false Hj) in H. simpl in H.
      apply andb_prop in H. exact H.
    + rewrite nth_overflow in H
        by (rewrite length_map, enumerate_length; exact Hj).
      discriminate.
  - rewrite (nth_overflow (map _ score)) in H
      by (rewrite length_map; exact Hi).
    destruct j; discriminate.
Qed.

Lemma isclose_Some a b :
  isclose a b = true -> exists x y, a = Some x /\ b = Some y.
Proof.
  destruct a as [x|], b as [y|]; simpl; try discriminate. eauto.
Qed.

Section NanFold.

Variable le : Q -> Q -> Prop.
Variable pick : Q -> Q -> Q.
Hypothesis le_refl : forall a, le a a.
Hypothesis le_trans : forall a b c, le a b -> le b c -> le a c.
Hypothesis pick_one : forall a b, pick a b = a \/ pick a b = b.
Hypothesis pick_le : forall a b, le (pick a b) a /\ le (pick a b) b.

Lemma nan_fold_acc : forall v acc m,
  fold_left (fun acc x =>
               match acc, x with
               | Some a, Some b => Some (pick a b)
               | None, _ => x
               | _, None => acc
               end) v acc = Some m ->
  (In (Some m) v \/ acc = Some m) /\
  (forall w, In (Some w) v \/ acc = Some w -> le m w).
Proof.
  induction v as [|x v IH]; intros acc m H; simpl in H.
  - subst acc. split; [right; reflexivity|].
    intros w [[]|E]. inversion E. apply le_refl.
  - apply IH in H. destruct H as [Hin Hle].
    destruct acc as [a|], x as [b|].
    + split.
      * destruct Hin as [Hin|E]; [left; right; exact Hin|].
        destruct (pick_one a b) as [P|P]; rewrite P in E.
        -- right. exact E.
        -- left. left. exact E.
      * intros w Hw.
        assert (Hp : le m (pick a b)) by (apply Hle; right; reflexivity).
        destruct Hw as [[E|Hw]|E].
        -- inversion E; subst. eapply le_trans; [exact Hp | apply pick_le].
        -- apply Hle. left. exact Hw.
        -- inversion E; subst. eapply le_trans; [exact Hp | apply pick_le].
    + split.
      * destruct Hin as [Hin|E]; [left; right; exact Hin | right; exact E].
      * intros w [[E|Hw]|E]; [discriminate | apply Hle; auto
                             | apply Hle; auto].
    + split.
      * destruct Hin as [Hin|E]; [left; right; exact Hin | left; left; exact E].
      * intros w [[E|Hw]|E]; [apply Hle; auto | apply Hle; auto
                             | discriminate].
    + split.
      * destruct Hin as [Hin|E]; [left; right; exact Hin | discriminate].
      * intros w [[E|Hw]|E]; [discriminate | apply Hle; auto | discriminate].
Qed.

End NanFold.

Lemma best_is_best u vs b : best u vs = Some b -> is_best u vs b.
Proof.
  destruct u; unfold best, nan_min, nan_max, nan_fold; intros H.
  - apply (@nan_fold_acc Qle) in H.
    + destruct H as [[Hin|E] Hle]; [|discriminate].
      split; [exact Hin | intros v Hv; apply Hle; auto].
    + apply Qle_refl.
    + apply Qle_trans.
    + intros a c. destruct (Qltb c a); auto.
    + intros a c. destruct (Qltb c a) eqn:E.
      * apply Qltb_lt in E. split; [apply Qlt_le_weak, E | apply Qle_refl].
      * split; [apply Qle_refl|]. apply Qnot_lt_le. intros Hlt.
        apply Qltb_lt in Hlt. congruence.
  - apply (@nan_fold_acc (fun a c => Qle c a)) in H.
    + destruct H as [[Hin|E] Hle]; [|discriminate].
      split; [exact Hin | intros v Hv; apply Hle; auto].
    + apply Qle_refl.
    + intros a c e Hac Hce. eapply Qle_trans; eauto.
    + intros a c. destruct (Qltb a c); auto.
    + intros a c. destruct (Qltb a c) eqn:E.
      * apply Qltb_lt in E. split; [apply Qlt_le_weak, E | apply Qle_refl].
      * split; [apply Qle_refl|]. apply Qnot_lt_le. intros Hlt.
        apply Qltb_lt in Hlt. congruence.
Qed.

(** What the two masks do ensure: under a uniqueness policy every returned
    pair (i, j) has at least ntol overlapping offsets, and its score (the
    least squared distance for 'dist', the overlap count for 'conn') is
    np.isclose to the best score of fragment i's row and to the best score
    of fragment j's column. *)
Lemma temporal_pairs_mutual_best
    (batch_1 batch_2 : list fragment) (lag : nat) (ntol : Z) (rtol : Q)
    (u : policy) (pairs : list (nat * nat)) (i j : nat) :
  get_temporal_overlapped_pairs batch_1 batch_2 lag ntol rtol (Some u)
    = Some pairs ->
  In (i, j) pairs ->
  exists dist_mat score v row_best col_best,
    temporal_dist_mat batch_1 batch_2 lag = Some dist_mat /\
    score_mat u lag dist_mat (temporal_conn_mat dist_mat rtol) = Some score /\
    (ntol <= Z.of_nat (nth j (nth i (temporal_conn_mat dist_mat rtol) []) 0%nat))%Z /\
    nth j (nth i score []) None = Some v /\
    is_best u (nth i score []) row_best /\
    is_best u (column j score) col_best /\
    isclose (Some v) (Some row_best) = true /\
    isclose (Some v) (Some col_best) = true.
Proof.
  unfold get_temporal_overlapped_pairs. intros H Hin.
  destruct (temporal_dist_mat batch_1 batch_2 lag) as [dm|] eqn:Edm;
    [|discriminate].
  cbn [bind] in H.
  assert (Hshape : length dm = length batch_1 /\
                   forall i, i < length dm ->
                     length (nth i dm []) = length batch_2).
  { unfold temporal_dist_mat in Edm.
    destruct (mapM_Some _ _ Edm) as [Hl Hrows]. split; [exact Hl|].
    intros k Hk.
    destruct (Hrows k (nth k batch_1 ([], 0%Q))) as (row & Hrow & Hk').
    { apply nth_error_nth'.
      exact (eq_ind (length dm) (fun n => k < n) Hk _ Hl). }
    rewrite (nth_error_nth _ _ [] Hk').
    apply (mapM_Some _ _ Hrow). }
  destruct ((0 <? length batch_1) && (0 <? length batch_2)) eqn:Eg.
  - destruct (score_mat u lag dm (temporal_conn_mat dm rtol)) as [sc|] eqn:Esc;
      [|discriminate].
    cbn [bind] in H. inversion H; subst pairs. clear H.
    apply in_nonzero in Hin. apply nth_and_mat in Hin.
    destruct Hin as [Hadj Hmask].
    apply (nth_map_map_true _ _ 0) in Hadj.
    destruct Hadj as (_ & _ & Hadj). apply Z.leb_le in Hadj.
    apply nth_unique_mask in Hmask. destruct Hmask as [Hcol Hrow].
    destruct (isclose_Some _ _ Hcol) as (v & cb & Ev & Ecb).
    destruct (isclose_Some _ _ Hrow) as (v' & rb & Ev' & Erb).
    exists dm, sc, v, rb, cb. rewrite Ev, Ecb in Hcol. rewrite Ev, Erb in Hrow.
    split; [reflexivity|]. split; [exact Esc|]. split; [exact Hadj|].
    split; [exact Ev|]. split; [apply best_is_best; exact Erb|].
    split; [apply best_is_best; exact Ecb|]. split; assumption.
  - exfalso. cbn [bind] in H. inversion H; subst pairs. clear H.
    apply in_nonzero in Hin.
    apply (nth_map_map_true _ _ 0) in Hin. destruct Hin as (Hi & Hj & _).
    unfold temporal_conn_mat in Hi, Hj. rewrite length_map in Hi.
    rewrite (nth_map_in _ dm [] [] Hi), length_map in Hj.
    destruct Hshape as [Hl Hrows]. rewrite (Hrows i Hi) in Hj.
    apply andb_false_iff in Eg.
    destruct Eg as [E|E]; apply Nat.ltb_ge in E; lia.
Qed.

(** C6 fails on the code, which misses the case of a tie.  The tails of X
    and of Y are both within rtol of the head of Z on all three offsets of
    the lag, so under 'conn' both scores are 3 and both masks keep both
    entries: (0, 0) and (1, 0) are returned and fragment 0 of the second
    batch is matched twice.  resolve_temporal_overlap then appends Z to X
    and to Y, and returns Y once more on its own. *)
Theorem temporal_pairs_tie_matched_twice :
  let X : fragment := (repeat (Some (0, 0, 0)%Q) 6, 1%Q) in
  let Y : fragment := (repeat (Some (1 # 2, 0, 0)%Q) 6, 1%Q) in
  let Z : fragment := (repeat (Some (1 # 5, 0, 0)%Q) 6, 1%Q) in
  get_temporal_overlapped_pairs [X; Y] [Z] 3 2 1 (Some Conn)
    = Some [(0, 0); (1, 0)] /\
  ~ one_match_each [(0, 0); (1, 0)] /\
  resolve_temporal_overlap [[X; Y]; [Z]] 3 2 1
    = Some ([(firstn 3 (fst X) ++ fst Z, 2%Q);
             (firstn 3 (fst Y) ++ fst Z, 2%Q);
             Y],
            [0; 0; 3]).
Proof.
  split; [reflexivity|]. split; [|reflexivity].
  intros H. specialize (H 0 0 1 0 (or_introl eq_refl)
                          (or_intror (or_introl eq_refl))).
  destruct H as [_ H]. specialize (H eq_refl). discriminate.
Qed.

(** An instance of [temporal_pairs_mutual_best]: Y is the nearer of the two
    candidates for Z under 'dist'. *)
Lemma temporal_pairs_mutual_best_witness :
  let X : fragment := (repeat (Some (0, 0, 0)%Q) 3, 1%Q) in
  let Y : fragment := (repeat (Some (1 # 4, 0, 0)%Q) 3, 1%Q) in
  let Z : fragment := (repeat (Some (1 # 5, 0, 0)%Q) 3, 1%Q) in
  get_temporal_overlapped_pairs [X; Y] [Z] 3 2 1 (Some Dist) = Some [(1, 0)] /\
  exists dist_mat score v row_best col_best,
    temporal_dist_mat [X; Y] [Z] 3 = Some dist_mat /\
    score_mat Dist 3 dist_mat (temporal_conn_mat dist_mat 1) = Some score /\
    (2 <= Z.of_nat (nth 0%nat (nth 1%nat (temporal_conn_mat dist_mat 1) []) 0%nat))%Z /\
    nth 0 (nth 1 score []) None = Some v /\
    is_best Dist (nth 1 score []) row_best /\
    is_best Dist (column 0 score) col_best /\
    isclose (Some v) (Some row_best) = true /\
    isclose (Some v) (Some col_best) = true.
Proof.
  intros X Y Z. split; [reflexivity|].
  apply (@temporal_pairs_mutual_best [X; Y] [Z] 3 2%Z 1%Q Dist [(1, 0)] 1 0).
  - reflexivity.
  - left. reflexivity.
Defined.

End TemporalFacts.

(** ** solve_overlap_lp and solve_overlap_lp_fast *)

Module ResolverFacts.
Import ArrayFacts OverlapFacts SpatialFacts.

Lemma nth_seq_map {B : Type} (F : nat -> B) n i d :
  i < n -> nth i (map F (seq 0 n)) d = F i.
Proof.
  intros Hi. rewrite (nth_map_in F (seq 0 n) 0 d) by (rewrite length_seq; exact Hi).
  rewrite seq_nth by exact Hi. reflexivity.
Qed.

(** The members of a masked selection, and its ordered pairs. *)
Lemma In_mask_select {A : Type} (d : A) : forall (a : list A) mask y,
  In y (map snd (filter fst (combine mask a))) ->
  exists b, b < length a /\ nth b mask false = true /\ nth b a d = y.
Proof.
  induction a as [|x a IH]; intros [|m mask] y; simpl; try contradiction.
  destruct m; simpl.
  - intros [<-|H].
    + exists 0. repeat split. lia.
    + destruct (IH mask y H) as (b & Hb & Hm & Hy).
      exists (S b). repeat split; try assumption. lia.
  - intros H. destruct (IH mask y H) as (b & Hb & Hm & Hy).
    exists (S b). repeat split; try assumption. lia.
Qed.

Lemma mask_select_pairs {A : Type} (R : A -> A -> Prop) (d : A) :
  forall (a : list A) mask,
  (forall i j, i < j < length a ->
     nth i mask false = true -> nth j mask false = true ->
     R (nth i a d) (nth j a d)) ->
  ForallOrdPairs R (map snd (filter fst (combine mask a))).
Proof.
  induction a as [|x a IH]; intros [|m mask] H; simpl; try constructor.
  assert (Hrest : ForallOrdPairs R (map snd (filter fst (combine mask a)))).
  { apply IH. intros i j Hij Hi Hj. apply (H (S i) (S j)); simpl; auto. lia. }
  destruct m; simpl; [|exact Hrest].
  constructor; [|exact Hrest].
  apply Forall_forall. intros y Hy.
  destruct (In_mask_select d _ _ _ Hy) as (b & Hb & Hm & <-).
  apply (H 0 (S b)); simpl; auto. lia.
Qed.

Section Resolver.

Variable dist : point -> point -> Q.
Variable solve : lp_model -> option (list bool).

(** The backend is sound: an assignment it returns satisfies the
    constraints it was given. *)
Hypothesis solve_sound : forall m x, solve m = Some x -> feasible m x = true.

Lemma pdist_separated diameter : forall points,
  forallb (fun d => Qltb diameter d) (pdist dist points) = true ->
  separated dist diameter points.
Proof.
  induction points as [|p ps IH]; simpl; intros H; [constructor|].
  rewrite forallb_app in H. apply andb_prop in H. destruct H as [Hp Hps].
  constructor; [|apply IH; exact Hps].
  apply Forall_forall. intros q Hq.
  rewrite forallb_forall in Hp.
  apply Qlt_le_weak, Qltb_lt, Hp, in_map, Hq.
Qed.

Lemma dist_matrix_nth points i j :
  i < j < length points ->
  nth j (nth i (dist_matrix dist points) []) 0%Q
  = dist (nth i points []) (nth j points []).
Proof.
  intros Hij. unfold dist_matrix.
  rewrite nth_seq_map by lia. rewrite nth_seq_map by lia.
  destruct (Nat.ltb_spec i j); [reflexivity | lia].
Qed.

(** What a feasible assignment of [overlap_model] says about two chosen
    points. *)
Lemma feasible_apart points errors diameter n x i j :
  feasible (overlap_model dist points errors diameter n) x = true ->
  i < j < length points ->
  nth i x false = true -> nth j x false = true ->
  (diameter <= dist (nth i points []) (nth j points []))%Q.
Proof.
  unfold feasible. simpl. intros H Hij Hi Hj.
  apply andb_prop in H. destruct H as [_ H].
  rewrite forallb_forall in H.
  assert (Hi' : In i (seq 0 (length points))) by (apply in_seq; lia).
  assert (Hj' : In j (seq 0 (length points))) by (apply in_seq; lia).
  specialize (H i Hi'). rewrite forallb_forall in H. specialize (H j Hj').
  rewrite Hi, Hj in H.
  destruct (Nat.eqb_spec i j) as [E|_]; [lia|]. simpl in H.
  apply Qle_bool_iff in H.
  assert (Hc : nth j (nth i (map (map (fun d => (d - diameter)%Q))
                                 (dist_matrix dist points)) []) 0%Q
               = (dist (nth i points []) (nth j points []) - diameter)%Q).
  { unfold dist_matrix.
    rewrite (nth_map_in _ _ [] []) by (rewrite length_map, length_seq; lia).
    rewrite nth_seq_map by lia.
    rewrite (nth_map_in _ _ 0%Q 0%Q) by (rewrite length_map, length_seq; lia).
    rewrite nth_seq_map by lia.
    destruct (Nat.ltb_spec i j); [reflexivity | lia]. }
  rewrite Hc in H. Lqa.lra.
Qed.

Lemma mask_select_separated points errors diameter n x res :
  feasible (overlap_model dist points errors diameter n) x = true ->
  mask_select x points = Some res ->
  separated dist diameter res.
Proof.
  unfold mask_select. intros Hf H.
  destruct (length x =? length points); [|discriminate].
  inversion H; subst res. apply mask_select_pairs with (d := []).
  intros i j Hij Hi Hj. eapply feasible_apart; eauto.
Qed.

Lemma ladder_separated points errors diameter : forall targets res,
  ladder dist solve points errors diameter targets = Some res ->
  separated dist diameter res.
Proof.
  induction targets as [|n rest IH]; intros res H; simpl in H.
  - destruct (argmin errors) as [b|]; [|discriminate]. simpl in H.
    destruct (nth_error points b) as [p|]; [|discriminate].
    inversion H. repeat constructor.
  - destruct (solve _) as [x|] eqn:E; [|apply IH; exact H].
    eapply mask_select_separated; [apply solve_sound; exact E | exact H].
Qed.

Lemma solve_overlap_lp_separated points errors diameter res :
  solve_overlap_lp dist solve points errors diameter = Some res ->
  separated dist diameter res.
Proof.
  unfold solve_overlap_lp.
  destruct (forallb _ (pdist dist points)) eqn:Eall.
  - intros H. inversion H; subst res. apply pdist_separated. exact Eall.
  - destruct (length points <=? 1) eqn:E1.
    + intros H. inversion H; subst res. apply Nat.leb_le in E1.
      destruct points as [|p [|q ?]]; simpl in E1; try lia;
        repeat constructor.
    + apply ladder_separated.
Qed.

Lemma solve_overlap_lp_incl points errors diameter res :
  solve_overlap_lp dist solve points errors diameter = Some res ->
  incl res points.
Proof.
  unfold solve_overlap_lp.
  destruct (forallb _ _); [intros H; inversion H; apply incl_refl|].
  destruct (_ <=? _); [intros H; inversion H; apply incl_refl|].
  generalize (ladder_sizes (length points)).
  induction l as [|n rest IH]; simpl.
  - destruct (argmin errors) as [b|]; [|discriminate]. simpl.
    destruct (nth_error points b) as [p|] eqn:E; [|discriminate].
    intros H. inversion H. intros y [<-|[]]. eapply nth_error_In; eauto.
  - destruct (solve _) as [x|]; [|exact IH].
    unfold mask_select. destruct (_ =? _); [|discriminate].
    intros H. inversion H. intros y Hy.
    destruct (In_mask_select [] _ _ _ Hy) as (b & Hb & _ & <-).
    apply nth_In. exact Hb.
Qed.

(** C7: for a non-empty input whose target sizes N down to 2 are all
    attempted, if the backend reports no solution at every one of them,
    solve_overlap_lp returns, without raising, exactly one point: an input
    point of least error. *)
Theorem solve_overlap_lp_all_infeasible
    (points : list point) (errors : list Q) (diameter : Q) :
  points <> [] ->
  length errors = length points ->
  attempted_sizes dist points diameter = ladder_sizes (length points) ->
  (forall n, In n (attempted_sizes dist points diameter) ->
     solve (overlap_model dist points errors diameter n) = None) ->
  exists b,
    solve_overlap_lp dist solve points errors diameter
      = Some [nth b points []] /\
    b < length points /\
    forall j, j < length points -> (nth b errors 0 <= nth j errors 0)%Q.
Proof.
  intros Hne Hlen Hatt Hnone.
  unfold solve_overlap_lp, attempted_sizes in *.
  assert (Hone : ladder_sizes (length points) = [] -> length points = 1).
  { unfold ladder_sizes. intros E.
    apply (f_equal (@length nat)) in E. rewrite length_rev, length_seq in E.
    simpl in E. destruct points; [congruence | simpl in *; lia]. }
  assert (Hsingle : length points = 1 ->
            exists b, Some points = Some [nth b points []] /\
                      b < length points /\
                      forall j, j < length points ->
                                (nth b errors 0 <= nth j errors 0)%Q).
  { intros H1. exists 0. destruct points as [|p [|? ?]]; try discriminate.
    repeat split; [simpl; lia|].
    intros j Hj. simpl in Hj. assert (j = 0) by lia. subst j. apply Qle_refl. }
  destruct (forallb _ (pdist dist points));
    [apply Hsingle, Hone; symmetry; exact Hatt|].
  destruct (length points <=? 1);
    [apply Hsingle, Hone; symmetry; exact Hatt|].
  clear Hatt Hone Hsingle.
  assert (Hlad : forall targets,
            (forall n, In n targets ->
               solve (overlap_model dist points errors diameter n) = None) ->
            ladder dist solve points errors diameter targets
            = ladder dist solve points errors diameter []).
  { induction targets as [|n rest IH]; intros H; [reflexivity|].
    simpl. rewrite (H n (or_introl eq_refl)).
    apply IH. intros k Hk. apply H. right. exact Hk. }
  rewrite (Hlad _ Hnone). simpl.
  destruct (@argmin_spec errors) as (b & Eb & Hb & Hmin).
  { destruct errors; [destruct points; simpl in *; congruence | discriminate]. }
  exists b. rewrite Eb. simpl. rewrite Hlen in Hb, Hmin.
  rewrite (nth_error_nth' points [] Hb). auto.
Qed.

Section Fast.

Variable connected_components : list (list bool) -> nat * list nat.

(** The metric is symmetric. *)
Hypothesis dist_sym : forall p q, dist p q = dist q p.

Lemma proximity_nth points diameter a b :
  a < length points -> b < length points ->
  nth b (nth a (proximity dist points diameter) []) false
  = negb (a =? b) &&
    Qltb (nth b (nth a (dist_matrix dist points) []) 0%Q) diameter.
Proof.
  intros Ha Hb. unfold proximity.
  assert (Hl : length (dist_matrix dist points) = length points)
    by (unfold dist_matrix; rewrite length_map, length_seq; reflexivity).
  rewrite (nth_enumerate_map _ _ [] []) by (rewrite Hl; exact Ha).
  simpl.
  assert (Hr : length (nth a (dist_matrix dist points) []) = length points).
  { unfold dist_matrix. rewrite nth_seq_map by exact Ha.
    rewrite length_map, length_seq. reflexivity. }
  rewrite (nth_enumerate_map _ _ 0%Q false) by (rewrite Hr; exact Hb).
  reflexivity.
Qed.

Lemma proximity_length points diameter :
  length (proximity dist points diameter) = length points.
Proof.
  unfold proximity, dist_matrix.
  rewrite length_map, enumerate_length, length_map, length_seq. reflexivity.
Qed.

(** Points whose labels differ are not closer than the diameter. *)
Lemma labels_apart points diameter labels a b :
  labels_respect (proximity dist points diameter) labels = true ->
  a < length points -> b < length points ->
  nth a labels 0 <> nth b labels 0 ->
  (diameter <= dist (nth a points []) (nth b points []))%Q.
Proof.
  unfold labels_respect. rewrite proximity_length. intros H Ha Hb Hne.
  rewrite forallb_forall in H.
  assert (Ha' : In a (seq 0 (length points))) by (apply in_seq; lia).
  assert (Hb' : In b (seq 0 (length points))) by (apply in_seq; lia).
  specialize (H a Ha'). rewrite forallb_forall in H. specialize (H b Hb').
  destruct (Nat.eqb_spec (nth a labels 0) (nth b labels 0)) as [E|_];
    [contradiction|].
  rewrite orb_false_r, negb_true_iff in H.
  rewrite proximity_nth in H by assumption.
  destruct (Nat.eqb_spec a b) as [->|Hab]; [congruence|]. simpl in H.
  assert (Hd : (diameter <= nth b (nth a (dist_matrix dist points) []) 0)%Q).
  { apply Qnot_lt_le. intros Hlt. apply Qltb_lt in Hlt. congruence. }
  destruct (Nat.lt_total a b) as [Hlt|[E|Hlt]]; [|contradiction|].
  - rewrite dist_matrix_nth in Hd by lia. exact Hd.
  - unfold dist_matrix in Hd.
    rewrite nth_seq_map in Hd by lia. rewrite nth_seq_map in Hd by lia.
    destruct (Nat.ltb_spec a b); [lia|].
    destruct (Nat.ltb_spec b a); [|lia].
    rewrite dist_sym. exact Hd.
Qed.

Lemma FOP_app {A : Type} (R : A -> A -> Prop) (l1 l2 : list A) :
  ForallOrdPairs R l1 -> ForallOrdPairs R l2 ->
  (forall x y, In x l1 -> In y l2 -> R x y) ->
  ForallOrdPairs R (l1 ++ l2).
Proof.
  induction 1 as [|x l1 Hx H1 IH]; intros H2 Hc; simpl; [exact H2|].
  constructor.
  - apply Forall_app. split; [exact Hx|].
    apply Forall_forall. intros y Hy. apply Hc; [left; reflexivity | exact Hy].
  - apply IH; [exact H2|]. intros a b Ha Hb. apply Hc; [right|]; assumption.
Qed.

Lemma FOP_concat {A : Type} (R : A -> A -> Prop) : forall parts : list (list A),
  (forall part, In part parts -> ForallOrdPairs R part) ->
  (forall k1 k2 x y, k1 < k2 < length parts ->
     In x (nth k1 parts []) -> In y (nth k2 parts []) -> R x y) ->
  ForallOrdPairs R (concat parts).
Proof.
  induction parts as [|part parts IH]; intros Hin Hc; simpl; [constructor|].
  apply FOP_app.
  - apply Hin. left. reflexivity.
  - apply IH.
    + intros q Hq. apply Hin. right. exact Hq.
    + intros k1 k2 x y Hk Hx Hy. apply (Hc (S k1) (S k2)); simpl; auto. lia.
  - intros x y Hx Hy. apply in_concat in Hy. destruct Hy as (q & Hq & Hy).
    destruct (In_nth parts q [] Hq) as (k & Hk & <-).
    apply (Hc 0 (S k)); simpl; auto. lia.
Qed.

Lemma mapM_In {A B : Type} (f : A -> option B) : forall l ys y,
  mapM f l = Some ys -> In y ys -> exists x, In x l /\ f x = Some y.
Proof.
  induction l as [|x l IH]; intros ys y H Hy; simpl in H.
  - inversion H; subst. contradiction.
  - destruct (f x) as [z|] eqn:Ef; simpl in H; [|discriminate].
    destruct (mapM f l) as [zs|] eqn:Em; simpl in H; [|discriminate].
    inversion H; subst. destruct Hy as [<-|Hy].
    + exists x. split; [left; reflexivity | exact Ef].
    + destruct (IH zs y eq_refl Hy) as (x' & Hx' & Hf).
      exists x'. split; [right; exact Hx' | exact Hf].
Qed.

(** The members of the part computed for the label [val]. *)
Lemma take_clique_members (points : list point) labels val pts p :
  take points (where_true (map (fun l => l =? val) labels)) = Some pts ->
  In p pts ->
  exists a, a < length points /\ nth a labels 0 = val /\ nth a points [] = p.
Proof.
  unfold take. intros H Hp.
  destruct (mapM_In _ _ _ H Hp) as (a & Ha & Hn).
  apply in_where_true in Ha.
  exists a. split; [|split].
  - apply nth_error_Some. congruence.
  - destruct (Nat.lt_ge_cases a (length labels)) as [Hlt|Hge].
    + rewrite (nth_map_in _ labels 0 false Hlt) in Ha.
      apply Nat.eqb_eq. exact Ha.
    + rewrite nth_overflow in Ha by (rewrite length_map; exact Hge).
      discriminate.
  - apply nth_error_nth. exact Hn.
Qed.

Lemma solve_overlap_lp_fast_separated points errors diameter res :
  labels_respect (proximity dist points diameter)
    (snd (connected_components (proximity dist points diameter))) = true ->
  solve_overlap_lp_fast dist solve connected_components points errors diameter
    = Some res ->
  separated dist diameter res.
Proof.
  intros Hlab. unfold solve_overlap_lp_fast.
  set (labels := snd (connected_components _)) in *.
  set (n := fst (connected_components _)).
  set (f := fun val : nat => _).
  destruct (mapM f (seq 0 n)) as [parts|] eqn:Em; [|discriminate].
  cbn [bind]. intros H.
  assert (Hres : res = concat parts)
    by (destruct parts; [discriminate | inversion H; reflexivity]).
  subst res. clear H.
  destruct (mapM_Some _ _ Em) as [Hlen Hparts].
  rewrite length_seq in Hlen.
  assert (Hpart : forall k, k < length parts ->
            ForallOrdPairs (fun p q => (diameter <= dist p q)%Q)
                           (nth k parts []) /\
            forall p, In p (nth k parts []) ->
              exists a, a < length points /\ nth a labels 0 = k /\
                        nth a points [] = p).
  { intros k Hk.
    destruct (Hparts k k) as (part & Hf & Hn).
    { rewrite nth_error_nth' with (d := 0) by (rewrite length_seq; lia).
      rewrite seq_nth by lia. reflexivity. }
    rewrite (nth_error_nth _ _ [] Hn). unfold f in Hf.
    destruct (length (where_true _) =? 1) eqn:E1.
    - split; [|intros p Hp; eapply take_clique_members; eauto].
      destruct (mapM_Some _ _ Hf) as [Hl _].
      apply Nat.eqb_eq in E1. rewrite E1 in Hl.
      destruct part as [|p [|? ?]]; try discriminate. repeat constructor.
    - destruct (take points _) as [pts|] eqn:Ep; [|discriminate].
      cbn [bind] in Hf.
      destruct (take errors _) as [errs|]; [|discriminate].
      cbn [bind] in Hf. split.
      + eapply solve_overlap_lp_separated; eauto.
      + intros p Hp. apply (solve_overlap_lp_incl _ _ _ Hf) in Hp.
        eapply take_clique_members; eauto. }
  apply FOP_concat.
  - intros part Hin. destruct (In_nth parts part [] Hin) as (k & Hk & <-).
    apply Hpart. exact Hk.
  - intros k1 k2 x y Hk Hx Hy.
    destruct (proj2 (Hpart k1 ltac:(lia)) x Hx) as (a & Ha & La & <-).
    destruct (proj2 (Hpart k2 ltac:(lia)) y Hy) as (b & Hb & Lb & <-).
    eapply labels_apart; eauto. lia.
Qed.

(** C1: for a positive diameter and a backend whose answers satisfy the
    constraints they were given, the points solve_overlap_lp returns are
    pairwise at least diameter apart, when the optimisation succeeds as on
    every other return; and so are the points solve_overlap_lp_fast
    returns, which solves the connected components one by one. *)
Theorem resolver_keeps_points_apart
    (points : list point) (errors : list Q) (diameter : Q) :
  (0 < diameter)%Q ->
  labels_respect (proximity dist points diameter)
    (snd (connected_components (proximity dist points diameter))) = true ->
  (forall res,
     solve_overlap_lp dist solve points errors diameter = Some res ->
     separated dist diameter res) /\
  (forall res,
     solve_overlap_lp_fast dist solve connected_components
                           points errors diameter = Some res ->
     separated dist diameter res).
Proof.
  intros _ Hlab. split; intros res H.
  - eapply solve_overlap_lp_separated; eauto.
  - eapply solve_overlap_lp_fast_separated; eauto.
Qed.

End Fast.

End Resolver.

Lemma cheapest_In c : forall l x, cheapest c l = Some x -> In x l.
Proof.
  induction l as [|y l IH]; intros x H; simpl in H; [discriminate|].
  destruct (cheapest c l) as [z|].
  - destruct (Qltb (c z) (c y)); inversion H; subst.
    + right. apply IH. reflexivity.
    + left. reflexivity.
  - inversion H. left. reflexivity.
Qed.

(** The search backend only returns assignments that pass [feasible]. *)
Lemma exhaustive_solve_sound m x :
  exhaustive_solve m = Some x -> feasible m x = true.
Proof.
  unfold exhaustive_solve. intros H. apply cheapest_In in H.
  apply filter_In in H. tauto.
Qed.

Lemma dist_1d_sym p q : dist_1d p q = dist_1d q p.
Proof. unfold dist_1d. apply Qabs_Qminus. Qed.

(** An instance of [resolver_keeps_points_apart]: six points on a line, in
    the three groups {0, 1/2}, {10, 21/2, 11} and {30}. *)
Lemma resolver_keeps_points_apart_witness :
  let pts : list point := [[0]; [1 # 2]; [10]; [21 # 2]; [11]; [30]]%Q in
  let errs : list Q := [3; 1; 5; 2; 4; 9]%Q in
  (solve_overlap_lp dist_1d exhaustive_solve pts errs 1
     = Some [[1 # 2]; [10]; [11]; [30]]%Q /\
   solve_overlap_lp_fast dist_1d exhaustive_solve reach_labels pts errs 1
     = Some [[1 # 2]; [10]; [11]; [30]]%Q) /\
  (forall res,
     solve_overlap_lp dist_1d exhaustive_solve pts errs 1 = Some res ->
     separated dist_1d 1 res) /\
  (forall res,
     solve_overlap_lp_fast dist_1d exhaustive_solve reach_labels pts errs 1
       = Some res ->
     separated dist_1d 1 res).
Proof.
  intros pts errs. split; [split; vm_compute; reflexivity|].
  apply (@resolver_keeps_points_apart dist_1d exhaustive_solve
           exhaustive_solve_sound reach_labels dist_1d_sym pts errs 1%Q).
  - reflexivity.
  - vm_compute. reflexivity.
Defined.

(** An instance of [solve_overlap_lp_all_infeasible]: two overlapping
    points and a backend that never finds a solution. *)
Lemma solve_overlap_lp_all_infeasible_witness :
  let pts : list point := [[0]; [1 # 2]]%Q in
  let errs : list Q := [3; 1]%Q in
  solve_overlap_lp dist_1d (fun _ => None) pts errs 1 = Some [[1 # 2]]%Q /\
  exists b,
    solve_overlap_lp dist_1d (fun _ => None) pts errs 1
      = Some [nth b pts []] /\
    b < length pts /\
    forall j, j < length pts -> (nth b errs 0 <= nth j errs 0)%Q.
Proof.
  intros pts errs. split; [reflexivity|].
  apply (@solve_overlap_lp_all_infeasible dist_1d (fun _ => None) pts errs 1%Q).
  - discriminate.
  - reflexivity.
  - reflexivity.
  - intros n _. reflexivity.
Defined.

(** When no two points are within the diameter the function returns before
    the loop: no target size is attempted and every point is kept. *)
Example solve_overlap_lp_no_overlap :
  attempted_sizes dist_1d [[0]; [10]]%Q 1 = [] /\
  solve_overlap_lp dist_1d (fun _ => None) [[0]; [10]]%Q [1; 2]%Q 1
    = Some [[0]; [10]]%Q.
Proof. split; reflexivity. Qed.

End ResolverFacts.

(* ================================================================== *)
(** * Part III: further properties of the code                         *)
(* ================================================================== *)

(** ** fill_hole_1d: what it never changes *)

Module HoleExtras.
Import Hole HoleFacts.

(** X1: fill_hole_1d returns an array of the length of its input, and an
    entry that was valid stays valid. *)
Theorem fill_hole_1d_only_fills (b : list bool) (size : Z) :
  length (fill_hole_1d b size) = length b /\
  forall i, nth i b false = true -> nth i (fill_hole_1d b size) false = true.
Proof.
  destruct (fill_hole_1d_fills b size) as [Hf _]. split.
  - apply (fills_length Hf).
  - intros i Hi. apply (fills_mono i Hf Hi).
Qed.

(** X2: invalid entries at the head of the array (nothing valid at or
    before them) and at its tail (nothing valid at or after them) are
    never filled, whatever the size. *)
Theorem fill_hole_1d_keeps_ends (b : list bool) (size : Z) (i : nat) :
  (forall j, j <= i -> nth j b false = false) \/
  (forall j, i <= j -> nth j b false = false) ->
  nth i (fill_hole_1d b size) false = false.
Proof.
  intros Hend. destruct (fill_hole_1d_fills b size) as [Hf _].
  destruct (nth i (fill_hole_1d b size) false) eqn:E; [|reflexivity].
  exfalso.
  destruct (fills_sound i Hf E) as [H|(u & s & _ & (_ & H0 & H1 & _) & Hu)].
  - destruct Hend as [Hl|Hr]; [rewrite Hl in H | rewrite Hr in H];
      auto; discriminate.
  - destruct Hend as [Hl|Hr].
    + rewrite Hl in H0 by lia. discriminate.
    + rewrite Hr in H1 by lia. discriminate.
Qed.

Lemma fill_hole_1d_keeps_ends_witness :
  nth 0 (fill_hole_1d [false; true; false; true; false] 3) false = false.
Proof.
  apply (@fill_hole_1d_keeps_ends [false; true; false; true; false] 3%Z 0).
  left. intros j Hj. assert (j = 0) by lia. subst j. reflexivity.
Defined.

(** X3: with a size that is not positive no probe is built and the array
    is returned as it is. *)
Theorem fill_hole_1d_size_not_positive (b : list bool) (size : Z) :
  (size <= 0)%Z -> fill_hole_1d b size = b.
Proof.
  intros Hs. unfold fill_hole_1d, probe_sizes.
  replace (Z.to_nat size) with 0 by lia. reflexivity.
Qed.

Lemma fill_hole_1d_size_not_positive_witness :
  fill_hole_1d [true; false; true] (-2) = [true; false; true].
Proof.
  apply (@fill_hole_1d_size_not_positive [true; false; true] (-2)%Z). lia.
Defined.

End HoleExtras.

(** ** interpolate_nan and convert_traj_format: what they return *)

Module NormalizerExtras.
Import ArrayFacts NormalizerFacts.

Lemma nans_nth (coordinates : list position) i :
  nth i (map is_nan coordinates) true = is_nan (nth i coordinates None).
Proof. change true with (is_nan None). apply map_nth. Qed.

(** The scan from the head stops at the first valid index. *)
Lemma scan_break_seq nans : forall len s last,
  (exists i, s <= i < s + len /\ nth i nans true = false) ->
  exists h, scan_break (seq s len) nans last = Some h /\
            s <= h < s + len /\ nth h nans true = false /\
            forall j, s <= j < h -> nth j nans true = true.
Proof.
  induction len as [|len IH]; intros s last (i & Hi & Hv); [lia|].
  simpl. destruct (nth s nans true) eqn:Es; simpl.
  - destruct (IH (S s) (Some s)) as (h & Hh & Hr & Hvh & Hpre).
    { exists i. split; [|exact Hv].
      destruct (Nat.eq_dec i s) as [->|]; [congruence | lia]. }
    exists h. repeat split; try assumption; try lia.
    intros j Hj. destruct (Nat.eq_dec j s) as [->|]; [exact Es|].
    apply Hpre. lia.
  - exists s. repeat split; try assumption; try lia.
Qed.

(** The scan from the tail stops at the last valid index. *)
Lemma scan_break_rev_seq nans s : forall len last,
  (exists i, s <= i < s + len /\ nth i nans true = false) ->
  exists t, scan_break (rev (seq s len)) nans last = Some t /\
            s <= t < s + len /\ nth t nans true = false /\
            forall j, t < j < s + len -> nth j nans true = true.
Proof.
  induction len as [|len IH]; intros last (i & Hi & Hv); [lia|].
  rewrite seq_S, rev_app_distr. simpl.
  destruct (nth (s + len) nans true) eqn:Es; simpl.
  - destruct (IH (Some (s + len))) as (t & Ht & Hr & Hvt & Hpost).
    { exists i. split; [|exact Hv].
      destruct (Nat.eq_dec i (s + len)) as [->|]; [congruence | lia]. }
    exists t. repeat split; try assumption; try lia.
    intros j Hj. destruct (Nat.eq_dec j (s + len)) as [->|]; [exact Es|].
    apply Hpost. lia.
  - exists (s + len). repeat split; try assumption; try lia.
Qed.

Lemma set_nth_length {A : Type} (a : list A) : forall i v,
  length (set_nth a i v) = length a.
Proof.
  induction a as [|x a IH]; intros [|i] v; simpl; auto.
Qed.

Lemma nth_error_set_nth {A : Type} (a : list A) : forall i v j,
  nth_error (set_nth a i v) j =
  if (j =? i) && (i <? length a) then Some v else nth_error a j.
Proof.
  induction a as [|x a IH]; intros i v j.
  - simpl. rewrite andb_false_r. destruct j; reflexivity.
  - destruct i as [|i], j as [|j]; simpl; try reflexivity.
    rewrite IH. reflexivity.
Qed.

(** The rows written by the assignment loop of [interpolate_nan]. *)
Lemma fold_set_nth (h : nat) : forall (kvs : list (nat * point3)) a,
  let res := fold_left
               (fun result kv => set_nth result (h + fst kv) (Some (snd kv)))
               kvs a in
  length res = length a /\
  (forall j, ~ In j (map (fun kv => h + fst kv) kvs) ->
             nth_error res j = nth_error a j) /\
  (NoDup (map fst kvs) ->
   forall k v, In (k, v) kvs -> h + k < length a ->
               nth_error res (h + k) = Some (Some v)).
Proof.
  induction kvs as [|[k0 v0] kvs IH]; intros a; simpl.
  - repeat split; auto. intros _ k v [].
  - destruct (IH (set_nth a (h + k0) (Some v0))) as (Hl & Hout & Hin).
    rewrite set_nth_length in Hl. split; [exact Hl|]. split.
    + intros j Hj. rewrite Hout by (intros Hc; apply Hj; right; exact Hc).
      rewrite nth_error_set_nth.
      destruct (Nat.eqb_spec j (h + k0)); [|reflexivity].
      exfalso. apply Hj. left. simpl. lia.
    + intros Hnd k v [E|Hkv] Hk.
      * inversion E; subst k0 v0. inversion Hnd as [|? ? Hnot _]; subst.
        rewrite Hout.
        -- rewrite nth_error_set_nth, Nat.eqb_refl.
           destruct (Nat.ltb_spec (h + k) (length a)); [reflexivity | lia].
        -- intros Hc. apply Hnot. apply in_map_iff in Hc.
           destruct Hc as ([k' v'] & E' & Hin'). simpl in E'.
           apply in_map_iff. exists (k', v'). split; [simpl; lia | exact Hin'].
      * inversion Hnd; subst. apply Hin; auto.
        rewrite set_nth_length. exact Hk.
Qed.

Lemma where_true_valid_rows : forall rows s,
  map fst (filter snd
             (combine (seq s (length (map (fun p => negb (is_nan p)) rows)))
                      (map (fun p => negb (is_nan p)) rows)))
  = map fst (valid_rows s rows).
Proof.
  unfold valid_rows.
  induction rows as [|[p|] rows IH]; intros s; simpl; [reflexivity| |].
  - f_equal. apply IH.
  - apply IH.
Qed.

Lemma anchors_valid_rows : forall rows s,
  anchors rows = map snd (valid_rows s rows).
Proof.
  unfold anchors, valid_rows.
  induction rows as [|[p|] rows IH]; intros s; simpl; [reflexivity| |].
  - f_equal. apply IH.
  - apply IH.
Qed.

Lemma in_valid_rows rows s i p :
  In (i, p) (valid_rows s rows) <->
  s <= i /\ nth_error rows (i - s) = Some (Some p).
Proof.
  unfold valid_rows. rewrite in_flat_map. split.
  - intros ([i' [q|]] & Hin & Hp); simpl in Hp; [|contradiction].
    destruct Hp as [E|[]]. inversion E; subst.
    apply in_combine_seq in Hin. exact Hin.
  - intros H. exists (i, Some p). split; [|left; reflexivity].
    apply in_combine_seq. exact H.
Qed.

Lemma valid_rows_sorted : forall rows s,
  StronglySorted lt (map fst (valid_rows s rows)).
Proof.
  induction rows as [|r rows IH]; intros s; [constructor|].
  assert (Hge : Forall (lt s) (map fst (valid_rows (S s) rows))).
  { apply Forall_forall. intros i Hi. apply in_map_iff in Hi.
    destruct Hi as ([i' p] & E & Hin). simpl in E. subst i'.
    apply in_valid_rows in Hin. lia. }
  destruct r as [p|]; unfold valid_rows in *; simpl.
  - constructor; [apply IH | exact Hge].
  - apply IH.
Qed.

Lemma in_nan_indices rows k :
  In k (where_true (map is_nan rows)) <-> nth_error rows k = Some None.
Proof.
  rewrite in_where_true. split; intros H.
  - destruct (nth_error rows k) as [[p|]|] eqn:E.
    + rewrite (nth_error_nth _ _ false (map_nth_error is_nan _ _ E)) in H.
      discriminate.
    + reflexivity.
    + apply nth_error_None in E.
      rewrite nth_overflow in H by (rewrite length_map; exact E).
      discriminate.
  - apply (nth_error_nth _ _ false (map_nth_error is_nan _ _ H)).
Qed.

Lemma combine_map_3 {A : Type} (fx fy fz : nat -> A) (ks : list nat) :
  combine ks (combine (combine (map fx ks) (map fy ks)) (map fz ks))
  = map (fun k => (k, (fx k, fy k, fz k))) ks.
Proof. induction ks as [|k ks IH]; simpl; [reflexivity|]. rewrite IH. reflexivity. Qed.

Lemma np_interp_valid_rows (c : point3 -> Q) rows ks :
  valid_rows 0 rows <> [] ->
  np_interp ks (where_true (map (fun p => negb (is_nan p)) rows))
            (map c (anchors rows))
  = Some (map (interp_over c (valid_rows 0 rows)) ks).
Proof.
  intros Hne. unfold where_true, enumerate.
  rewrite where_true_valid_rows, (anchors_valid_rows rows 0).
  destruct (valid_rows 0 rows) as [|[x0 p0] V]; [congruence|].
  simpl. rewrite !length_map, Nat.eqb_refl. reflexivity.
Qed.

(** What [interpolate_nan] does when some sample is valid: between the
    first valid index [h] and the last one [t] every missing row is
    assigned the interpolated point. *)
Lemma interpolate_nan_shape (coordinates : list position) :
  (exists i p, nth_error coordinates i = Some (Some p)) ->
  exists h t,
    h <= t < length coordinates /\
    (exists ph, nth_error coordinates h = Some (Some ph)) /\
    (exists pt, nth_error coordinates t = Some (Some pt)) /\
    (forall j, j < h -> nth_error coordinates j = Some None) /\
    (forall j, t < j < length coordinates ->
               nth_error coordinates j = Some None) /\
    let rows := firstn (t + 1 - h) (skipn h coordinates) in
    interpolate_nan coordinates =
    Some (fold_left
            (fun result kv => set_nth result (h + fst kv) (Some (snd kv)))
            (map (fun k => (k, (interp_over px (valid_rows 0 rows) k,
                                interp_over py (valid_rows 0 rows) k,
                                interp_over pz (valid_rows 0 rows) k)))
                 (where_true (map is_nan rows)))
            coordinates).
Proof.
  intros (i & p & Hi).
  assert (Hilt : i < length coordinates)
    by (apply nth_error_Some; congruence).
  assert (Hv : exists i, 0 <= i < 0 + length coordinates /\
                         nth i (map is_nan coordinates) true = false).
  { exists i. split; [lia|].
    rewrite nans_nth, (@nth_error_nth position coordinates i _ None Hi).
    reflexivity. }
  destruct (@scan_break_seq (map is_nan coordinates) (length coordinates) 0
              None Hv) as (h & Eh & Hh & Hvh & Hpre).
  destruct (@scan_break_rev_seq (map is_nan coordinates) 0
              (length coordinates) None Hv) as (t & Et & Ht & Hvt & Hpost).
  assert (Hval : forall j, j < length coordinates ->
            nth j (map is_nan coordinates) true = false ->
            exists q, nth_error coordinates j = Some (Some q)).
  { intros j Hj Hn. rewrite nans_nth in Hn.
    rewrite (@nth_error_nth' position coordinates j None Hj).
    destruct (nth j coordinates None) as [q|]; [eauto | discriminate]. }
  assert (Hnan : forall j, j < length coordinates ->
            nth j (map is_nan coordinates) true = true ->
            nth_error coordinates j = Some None).
  { intros j Hj Hn. rewrite nans_nth in Hn.
    rewrite (@nth_error_nth' position coordinates j None Hj).
    destruct (nth j coordinates None) as [q|]; [discriminate | reflexivity]. }
  assert (Hht : h <= t).
  { destruct (Nat.le_gt_cases h t) as [|Hgt]; [assumption|].
    rewrite Hpre in Hvt by lia. discriminate. }
  exists h, t. split; [lia|].
  split; [apply Hval; [lia | exact Hvh]|].
  split; [apply Hval; [lia | exact Hvt]|].
  split; [intros j Hj; apply Hnan; [lia | apply Hpre; lia]|].
  split; [intros j Hj; apply Hnan; [lia | apply Hpost; lia]|].
  intros rows. unfold interpolate_nan.
  rewrite Eh, Et. cbn [bind]. fold rows.
  assert (Hne : valid_rows 0 rows <> []).
  { destruct (Hval h ltac:(lia) Hvh) as (q & Hq).
    assert (Hin : In (0, q) (valid_rows 0 rows)).
    { apply in_valid_rows. split; [lia|]. change (0 - 0) with 0. unfold rows.
      rewrite nth_error_firstn.
      destruct (Nat.ltb_spec 0 (t + 1 - h)); [|lia].
      rewrite nth_error_skipn, Nat.add_0_r. exact Hq. }
    intros E. rewrite E in Hin. exact Hin. }
  rewrite !np_interp_valid_rows by exact Hne. cbn [bind].
  rewrite combine_map_3. reflexivity.
Qed.

Lemma valid_or_all_nan (coordinates : list position) :
  (exists i p, nth_error coordinates i = Some (Some p)) \/
  (forall p, In p coordinates -> p = None).
Proof.
  induction coordinates as [|[q|] rest IH].
  - right. intros p [].
  - left. exists 0, q. reflexivity.
  - destruct IH as [(i & p & Hi)|Hall].
    + left. exists (S i), p. exact Hi.
    + right. intros p [<-|Hp]; [reflexivity | exact (Hall p Hp)].
Qed.

Lemma nth_error_rows (coordinates : list position) h n k :
  nth_error (firstn n (skipn h coordinates)) k
  = if k <? n then nth_error coordinates (h + k) else None.
Proof. rewrite nth_error_firstn, nth_error_skipn. reflexivity. Qed.

(** The result of [interpolate_nan], row by row. *)
Lemma interpolate_nan_pointwise (coordinates res : list position) :
  interpolate_nan coordinates = Some res ->
  exists h t,
    h <= t < length coordinates /\
    (exists ph, nth_error coordinates h = Some (Some ph)) /\
    (exists pt, nth_error coordinates t = Some (Some pt)) /\
    (forall j, j < h -> nth_error coordinates j = Some None) /\
    (forall j, t < j < length coordinates ->
               nth_error coordinates j = Some None) /\
    length res = length coordinates /\
    (forall j, nth_error coordinates j <> Some None \/ j < h \/ t < j ->
               nth_error res j = nth_error coordinates j) /\
    (forall j, h <= j <= t -> nth_error coordinates j = Some None ->
       nth_error res j =
       Some (Some (interp_point
                     (valid_rows 0 (firstn (t + 1 - h) (skipn h coordinates)))
                     (j - h)))).
Proof.
  intros Hres.
  destruct (valid_or_all_nan coordinates) as [Hv|Hall];
    [|rewrite (@NormalizerFacts.interpolate_nan_no_anchor coordinates Hall)
       in Hres;
      discriminate].
  destruct (@interpolate_nan_shape coordinates Hv)
    as (h & t & Hht & Hph & Hpt & Hpre & Hpost & Hshape).
  cbv zeta in Hshape. rewrite Hshape in Hres. injection Hres as Hres.
  exists h, t.
  split; [exact Hht|]. split; [exact Hph|]. split; [exact Hpt|].
  split; [exact Hpre|]. split; [exact Hpost|].
  set (rows := firstn (t + 1 - h) (skipn h coordinates)) in *.
  set (kvs := map (fun k => (k, (interp_over px (valid_rows 0 rows) k,
                                 interp_over py (valid_rows 0 rows) k,
                                 interp_over pz (valid_rows 0 rows) k)))
                  (where_true (map is_nan rows))) in *.
  destruct (fold_set_nth h kvs coordinates) as (Hlen & Hout & Hin).
  subst res.
  assert (Hkeys : map fst kvs = where_true (map is_nan rows)).
  { unfold kvs. rewrite map_map. simpl. apply map_id. }
  assert (Hnanrow : forall k, In k (where_true (map is_nan rows)) <->
            k < t + 1 - h /\ nth_error coordinates (h + k) = Some None).
  { intros k. rewrite in_nan_indices. unfold rows. rewrite nth_error_rows.
    destruct (Nat.ltb_spec k (t + 1 - h)); split.
    - intros H'. split; [assumption | exact H'].
    - intros [_ H']. exact H'.
    - discriminate.
    - intros [Hc _]. lia. }
  split; [exact Hlen|]. split.
  - intros j Hj. apply Hout. intros Hc.
    apply in_map_iff in Hc. destruct Hc as ([k v] & Ej & Hkv).
    simpl in Ej. subst j.
    assert (Hk : In k (where_true (map is_nan rows))).
    { rewrite <- Hkeys. apply in_map_iff. exists (k, v). split; auto. }
    apply Hnanrow in Hk. destruct Hk as [Hk1 Hk2].
    destruct Hj as [Hj|[Hj|Hj]]; [exact (Hj Hk2) | lia | lia].
  - intros j Hj Hjn.
    replace j with (h + (j - h)) at 1 by lia.
    apply Hin.
    + exact (eq_ind_r (@NoDup nat) (NoDup_where_true _) Hkeys).
    + unfold kvs. apply in_map_iff. exists (j - h). split; [reflexivity|].
      apply Hnanrow. split; [lia|].
      replace (h + (j - h)) with j by lia. exact Hjn.
    + apply Nat.le_lt_trans with t; [lia | exact (proj2 Hht)].
Qed.

(** Between two neighbouring sample points [np.interp] is the straight
    line through them. *)
Lemma interp_from_lerp (c : point3 -> Q) a b pa pb k :
  a < k < b ->
  forall V x0 p0,
    StronglySorted lt (x0 :: map fst V) ->
    In (a, pa) ((x0, p0) :: V) ->
    In (b, pb) V ->
    (forall x p, In (x, p) ((x0, p0) :: V) -> x <= a \/ b <= x) ->
    interp_from k x0 (c p0) (map fst V) (map c (map snd V))
    = lerp a b (c pa) (c pb) k.
Proof.
  intros Hk. induction V as [|[x1 p1] V IH]; intros x0 p0 Hs Ha Hb Hadj.
  - destruct Hb.
  - apply StronglySorted_inv in Hs. destruct Hs as [Hs Hlt].
    assert (Hx01 : x0 < x1) by (inversion Hlt; assumption).
    assert (Hgt : forall x p, In (x, p) V -> x1 < x).
    { intros x p Hin. apply StronglySorted_inv in Hs.
      destruct Hs as [_ Hall]. rewrite Forall_forall in Hall.
      apply Hall. apply in_map_iff. exists (x, p). split; auto. }
    simpl. destruct Ha as [Ea|Ha].
    + inversion Ea; subst x0 p0.
      assert (Eb : (b, pb) = (x1, p1)).
      { destruct Hb as [Eb|Hb]; [symmetry; exact Eb|].
        specialize (Hgt _ _ Hb).
        destruct (Hadj x1 p1 (or_intror (or_introl eq_refl))); lia. }
      inversion Eb; subst x1 p1.
      destruct (Nat.ltb_spec k b); [reflexivity | lia].
    + assert (Hx1a : x1 <= a).
      { destruct Ha as [Ea|Ha]; [inversion Ea; lia|].
        specialize (Hgt _ _ Ha). lia. }
      destruct (Nat.ltb_spec k x1); [lia|].
      apply IH.
      * exact Hs.
      * exact Ha.
      * destruct Hb as [Eb|Hb]; [inversion Eb; lia | exact Hb].
      * intros x p Hin. apply (Hadj x p). right. exact Hin.
Qed.

Lemma interp_over_lerp (c : point3 -> Q) V a b pa pb k :
  a < k < b ->
  StronglySorted lt (map fst V) ->
  In (a, pa) V -> In (b, pb) V ->
  (forall x p, In (x, p) V -> x <= a \/ b <= x) ->
  interp_over c V k = lerp a b (c pa) (c pb) k.
Proof.
  intros Hk Hs Ha Hb Hadj. destruct V as [|[x0 p0] V]; [destruct Ha|].
  simpl in Hs. unfold interp_over.
  assert (Hx0 : x0 <= a).
  { destruct Ha as [Ea|Ha]; [inversion Ea; lia|].
    apply StronglySorted_inv in Hs. destruct Hs as [_ Hall].
    rewrite Forall_forall in Hall.
    assert (x0 < a); [|lia].
    apply Hall. apply in_map_iff. exists (a, pa). split; auto. }
  destruct (Nat.leb_spec k x0); [lia|].
  apply interp_from_lerp; try assumption.
  destruct Hb as [Eb|Hb]; [inversion Eb; lia | exact Hb].
Qed.

(** A line does not depend on where the sample indices are counted from. *)
Lemma lerp_shift (h a b i : nat) (fa fb : Q) :
  h <= a -> a < b -> h <= i ->
  (lerp (a - h) (b - h) fa fb (i - h) == lerp a b fa fb i)%Q.
Proof.
  intros Ha Hab Hi. unfold lerp.
  rewrite !Nat2Z.inj_sub by lia.
  unfold Z.sub. rewrite !inject_Z_plus, !inject_Z_opp.
  assert (Hne : ~ (inject_Z (Z.of_nat b) - inject_Z (Z.of_nat a) == 0)%Q).
  { intros E. assert (Hlt : (inject_Z (Z.of_nat a) < inject_Z (Z.of_nat b))%Q).
    { rewrite <- Zlt_Qlt. lia. }
    Lqa.lra. }
  field. exact Hne.
Qed.

(** X4: the interpolation succeeds exactly when some sample of the
    trajectory is valid; without one it raises. *)
Theorem interpolate_nan_returns_iff (coordinates : list position) :
  (exists res, interpolate_nan coordinates = Some res) <->
  (exists p, In (Some p) coordinates).
Proof.
  split.
  - intros (res & Hres).
    destruct (@interpolate_nan_pointwise _ _ Hres)
      as (h & t & _ & (ph & Hph) & _).
    exists ph. exact (nth_error_In _ _ Hph).
  - intros (p & Hp). apply In_nth_error in Hp. destruct Hp as (i & Hi).
    destruct (@interpolate_nan_shape coordinates (ex_intro _ i (ex_intro _ p Hi)))
      as (h & t & _ & _ & _ & _ & _ & Hshape).
    eexists. exact Hshape.
Qed.

(** X5: the interpolation keeps the number of samples and never changes a
    valid sample. *)
Theorem interpolate_nan_keeps_valid (coordinates res : list position) :
  interpolate_nan coordinates = Some res ->
  length res = length coordinates /\
  forall i p, nth_error coordinates i = Some (Some p) ->
              nth_error res i = Some (Some p).
Proof.
  intros Hres.
  destruct (@interpolate_nan_pointwise _ _ Hres)
    as (h & t & _ & _ & _ & _ & _ & Hlen & Hkeep & _).
  split; [exact Hlen|]. intros i p Hi.
  rewrite Hkeep; [exact Hi|]. left. rewrite Hi. discriminate.
Qed.

Lemma interpolate_nan_keeps_valid_witness :
  let coordinates := [None; Some (1, 2, 3); None; Some (3, 4, 5); None]%Q in
  exists res, interpolate_nan coordinates = Some res /\
    length res = 5 /\ nth_error res 3 = Some (Some (3, 4, 5)%Q).
Proof.
  eexists. split; [reflexivity|].
  destruct (@interpolate_nan_keeps_valid
              [None; Some (1, 2, 3); None; Some (3, 4, 5); None]%Q
              _ eq_refl) as [Hl Hk].
  split; [exact Hl|]. apply Hk. reflexivity.
Defined.

(** X6: the interpolation never extrapolates: a missing sample with no
    valid sample before it, or none after it, stays missing. *)
Theorem interpolate_nan_no_extrapolation (coordinates res : list position) i :
  interpolate_nan coordinates = Some res ->
  i < length coordinates ->
  (forall j, j <= i -> nth_error coordinates j = Some None) \/
  (forall j, i <= j < length coordinates ->
             nth_error coordinates j = Some None) ->
  nth_error res i = Some None.
Proof.
  intros Hres Hi Hside.
  destruct (@interpolate_nan_pointwise _ _ Hres)
    as (h & t & Hht & (ph & Hph) & (pt & Hpt) & _ & _ & _ & Hkeep & _).
  assert (Hin : nth_error coordinates i = Some None).
  { destruct Hside as [H|H]; apply H; lia. }
  rewrite Hkeep; [exact Hin|]. right.
  destruct Hside as [H|H].
  - left. destruct (Nat.lt_ge_cases i h) as [|Hge]; [assumption|].
    rewrite (H h Hge) in Hph. discriminate.
  - right. destruct (Nat.lt_ge_cases t i) as [|Hge]; [assumption|].
    rewrite (H t (conj Hge (proj2 Hht))) in Hpt. discriminate.
Qed.

Lemma interpolate_nan_no_extrapolation_witness :
  let coordinates := [None; Some (1, 2, 3); None; Some (3, 4, 5); None]%Q in
  exists res, interpolate_nan coordinates = Some res /\
    nth_error res 4 = Some None.
Proof.
  eexists. split; [reflexivity|].
  apply (@interpolate_nan_no_extrapolation
           [None; Some (1, 2, 3); None; Some (3, 4, 5); None]%Q _ 4 eq_refl).
  - simpl. lia.
  - right. intros j Hj. simpl in Hj.
    assert (E : j = 4) by lia. subst j. reflexivity.
Defined.

(** X7: a missing sample [i] between two valid samples [a] and [b] with
    nothing valid in between receives, in each coordinate, the value at
    [i] of the straight line from sample [a] to sample [b]. *)
Theorem interpolate_nan_linear (coordinates res : list position)
        (a b i : nat) (pa pb : point3) :
  interpolate_nan coordinates = Some res ->
  nth_error coordinates a = Some (Some pa) ->
  nth_error coordinates b = Some (Some pb) ->
  (forall j, a < j < b -> nth_error coordinates j = Some None) ->
  a < i < b ->
  exists q, nth_error res i = Some (Some q) /\
    (px q == lerp a b (px pa) (px pb) i)%Q /\
    (py q == lerp a b (py pa) (py pb) i)%Q /\
    (pz q == lerp a b (pz pa) (pz pb) i)%Q.
Proof.
  intros Hres Ha Hb Hgap Hi.
  destruct (@interpolate_nan_pointwise _ _ Hres)
    as (h & t & Hht & _ & _ & Hpre & Hpost & _ & _ & Hfill).
  assert (Hbl : b < length coordinates)
    by (apply nth_error_Some; rewrite Hb; discriminate).
  assert (Hha : h <= a).
  { destruct (Nat.le_gt_cases h a) as [|Hlt]; [assumption|].
    rewrite (Hpre a Hlt) in Ha. discriminate. }
  assert (Hbt : b <= t).
  { destruct (Nat.le_gt_cases b t) as [|Hlt]; [assumption|].
    rewrite (Hpost b (conj Hlt Hbl)) in Hb. discriminate. }
  set (V := valid_rows 0 (firstn (t + 1 - h) (skipn h coordinates))) in *.
  assert (HV : forall x p, In (x, p) V <->
            x < t + 1 - h /\ nth_error coordinates (h + x) = Some (Some p)).
  { intros x p. unfold V. rewrite in_valid_rows, Nat.sub_0_r, nth_error_rows.
    destruct (Nat.ltb_spec x (t + 1 - h)); split.
    - intros [_ H']. split; [assumption | exact H'].
    - intros [_ H']. split; [lia | exact H'].
    - intros [_ H']. discriminate.
    - intros [Hc _]. lia. }
  assert (Hline : forall c, interp_over c V (i - h)
                            = lerp (a - h) (b - h) (c pa) (c pb) (i - h)).
  { intros c. apply interp_over_lerp.
    - lia.
    - apply valid_rows_sorted.
    - apply HV. split; [lia|]. replace (h + (a - h)) with a by lia. exact Ha.
    - apply HV. split; [lia|]. replace (h + (b - h)) with b by lia. exact Hb.
    - intros x p Hx. apply HV in Hx. destruct Hx as [_ Hx].
      destruct (Nat.le_gt_cases (h + x) a) as [|Hax]; [left; lia|].
      destruct (Nat.le_gt_cases b (h + x)) as [|Hxb]; [right; lia|].
      rewrite (Hgap (h + x) (conj Hax Hxb)) in Hx. discriminate. }
  eexists. split; [apply Hfill; [lia | apply Hgap; exact Hi]|].
  unfold interp_point, px at 1, py at 1, pz at 1. simpl.
  rewrite !Hline. repeat split; apply lerp_shift; lia.
Qed.

Lemma interpolate_nan_linear_witness :
  let coordinates := [Some (0, 0, 3); None; None; None; Some (4, 8, 3)]%Q in
  exists res q, interpolate_nan coordinates = Some res /\
    nth_error res 1 = Some (Some q) /\
    (px q == 1)%Q /\ (py q == 2)%Q /\ (pz q == 3)%Q.
Proof.
  destruct (@interpolate_nan_linear
              [Some (0, 0, 3); None; None; None; Some (4, 8, 3)]%Q
              _ 0 4 1 (0, 0, 3)%Q (4, 8, 3)%Q eq_refl eq_refl eq_refl)
    as (q & Hq & Hx & Hy & Hz).
  - intros j Hj.
    destruct j as [|[|[|[|j]]]]; try reflexivity; lia.
  - lia.
  - eexists. exists q. split; [reflexivity|]. split; [exact Hq|].
    split; [|split].
    + rewrite Hx. reflexivity.
    + rewrite Hy. reflexivity.
    + rewrite Hz. reflexivity.
Defined.

(** *** convert_traj_format *)

Lemma nth_error_combine {A B : Type} : forall (l1 : list A) (l2 : list B) i,
  nth_error (combine l1 l2) i =
  match nth_error l1 i, nth_error l2 i with
  | Some a, Some b => Some (a, b)
  | _, _ => None
  end.
Proof.
  induction l1 as [|a l1 IH]; intros [|b l2] [|i]; simpl; try reflexivity.
  - destruct (nth_error l1 i); reflexivity.
  - apply IH.
Qed.

Lemma emitted_valid_rows (t0 : Z) (rows : list position) :
  flat_map (fun tc : nat * position =>
              match snd tc with
              | Some coord => [((t0 + Z.of_nat (fst tc))%Z, coord)]
              | None => []
              end) (enumerate rows)
  = map (fun ip : nat * point3 => ((t0 + Z.of_nat (fst ip))%Z, snd ip))
        (valid_rows 0 rows).
Proof.
  unfold enumerate, valid_rows.
  induction (combine (seq 0 (length rows)) rows) as [|[i [q|]] l IH];
    simpl; [reflexivity | rewrite IH; reflexivity | exact IH].
Qed.

Lemma valid_mask_nth (coordinates : list position) i :
  nth i (map (fun p => negb (is_nan p)) coordinates) false = true <->
  exists p, nth_error coordinates i = Some (Some p).
Proof.
  split.
  - intros H. destruct (nth_error coordinates i) as [[p|]|] eqn:E.
    + eauto.
    + rewrite (nth_error_nth _ _ false
                 (map_nth_error (fun p => negb (is_nan p)) _ _ E)) in H.
      discriminate.
    + apply nth_error_None in E.
      rewrite nth_overflow in H by (rewrite length_map; exact E).
      discriminate.
  - intros (p & E).
    apply (nth_error_nth _ _ false
             (map_nth_error (fun p => negb (is_nan p)) _ _ E)).
Qed.

(** The output of [convert_traj_format]: the rows that the filled mask
    keeps and the interpolation made valid, with their frames. *)
Lemma convert_traj_format_rows (traj : fragment) (t0 : Z) time positions :
  convert_traj_format traj t0 = Some [(time, positions)] ->
  exists res V,
    interpolate_nan (fst traj) = Some res /\
    time = map (fun ip : nat * point3 => (t0 + Z.of_nat (fst ip))%Z) V /\
    positions = map snd V /\
    StronglySorted lt (map fst V) /\
    forall i p, In (i, p) V <->
                nth i (kept_mask traj) false = true /\
                nth_error res i = Some (Some p).
Proof.
  unfold convert_traj_format. fold (kept_mask traj).
  destruct (interpolate_nan (fst traj)) as [res|] eqn:Hres; [|discriminate].
  cbn [bind]. rewrite emitted_valid_rows, !map_map. cbn [fst snd].
  intros E. injection E as <- <-.
  eexists res, _. split; [reflexivity|]. split; [reflexivity|].
  split; [reflexivity|]. split; [apply valid_rows_sorted|].
  intros i p. rewrite in_valid_rows, Nat.sub_0_r.
  rewrite nth_error_map, nth_error_combine.
  destruct (nth_error (kept_mask traj) i) as [m|] eqn:Em.
  - rewrite (nth_error_nth _ _ false Em).
    destruct (nth_error res i) as [r|]; simpl.
    + destruct m; simpl; split.
      * intros [_ H]. split; [reflexivity | exact H].
      * intros [_ H]. split; [lia | exact H].
      * intros [_ H]. discriminate.
      * intros [H _]. discriminate.
    + split; [intros [_ H]; discriminate | intros [_ H]; discriminate].
  - simpl. apply nth_error_None in Em. rewrite (nth_overflow _ _ Em).
    split; [intros [_ H]; discriminate | intros [H _]; discriminate].
Qed.

Lemma kept_mask_fills (traj : fragment) :
  Hole.fills 5 (map (fun p => negb (is_nan p)) (fst traj)) (kept_mask traj) /\
  forall s u, 3 <= s <= 5 -> ~ Hole.hole (kept_mask traj) u s.
Proof.
  destruct (HoleFacts.fill_hole_1d_fills
              (map (fun p => negb (is_nan p)) (fst traj)) 3) as [Hf Hno].
  split; [exact Hf|]. intros s u Hs. apply Hno.
  apply HoleFacts.probe_sizes_range. lia.
Qed.

(** A gap between two valid samples is a hole of the validity mask. *)
Lemma gap_is_hole (coordinates : list position) a b pa pb :
  nth_error coordinates a = Some (Some pa) ->
  nth_error coordinates b = Some (Some pb) ->
  (forall j, a < j < b -> nth_error coordinates j = Some None) ->
  a < b ->
  Hole.hole (map (fun p => negb (is_nan p)) coordinates) a (b - a + 1).
Proof.
  intros Ha Hb Hgap Hab.
  assert (Hbl : b < length coordinates)
    by (apply nth_error_Some; rewrite Hb; discriminate).
  split; [rewrite length_map; lia|].
  split; [apply valid_mask_nth; eauto|].
  split.
  - replace (a + (b - a + 1) - 1) with b by lia. apply valid_mask_nth; eauto.
  - intros j Hj.
    destruct (nth j (map (fun p => negb (is_nan p)) coordinates) false) eqn:E;
      [|reflexivity].
    apply valid_mask_nth in E. destruct E as (p & E).
    rewrite Hgap in E by lia. discriminate.
Qed.

(** Every sample between two valid ones is valid after interpolation. *)
Lemma interpolate_nan_fills_between (coordinates res : list position)
      a b pa pb i :
  interpolate_nan coordinates = Some res ->
  nth_error coordinates a = Some (Some pa) ->
  nth_error coordinates b = Some (Some pb) ->
  a <= i <= b ->
  exists q, nth_error res i = Some (Some q).
Proof.
  intros Hres Ha Hb Hi.
  destruct (@interpolate_nan_pointwise _ _ Hres)
    as (h & t & Hht & _ & _ & Hpre & Hpost & _ & Hkeep & Hfill).
  assert (Hbl : b < length coordinates)
    by (apply nth_error_Some; rewrite Hb; discriminate).
  assert (Hha : h <= a).
  { destruct (Nat.le_gt_cases h a) as [|Hlt]; [assumption|].
    rewrite (Hpre a Hlt) in Ha. discriminate. }
  assert (Hbt : b <= t).
  { destruct (Nat.le_gt_cases b t) as [|Hlt]; [assumption|].
    rewrite (Hpost b (conj Hlt Hbl)) in Hb. discriminate. }
  assert (Hil : i < length coordinates) by lia.
  apply nth_error_Some in Hil.
  destruct (nth_error coordinates i) as [[q|]|] eqn:E; [| |congruence].
  - exists q. rewrite Hkeep; [exact E|]. left. rewrite E. discriminate.
  - eexists. apply Hfill; [lia | exact E].
Qed.

Lemma sorted_frames (t0 : Z) : forall l,
  StronglySorted lt l ->
  StronglySorted Z.lt (map (fun i => (t0 + Z.of_nat i)%Z) l).
Proof.
  induction l as [|i l IH]; intros Hs; [constructor|].
  apply StronglySorted_inv in Hs. destruct Hs as [Hs Hall].
  simpl. constructor; [exact (IH Hs)|].
  rewrite Forall_forall in *. intros z Hz. apply in_map_iff in Hz.
  destruct Hz as (j & <- & Hj). specialize (Hall j Hj). lia.
Qed.

(** X8: convert_traj_format, when it returns, returns exactly one
    trajectory; its time and position arrays have the same, non-zero
    length, and the time points increase strictly within the frames
    [t0 .. t0 + L - 1] of the fragment. *)
Theorem convert_traj_format_shape (traj : fragment) (t0 : Z) out :
  convert_traj_format traj t0 = Some out ->
  exists time positions,
    out = [(time, positions)] /\
    length time = length positions /\
    time <> [] /\
    StronglySorted Z.lt time /\
    Forall (fun t => (t0 <= t < t0 + Z.of_nat (length (fst traj)))%Z) time.
Proof.
  intros Hout.
  assert (Hone : exists time positions, out = [(time, positions)]).
  { unfold convert_traj_format in Hout.
    destruct (interpolate_nan (fst traj)); [|discriminate].
    cbn [bind] in Hout. injection Hout as <-. eauto. }
  destruct Hone as (time & positions & ->).
  exists time, positions. split; [reflexivity|].
  destruct (convert_traj_format_rows _ _ Hout)
    as (res & V & Hres & -> & -> & Hs & HV).
  destruct (@interpolate_nan_pointwise _ _ Hres)
    as (h & t & _ & (ph & Hph) & _ & _ & _ & Hlen & Hkeep & _).
  split; [rewrite !length_map; reflexivity|]. split; [|split].
  - assert (Hin : In (h, ph) V).
    { apply HV. split.
      - apply (HoleFacts.fills_mono h (proj1 (kept_mask_fills traj))).
        apply valid_mask_nth. eauto.
      - rewrite Hkeep; [exact Hph|]. left. rewrite Hph. discriminate. }
    destruct V; [destruct Hin | discriminate].
  - rewrite <- (map_map fst (fun i => (t0 + Z.of_nat i)%Z)).
    apply sorted_frames. exact Hs.
  - apply Forall_forall. intros z Hz. apply in_map_iff in Hz.
    destruct Hz as ([i p] & <- & Hip). apply HV in Hip.
    destruct Hip as [_ Hip].
    assert (Hi : i < length res) by (apply nth_error_Some; congruence).
    rewrite Hlen in Hi. simpl. lia.
Qed.

Lemma convert_traj_format_shape_witness :
  exists time positions,
    convert_traj_format ([None; Some (1, 2, 3); None; Some (3, 4, 5)]%Q, 0%Q)
                        10
    = Some [(time, positions)] /\
    length time = length positions /\ time <> [].
Proof.
  destruct (@convert_traj_format_shape
              ([None; Some (1, 2, 3); None; Some (3, 4, 5)]%Q, 0%Q) 10%Z
              _ eq_refl)
    as (time & positions & E & Hl & Hne & _).
  exists time, positions.
  split; [rewrite <- E; reflexivity|]. split; [exact Hl | exact Hne].
Defined.

(** X9: every valid sample of the fragment is in the output, unchanged, at
    frame [t0 + i] for its offset [i]. *)
Theorem convert_traj_format_keeps_valid (traj : fragment) (t0 : Z)
        time positions i p :
  convert_traj_format traj t0 = Some [(time, positions)] ->
  nth_error (fst traj) i = Some (Some p) ->
  In ((t0 + Z.of_nat i)%Z, p) (combine time positions).
Proof.
  intros Hout Hi.
  destruct (convert_traj_format_rows _ _ Hout)
    as (res & V & Hres & -> & -> & _ & HV).
  destruct (@interpolate_nan_pointwise _ _ Hres)
    as (h & t & _ & _ & _ & _ & _ & _ & Hkeep & _).
  assert (Hin : In (i, p) V).
  { apply HV. split.
    - apply (HoleFacts.fills_mono i (proj1 (kept_mask_fills traj))).
      apply valid_mask_nth. eauto.
    - rewrite Hkeep; [exact Hi|]. left. rewrite Hi. discriminate. }
  clear HV Hout. induction V as [|[j q] V IH]; [destruct Hin|].
  simpl. destruct Hin as [E|Hin].
  - left. inversion E. reflexivity.
  - right. exact (IH Hin).
Qed.

Lemma convert_traj_format_keeps_valid_witness :
  In (13%Z, (3, 4, 5)%Q)
     (combine [11; 12; 13]%Z [(1, 2, 3); (4 # 2, 6 # 2, 8 # 2); (3, 4, 5)]%Q).
Proof.
  apply (@convert_traj_format_keeps_valid
           ([None; Some (1, 2, 3); None; Some (3, 4, 5)]%Q, 0%Q) 10%Z
           _ _ 3 (3, 4, 5)%Q); reflexivity.
Defined.

Lemma in_frames (t0 : Z) (V : list (nat * point3)) i :
  In (t0 + Z.of_nat i)%Z
     (map (fun ip : nat * point3 => (t0 + Z.of_nat (fst ip))%Z) V) ->
  exists p, In (i, p) V.
Proof.
  intros Hin. apply in_map_iff in Hin. destruct Hin as ([j p] & E & Hin).
  simpl in E. assert (j = i) by lia. subst j. eauto.
Qed.

Lemma in_frame_rows (t0 : Z) (V : list (nat * point3)) i p :
  In (i, p) V ->
  In ((t0 + Z.of_nat i)%Z, p)
     (combine (map (fun ip : nat * point3 => (t0 + Z.of_nat (fst ip))%Z) V)
              (map snd V)).
Proof.
  induction V as [|[j q] V IH]; intros Hin; [destruct Hin|].
  simpl. destruct Hin as [E|Hin].
  - left. inversion E. reflexivity.
  - right. exact (IH Hin).
Qed.

(** X10: a run of four or more missing samples between two valid ones is
    not bridged: none of its frames is in the output. *)
Theorem convert_traj_format_long_gap_dropped (traj : fragment) (t0 : Z)
        time positions a b pa pb i :
  convert_traj_format traj t0 = Some [(time, positions)] ->
  nth_error (fst traj) a = Some (Some pa) ->
  nth_error (fst traj) b = Some (Some pb) ->
  (forall j, a < j < b -> nth_error (fst traj) j = Some None) ->
  a + 4 < b ->
  a < i < b ->
  ~ In (t0 + Z.of_nat i)%Z time.
Proof.
  intros Hout Ha Hb Hgap Hlong Hi Hin.
  destruct (convert_traj_format_rows _ _ Hout)
    as (res & V & Hres & -> & -> & _ & HV).
  apply in_frames in Hin. destruct Hin as (p & Hp).
  apply HV in Hp. destruct Hp as [Hm _].
  destruct (HoleFacts.fills_sound i (proj1 (kept_mask_fills traj)) Hm)
    as [Hv|(u & s & Hs & (_ & Hu & He & Hmid) & Hui)].
  - apply valid_mask_nth in Hv. destruct Hv as (q & Hq).
    rewrite Hgap in Hq by exact Hi. discriminate.
  - assert (Hva : nth a (map (fun p => negb (is_nan p)) (fst traj)) false
                  = true) by (apply valid_mask_nth; eauto).
    assert (Hvb : nth b (map (fun p => negb (is_nan p)) (fst traj)) false
                  = true) by (apply valid_mask_nth; eauto).
    assert (Hnot : forall j, a < j < b ->
              nth j (map (fun p => negb (is_nan p)) (fst traj)) false
              = false).
    { intros j Hj.
      destruct (nth j (map (fun p => negb (is_nan p)) (fst traj)) false)
        eqn:E; [|reflexivity].
      apply valid_mask_nth in E. destruct E as (q & Hq).
      rewrite Hgap in Hq by exact Hj. discriminate. }
    assert (Eu : u = a).
    { destruct (Nat.lt_trichotomy u a) as [Hlt|[E|Hgt]]; [|exact E|].
      - rewrite Hmid in Hva by lia. discriminate.
      - rewrite Hnot in Hu by lia. discriminate. }
    assert (Ee : u + s - 1 = b).
    { destruct (Nat.lt_trichotomy (u + s - 1) b) as [Hlt|[E|Hgt]]; [|exact E|].
      - rewrite Hnot in He by lia. discriminate.
      - rewrite Hmid in Hvb by lia. discriminate. }
    lia.
Qed.

Lemma convert_traj_format_long_gap_dropped_witness :
  convert_traj_format
    ([Some (0, 0, 0); None; None; None; None; Some (5, 5, 5)]%Q, 0%Q) 10
  = Some [([10; 15]%Z, [(0, 0, 0); (5, 5, 5)]%Q)] /\
  ~ In 12%Z [10; 15]%Z.
Proof.
  split; [reflexivity|].
  apply (@convert_traj_format_long_gap_dropped
           ([Some (0, 0, 0); None; None; None; None; Some (5, 5, 5)]%Q, 0%Q)
           10%Z [10; 15]%Z [(0, 0, 0); (5, 5, 5)]%Q
           0 5 (0, 0, 0)%Q (5, 5, 5)%Q 2); try reflexivity; try lia.
  intros j Hj. destruct j as [|[|[|[|[|j]]]]]; try reflexivity; lia.
Defined.

(** X11: a run of at most three missing samples between two valid ones is
    bridged: each of its frames is in the output, with the position that
    interpolate_nan computed for it. *)
Theorem convert_traj_format_short_gap_bridged (traj : fragment) (t0 : Z)
        time positions a b pa pb i :
  convert_traj_format traj t0 = Some [(time, positions)] ->
  nth_error (fst traj) a = Some (Some pa) ->
  nth_error (fst traj) b = Some (Some pb) ->
  (forall j, a < j < b -> nth_error (fst traj) j = Some None) ->
  b <= a + 4 ->
  a < i < b ->
  exists res q,
    interpolate_nan (fst traj) = Some res /\
    nth_error res i = Some (Some q) /\
    In ((t0 + Z.of_nat i)%Z, q) (combine time positions).
Proof.
  intros Hout Ha Hb Hgap Hshort Hi.
  destruct (convert_traj_format_rows _ _ Hout)
    as (res & V & Hres & -> & -> & _ & HV).
  destruct (@interpolate_nan_fills_between _ _ a b pa pb i Hres Ha Hb)
    as (q & Hq); [lia|].
  exists res, q. split; [exact Hres|]. split; [exact Hq|].
  apply in_frame_rows. apply HV. split; [|exact Hq].
  destruct (kept_mask_fills traj) as [Hf Hno].
  assert (Hh : Hole.hole (map (fun p => negb (is_nan p)) (fst traj))
                         a (b - a + 1)).
  { apply (gap_is_hole _ Ha Hb Hgap). lia. }
  destruct (@HoleFacts.fills_hole_fate _ _ _ a (b - a + 1) Hf) as [Hc|Hall];
    [lia | exact Hh | | apply Hall; lia].
  exfalso. apply (Hno (b - a + 1) a); [lia | exact Hc].
Qed.

Lemma convert_traj_format_short_gap_bridged_witness :
  exists res q,
    interpolate_nan [Some (0, 0, 0); None; None; None; Some (4, 4, 4)]%Q
    = Some res /\
    nth_error res 2 = Some (Some q) /\
    In (12%Z, q)
       (combine [10; 11; 12; 13; 14]%Z
                [(0, 0, 0); (4 # 4, 4 # 4, 4 # 4); (8 # 4, 8 # 4, 8 # 4);
                 (12 # 4, 12 # 4, 12 # 4); (4, 4, 4)]%Q).
Proof.
  apply (@convert_traj_format_short_gap_bridged
           ([Some (0, 0, 0); None; None; None; Some (4, 4, 4)]%Q, 0%Q)
           10%Z _ _ 0 4 (0, 0, 0)%Q (4, 4, 4)%Q 2);
    try reflexivity; try lia.
  intros j Hj. destruct j as [|[|[|[|j]]]]; try reflexivity; lia.
Defined.

Lemma combine_map_same {A B C : Type} (f : A -> B) (g : A -> C) (l : list A) :
  combine (map f l) (map g l) = map (fun x => (f x, g x)) l.
Proof. induction l as [|x l IH]; simpl; [reflexivity | rewrite IH; reflexivity]. Qed.

Lemma valid_rows_all_valid : forall (ps : list point3) s,
  valid_rows s (map Some ps) = combine (seq s (length ps)) ps.
Proof.
  unfold valid_rows. induction ps as [|p ps IH]; intros s; [reflexivity|].
  simpl. f_equal. specialize (IH (S s)). rewrite length_map in *. exact IH.
Qed.

Lemma map_fst_combine_seq {A : Type} (f : nat -> Z) : forall (ps : list A) s,
  map (fun ip : nat * A => f (fst ip)) (combine (seq s (length ps)) ps)
  = map f (seq s (length ps)).
Proof. induction ps as [|p ps IH]; intros s; simpl; [reflexivity | rewrite IH; reflexivity]. Qed.

Lemma map_snd_combine_seq {A : Type} : forall (ps : list A) s,
  map snd (combine (seq s (length ps)) ps) = ps.
Proof. induction ps as [|p ps IH]; intros s; simpl; [reflexivity | rewrite IH; reflexivity]. Qed.

(** A trajectory without missing samples is its own interpolation. *)
Lemma interpolate_nan_all_valid (ps : list point3) :
  ps <> [] -> interpolate_nan (map Some ps) = Some (map Some ps).
Proof.
  intros Hne. destruct ps as [|p0 ps]; [congruence|].
  destruct (@interpolate_nan_shape (map Some (p0 :: ps))
              (ex_intro _ 0 (ex_intro _ p0 eq_refl)))
    as (h & t & _ & _ & _ & _ & _ & Hshape).
  cbv zeta in Hshape. rewrite Hshape.
  rewrite (@where_true_none (map is_nan _)); [reflexivity|].
  intros b Hb. apply in_map_iff in Hb. destruct Hb as (r & <- & Hr).
  apply In_firstn, In_skipn in Hr. apply in_map_iff in Hr.
  destruct Hr as (q & <- & _). reflexivity.
Qed.

Lemma kept_mask_all_valid (ps : list point3) (e : Q) :
  kept_mask (map Some ps, e) = map (fun _ => true) ps.
Proof.
  destruct (kept_mask_fills (map Some ps, e)) as [Hf _].
  pose proof (HoleFacts.fills_length Hf) as Hl.
  simpl in Hf, Hl. rewrite !length_map in Hl.
  apply nth_ext with (d := false) (d' := false).
  - rewrite length_map. exact Hl.
  - intros i Hi. rewrite Hl in Hi.
    assert (Ht : nth i (map (fun _ : point3 => true) ps) false = true).
    { destruct (nth_error ps i) as [q|] eqn:E.
      - exact (nth_error_nth _ _ false (map_nth_error (fun _ => true) _ _ E)).
      - apply nth_error_None in E. lia. }
    rewrite Ht. apply (HoleFacts.fills_mono i Hf).
    apply valid_mask_nth.
    destruct (nth_error ps i) as [q|] eqn:E.
    + exists q. apply map_nth_error. exact E.
    + apply nth_error_None in E. lia.
Qed.

(** X12: a fragment without missing samples is returned whole: its [L]
    positions in order, at the consecutive frames [t0 .. t0 + L - 1]. *)
Theorem convert_traj_format_all_valid (ps : list point3) (e : Q) (t0 : Z) :
  ps <> [] ->
  convert_traj_format (map Some ps, e) t0
  = Some [(map (fun i => (t0 + Z.of_nat i)%Z) (seq 0 (length ps)), ps)].
Proof.
  intros Hne. unfold convert_traj_format.
  fold (kept_mask (map Some ps, e)).
  rewrite kept_mask_all_valid. cbn [fst].
  rewrite (interpolate_nan_all_valid Hne). cbn [bind].
  rewrite emitted_valid_rows, combine_map_same, !map_map. cbn [fst snd].
  change (map (fun x : point3 => Some x) ps) with (map Some ps).
  rewrite valid_rows_all_valid.
  rewrite (map_fst_combine_seq (fun i => (t0 + Z.of_nat i)%Z)).
  rewrite map_snd_combine_seq. reflexivity.
Qed.

Lemma convert_traj_format_all_valid_witness :
  convert_traj_format ([Some (1, 2, 3); Some (4, 5, 6)]%Q, 0%Q) 7
  = Some [([7; 8]%Z, [(1, 2, 3); (4, 5, 6)]%Q)].
Proof.
  apply (@convert_traj_format_all_valid [(1, 2, 3); (4, 5, 6)]%Q 0%Q 7%Z).
  discriminate.
Defined.

End NormalizerExtras.


(** ** get_valid_ctraj: the flag that is never set back *)

Module TankExtras.
Import TankFacts.

Lemma passing_prefix_cut ok : forall pre t post,
  ok t = false ->
  passing_prefix ok (pre ++ t :: post) = passing_prefix ok pre.
Proof.
  induction pre as [|x pre IH]; intros t post Ht; simpl.
  - rewrite Ht. reflexivity.
  - destruct (ok x); [rewrite (IH _ _ Ht)|]; reflexivity.
Qed.

Lemma passing_prefix_all ok : forall l,
  passing_prefix ok l = l <-> forallb ok l = true.
Proof.
  induction l as [|x l IH]; simpl; [tauto|].
  destruct (ok x); simpl.
  - rewrite <- IH. split; [intros E; inversion E; congruence | intros ->; reflexivity].
  - split; discriminate.
Qed.

(** X13: once a fragment fails the test, the fragments after it play no
    part: the result is that of the fragments before it alone. *)
Theorem get_valid_ctraj_stops_at_failure
    (pre : list fragment) (t : fragment) (post : list fragment)
    (z_min z_max : Q) :
  in_tank z_min z_max t = false ->
  get_valid_ctraj (pre ++ t :: post) z_min z_max
  = get_valid_ctraj pre z_min z_max.
Proof.
  intros Ht. rewrite !get_valid_ctraj_prefix.
  apply passing_prefix_cut. exact Ht.
Qed.

Lemma get_valid_ctraj_stops_at_failure_witness :
  let good : fragment := ([Some (0, 0, 1)%Q; Some (0, 0, 2)%Q], 0%Q) in
  let bad : fragment := ([Some (0, 0, 9)%Q; Some (0, 0, 9)%Q], 0%Q) in
  get_valid_ctraj ([good] ++ bad :: [good; good]) 0 5
  = get_valid_ctraj [good] 0 5.
Proof.
  intros good bad.
  apply (@get_valid_ctraj_stops_at_failure [good] bad [good; good] 0%Q 5%Q).
  reflexivity.
Defined.

(** X14: get_valid_ctraj returns a prefix of its input, and the whole
    input exactly when every fragment passes the test. *)
Theorem get_valid_ctraj_prefix_of_input
    (trajectories : list fragment) (z_min z_max : Q) :
  (exists rest,
     trajectories = get_valid_ctraj trajectories z_min z_max ++ rest) /\
  (get_valid_ctraj trajectories z_min z_max = trajectories <->
   forallb (in_tank z_min z_max) trajectories = true).
Proof.
  rewrite get_valid_ctraj_prefix. split; [|apply passing_prefix_all].
  induction trajectories as [|t l IH]; simpl; [exists []; reflexivity|].
  destruct (in_tank z_min z_max t).
  - destruct IH as (rest & E). exists rest. simpl. rewrite <- E. reflexivity.
  - exists (t :: l). reflexivity.
Qed.

End TankExtras.


(** ** get_overlap_pairs: the threshold and the shapes *)

Module OverlapExtras.
Import ArrayFacts OverlapFacts.

Lemma nth_map_map {A : Type} (f : A -> bool) (m : list (list A)) d i j :
  nth j (nth i (map (map f) m) []) false = true <->
  i < length m /\ j < length (nth i m []) /\ f (nth j (nth i m []) d) = true.
Proof.
  destruct (Nat.lt_ge_cases i (length m)) as [Hi|Hi].
  - rewrite (nth_map_in (map f) m [] [] Hi).
    destruct (Nat.lt_ge_cases j (length (nth i m []))) as [Hj|Hj].
    + rewrite (nth_map_in f (nth i m []) d false Hj). tauto.
    + rewrite nth_overflow by (rewrite length_map; exact Hj).
      split; [discriminate | lia].
  - rewrite (nth_overflow (map (map f) m)) by (rewrite length_map; exact Hi).
    destruct j; simpl; split; try discriminate; lia.
Qed.

(** The pairs are read off one matrix of squared distances, which does not
    depend on [num]. *)
Lemma get_overlap_pairs_matrix trajs num rtol pairs :
  get_overlap_pairs trajs num rtol = Some pairs ->
  exists dist_mat,
    mapM (fun t1 => mapM (fun t2 =>
            dist_row (length (fst (hd ([], 0%Q) trajs))) (fst t1) (fst t2))
          trajs) trajs = Some dist_mat /\
    forall i j, In (i, j) pairs <->
      i < j /\ i < length dist_mat /\ j < length (nth i dist_mat []) /\
      (num <= Z.of_nat (count_lt (nth j (nth i dist_mat []) [])
                                 (rtol * rtol)))%Z.
Proof.
  unfold get_overlap_pairs. destruct trajs as [|t0 rest]; [discriminate|].
  cbn [hd].
  match goal with
  | |- context [mapM ?f (t0 :: rest)] =>
      destruct (mapM f (t0 :: rest)) as [dist_mat|]; [|discriminate]
  end.
  cbn [bind]. intros E. injection E as <-.
  exists dist_mat. split; [reflexivity|]. intros i j.
  rewrite in_nonzero, triu1_nth, andb_true_iff, Nat.ltb_lt.
  rewrite (nth_map_map _ dist_mat []), Z.leb_le. tauto.
Qed.

(** X15: raising the threshold [num] can only remove pairs. *)
Theorem get_overlap_pairs_monotone
    (trajs : list fragment) (num num' : Z) (rtol : Q)
    (pairs pairs' : list (nat * nat)) :
  (num <= num')%Z ->
  get_overlap_pairs trajs num rtol = Some pairs ->
  get_overlap_pairs trajs num' rtol = Some pairs' ->
  incl pairs' pairs.
Proof.
  intros Hle H H'.
  destruct (get_overlap_pairs_matrix _ _ _ H) as (dm & Edm & Hp).
  destruct (get_overlap_pairs_matrix _ _ _ H') as (dm' & Edm' & Hp').
  rewrite Edm in Edm'. injection Edm' as <-.
  intros [i j] Hin. apply Hp. apply Hp' in Hin.
  destruct Hin as (Hij & Hi & Hj & Hc). repeat split; try assumption. lia.
Qed.

Lemma get_overlap_pairs_monotone_witness :
  let A : fragment := ([Some (0, 0, 0)%Q; Some (1, 0, 0)%Q], 1%Q) in
  let B : fragment := ([Some (0, 0, 0)%Q; Some (9, 0, 0)%Q], 2%Q) in
  get_overlap_pairs [A; B] 1 1 = Some [(0, 1)] /\
  get_overlap_pairs [A; B] 2 1 = Some [] /\
  incl (@nil (nat * nat)) [(0, 1)].
Proof.
  intros A B. split; [reflexivity|]. split; [reflexivity|].
  apply (@get_overlap_pairs_monotone [A; B] 1%Z 2%Z 1%Q [(0, 1)] []);
    [lia | reflexivity | reflexivity].
Defined.

(** X16: two fragments of different lengths, neither of length one,
    cannot be subtracted: get_overlap_pairs raises. *)
Theorem get_overlap_pairs_length_mismatch
    (trajs : list fragment) (num : Z) (rtol : Q) (a b : fragment) :
  In a trajs -> In b trajs ->
  length (fst a) <> length (fst b) ->
  length (fst a) <> 1 -> length (fst b) <> 1 ->
  get_overlap_pairs trajs num rtol = None.
Proof.
  intros Ha Hb Hne Ha1 Hb1.
  destruct (get_overlap_pairs trajs num rtol) as [pairs|] eqn:E;
    [|reflexivity].
  exfalso.
  destruct (get_overlap_pairs_matrix _ _ _ E) as (dm & Edm & _).
  apply In_nth_error in Ha. destruct Ha as (i & Hi).
  apply In_nth_error in Hb. destruct Hb as (j & Hj).
  destruct (mapM_Some _ _ Edm) as [_ Hrow].
  destruct (Hrow i a Hi) as (row & Erow & _).
  destruct (mapM_Some _ _ Erow) as [_ Hcell].
  destruct (Hcell j b Hj) as (d & Ed & _).
  unfold dist_row, broadcast2 in Ed.
  destruct (Nat.eqb_spec (length (fst a)) (length (fst b))); [contradiction|].
  destruct (fst a) as [|x [|x' xs]]; destruct (fst b) as [|y [|y' ys]];
    simpl in *; try discriminate; congruence.
Qed.

Lemma get_overlap_pairs_length_mismatch_witness :
  let A : fragment := ([Some (0, 0, 0)%Q; Some (1, 0, 0)%Q], 1%Q) in
  let B : fragment :=
    ([Some (0, 0, 0)%Q; Some (1, 0, 0)%Q; Some (2, 0, 0)%Q], 2%Q) in
  get_overlap_pairs [A; B] 1 1 = None.
Proof.
  intros A B.
  apply (@get_overlap_pairs_length_mismatch [A; B] 1%Z 1%Q A B);
    simpl; auto; lia.
Defined.

End OverlapExtras.


(** ** remove_spatial_overlap and post_process_ctraj *)

Module PostProcessExtras.
Import ArrayFacts TankFacts SpatialFacts ResolverFacts NormalizerExtras.

Lemma choose_best_member (filtered : list fragment) p t :
  choose_best filtered p = Some t -> In t filtered.
Proof.
  unfold choose_best.
  destruct (mapM _ p) as [errs|]; [|discriminate]. cbn [bind].
  destruct (argmin errs) as [b|]; [|discriminate]. cbn [bind].
  destruct (nth_error p b) as [k|]; [|discriminate]. cbn [bind].
  apply nth_error_In.
Qed.

Lemma remove_spatial_overlap_kept
    (join_pairs : list (nat * nat) -> list (list nat))
    (trajectories : list fragment) (ntol : Z) (rtol : Q)
    (out : list fragment) :
  remove_spatial_overlap join_pairs trajectories ntol rtol = Some out ->
  incl out (filter (fun t => 1 <? valid_count t) trajectories).
Proof.
  unfold remove_spatial_overlap.
  set (filtered := filter (fun t => 1 <? valid_count t) trajectories).
  destruct filtered as [|f0 rest] eqn:Ef.
  - intros E. injection E as <-. apply incl_refl.
  - rewrite <- Ef. clear Ef.
    destruct (get_overlap_pairs filtered ntol rtol) as [op|]; [|discriminate].
    cbn [bind]. destruct (join_pairs op) as [|g jop].
    + intros E. injection E as <-. apply incl_refl.
    + destruct (mapM (nth_error filtered) _) as [singles|] eqn:Es;
        [|discriminate].
      cbn [bind].
      destruct (mapM (choose_best filtered) (g :: jop)) as [chosen|] eqn:Ec;
        [|discriminate].
      cbn [bind]. intros E. injection E as <-. intros t Hin.
      apply in_app_or in Hin. destruct Hin as [Hin|Hin].
      * destruct (@mapM_In _ _ _ _ _ _ Es Hin) as (i & _ & Hi).
        exact (nth_error_In _ _ Hi).
      * destruct (@mapM_In _ _ _ _ _ _ Ec Hin) as (p & _ & Hp).
        exact (@choose_best_member _ _ _ Hp).
Qed.

(** X17: whatever groups join_pairs forms, remove_spatial_overlap returns
    only fragments of its input that have at least two valid samples. *)
Theorem remove_spatial_overlap_members
    (join_pairs : list (nat * nat) -> list (list nat))
    (trajectories : list fragment) (ntol : Z) (rtol : Q)
    (out : list fragment) (t : fragment) :
  remove_spatial_overlap join_pairs trajectories ntol rtol = Some out ->
  In t out ->
  In t trajectories /\ 2 <= valid_count t.
Proof.
  intros Hout Ht. apply (remove_spatial_overlap_kept _ _ _ _ Hout) in Ht.
  apply filter_In in Ht. destruct Ht as [Hin Hc].
  apply Nat.ltb_lt in Hc. split; [exact Hin | lia].
Qed.

Lemma remove_spatial_overlap_members_witness :
  let A : fragment := ([Some (0, 0, 0)%Q; Some (1, 0, 0)%Q], 3%Q) in
  let B : fragment := ([Some (0, 0, 0)%Q; Some (1, 0, 0)%Q], 2%Q) in
  let D : fragment := ([Some (7, 0, 0)%Q; None], 1%Q) in
  remove_spatial_overlap join_pairs [A; D; B] 2 1 = Some [B] /\
  In B [A; D; B] /\ 2 <= valid_count B.
Proof.
  intros A B D. split; [reflexivity|].
  apply (@remove_spatial_overlap_members join_pairs [A; D; B] 2%Z 1%Q [B] B);
    [reflexivity | left; reflexivity].
Defined.

Lemma mapM_app {A B : Type} (f : A -> option B) : forall l1 l2,
  mapM f (l1 ++ l2) =
  (xs <- mapM f l1 ;; ys <- mapM f l2 ;; Some (xs ++ ys)).
Proof.
  induction l1 as [|x l1 IH]; intros l2; simpl.
  - destruct (mapM f l2); reflexivity.
  - destruct (f x) as [y|]; [|reflexivity]. cbn [bind].
    rewrite IH. destruct (mapM f l1); [|reflexivity]. cbn [bind].
    destruct (mapM f l2); reflexivity.
Qed.

Lemma mapM_bind {A B C : Type} (f : A -> option B) (g : B -> option C) :
  forall l,
  mapM (fun x => y <- f x ;; g y) l = (ys <- mapM f l ;; mapM g ys).
Proof.
  induction l as [|x l IH]; simpl; [reflexivity|].
  rewrite IH. destruct (f x) as [y|]; [|reflexivity]. cbn [bind].
  destruct (mapM f l) as [ys|]; cbn [bind].
  - reflexivity.
  - destruct (g y); reflexivity.
Qed.

Lemma mapM_map {A B C : Type} (h : A -> B) (g : B -> option C) : forall l,
  mapM g (map h l) = mapM (fun x => g (h x)) l.
Proof.
  induction l as [|x l IH]; simpl; [reflexivity|]. rewrite IH. reflexivity.
Qed.

(** The fragments that are in no group, by index and by position. *)
Lemma singles_by_index (filtered : list fragment) (nu : list nat) :
  mapM (nth_error filtered) (setdiff_arange (length filtered) nu)
  = Some (map snd
            (filter (fun it : nat * fragment =>
                       negb (existsb (Nat.eqb (fst it)) nu))
                    (enumerate filtered))).
Proof.
  unfold setdiff_arange, enumerate.
  assert (H : forall (l pre : list fragment),
    mapM (nth_error (pre ++ l))
         (filter (fun i => negb (existsb (Nat.eqb i) nu))
                 (seq (length pre) (length l)))
    = Some (map snd
              (filter (fun it : nat * fragment =>
                         negb (existsb (Nat.eqb (fst it)) nu))
                      (combine (seq (length pre) (length l)) l)))).
  { induction l as [|x l IH]; intros pre; [reflexivity|].
    specialize (IH (pre ++ [x])).
    rewrite <- app_assoc, length_app, Nat.add_1_r in IH. simpl in IH.
    simpl. destruct (negb (existsb (Nat.eqb (length pre)) nu)); simpl.
    - rewrite nth_error_app2, Nat.sub_diag by lia. simpl.
      rewrite IH. reflexivity.
    - exact IH. }
  exact (H filtered []).
Qed.

Lemma valid_z_count (t : fragment) : length (valid_z t) = valid_count t.
Proof.
  unfold valid_z, valid_count.
  induction (fst t) as [|[[[x y] z]|] l IH]; simpl; [reflexivity | | exact IH].
  rewrite IH. reflexivity.
Qed.

Lemma filter_all {A : Type} (f : A -> bool) : forall l,
  Forall (fun x => f x = true) l -> filter f l = l.
Proof.
  induction l as [|x l IH]; intros H; [reflexivity|].
  inversion H; subst. simpl. rewrite H2, IH by assumption. reflexivity.
Qed.

(** What get_valid_ctraj keeps passes the first filter of
    remove_spatial_overlap. *)
Lemma get_valid_ctraj_two_valid trajs z_min z_max :
  filter (fun t => 1 <? valid_count t) (get_valid_ctraj trajs z_min z_max)
  = get_valid_ctraj trajs z_min z_max.
Proof.
  apply filter_all. rewrite get_valid_ctraj_prefix.
  eapply Forall_impl; [|apply passing_prefix_Forall].
  intros t Ht. unfold in_tank in Ht. cbv zeta in Ht.
  apply andb_prop in Ht. destruct Ht as [_ Ht].
  rewrite valid_z_count in Ht. exact Ht.
Qed.

(** X18: post_process_ctraj is the composition of its three steps:
    get_valid_ctraj, then remove_spatial_overlap, then convert_traj_format
    on every fragment that is left, the results concatenated in order. *)
Theorem post_process_ctraj_composes
    (join_pairs : list (nat * nat) -> list (list nat))
    (trajs_3d : list fragment) (t0 : Z) (z_min z_max : Q)
    (num : Z) (rtol : Q) :
  post_process_ctraj join_pairs trajs_3d t0 z_min z_max num rtol
  = (kept <- remove_spatial_overlap join_pairs
               (get_valid_ctraj trajs_3d z_min z_max) num rtol ;;
     converted <- mapM (fun t => convert_traj_format t t0) kept ;;
     Some (concat converted)).
Proof.
  unfold post_process_ctraj, remove_spatial_overlap.
  rewrite get_valid_ctraj_two_valid.
  set (filtered := get_valid_ctraj trajs_3d z_min z_max).
  destruct filtered as [|f0 rest] eqn:Ef; [reflexivity|].
  rewrite <- Ef. clear Ef.
  destruct (get_overlap_pairs filtered num rtol) as [op|]; [|reflexivity].
  cbn [bind]. destruct (join_pairs op) as [|g jop]; [reflexivity|].
  rewrite singles_by_index. cbn [bind].
  rewrite mapM_bind.
  destruct (mapM (choose_best filtered) (g :: jop)) as [chosen|];
    cbn [bind].
  - rewrite mapM_app, mapM_map.
    destruct (mapM _ (filter _ (enumerate filtered))) as [xs|];
      [|reflexivity].
    cbn [bind]. destruct (mapM _ chosen) as [ys|]; [|reflexivity].
    cbn [bind]. rewrite concat_app. reflexivity.
  - destruct (mapM _ (filter _ (enumerate filtered))); reflexivity.
Qed.

Lemma one_valid_sample : forall l : list position,
  1 <= length (filter (fun p : position =>
                         match p with Some _ => true | None => false end) l) ->
  exists j q, nth_error l j = Some (Some q).
Proof.
  induction l as [|[p|] l IH]; simpl; intros H.
  - lia.
  - exists 0, p. reflexivity.
  - destruct (IH H) as (j & q & Hj). exists (S j), q. exact Hj.
Qed.

Lemma two_valid_samples (t : fragment) :
  2 <= valid_count t ->
  exists i j p q, i < j /\ nth_error (fst t) i = Some (Some p) /\
                  nth_error (fst t) j = Some (Some q).
Proof.
  unfold valid_count. induction (fst t) as [|[p|] l IH]; simpl; intros H.
  - lia.
  - destruct (@one_valid_sample l ltac:(lia)) as (j & q & Hj).
    exists 0, (S j), p, q. split; [lia|]. split; [reflexivity | exact Hj].
  - destruct (IH H) as (i & j & p & q & Hij & Hi & Hj).
    exists (S i), (S j), p, q. split; [lia|]. split; assumption.
Qed.

Lemma two_members {A : Type} (l : list A) a b :
  In a l -> In b l -> a <> b -> 2 <= length l.
Proof.
  destruct l as [|x [|y l]]; simpl; intros Ha Hb Hne; try lia.
  destruct Ha as [Ea|[]]. destruct Hb as [Eb|[]]. congruence.
Qed.

(** A fragment with two valid samples converts, to a trajectory of at
    least two time points. *)
Lemma convert_two_points (traj : fragment) (t0 : Z) :
  2 <= valid_count traj ->
  exists time positions,
    convert_traj_format traj t0 = Some [(time, positions)] /\
    2 <= length time /\ length time = length positions /\
    StronglySorted Z.lt time.
Proof.
  intros H2.
  destruct (@two_valid_samples _ H2) as (i & j & p & q & Hij & Hi & Hj).
  destruct (@interpolate_nan_shape (fst traj)
              (ex_intro _ i (ex_intro _ p Hi)))
    as (h & t & _ & _ & _ & _ & _ & Hshape).
  cbv zeta in Hshape.
  assert (Hout : exists time positions,
            convert_traj_format traj t0 = Some [(time, positions)]).
  { unfold convert_traj_format. rewrite Hshape. cbn [bind]. eauto. }
  destruct Hout as (time & positions & Hout).
  exists time, positions. split; [exact Hout|].
  destruct (convert_traj_format_rows _ _ Hout)
    as (res & V & Hres & -> & -> & Hs & HV).
  destruct (@interpolate_nan_pointwise _ _ Hres)
    as (h' & t' & _ & _ & _ & _ & _ & _ & Hkeep & _).
  assert (Hin : forall k r, nth_error (fst traj) k = Some (Some r) ->
                            In (k, r) V).
  { intros k r Hk. apply HV. split.
    - apply (HoleFacts.fills_mono k (proj1 (kept_mask_fills traj))).
      apply valid_mask_nth. eauto.
    - rewrite Hkeep; [exact Hk|]. left. rewrite Hk. discriminate. }
  rewrite !length_map. split; [|split; [reflexivity|]].
  - apply (two_members V (Hin i p Hi) (Hin j q Hj)).
    intros E. inversion E. lia.
  - rewrite <- (map_map fst (fun i => (t0 + Z.of_nat i)%Z)).
    apply sorted_frames. exact Hs.
Qed.

(** Every trajectory of the result is the conversion of a fragment that
    get_valid_ctraj kept. *)
Lemma post_process_ctraj_parts
    (join_pairs : list (nat * nat) -> list (list nat))
    (trajs_3d : list fragment) (t0 : Z) (z_min z_max : Q)
    (num : Z) (rtol : Q) out tp :
  post_process_ctraj join_pairs trajs_3d t0 z_min z_max num rtol = Some out ->
  In tp out ->
  exists t, In t (get_valid_ctraj trajs_3d z_min z_max) /\
            2 <= valid_count t /\
            convert_traj_format t t0 = Some [tp].
Proof.
  unfold post_process_ctraj.
  set (filtered := get_valid_ctraj trajs_3d z_min z_max).
  assert (Hconv : forall t part,
            In t filtered -> convert_traj_format t t0 = Some part ->
            In tp part ->
            exists t, In t filtered /\ 2 <= valid_count t /\
                      convert_traj_format t t0 = Some [tp]).
  { intros t part Ht Epart Htp. exists t. split; [exact Ht|].
    assert (H2 : 2 <= valid_count t).
    { unfold filtered in Ht. rewrite <- get_valid_ctraj_two_valid in Ht.
      apply filter_In in Ht. destruct Ht as [_ Hc].
      apply Nat.ltb_lt in Hc. lia. }
    split; [exact H2|].
    destruct (@convert_two_points t t0 H2) as (time & positions & Eo & _).
    rewrite Eo in Epart. injection Epart as <-.
    destruct Htp as [<-|[]]. exact Eo. }
  destruct filtered as [|f0 rest] eqn:Ef.
  - intros E. injection E as <-. intros [].
  - rewrite <- Ef in *. clear Ef.
    destruct (get_overlap_pairs filtered num rtol) as [op|]; [|discriminate].
    cbn [bind]. destruct (join_pairs op) as [|g jop].
    + destruct (mapM _ filtered) as [converted|] eqn:Ec; [|discriminate].
      cbn [bind]. intros E. injection E as <-. intros Htp.
      apply in_concat in Htp. destruct Htp as (part & Hpart & Htp).
      destruct (@mapM_In _ _ _ _ _ _ Ec Hpart) as (t & Ht & Et).
      exact (Hconv t part Ht Et Htp).
    + destruct (mapM _ (filter _ (enumerate filtered))) as [singles|] eqn:Es;
        [|discriminate].
      cbn [bind].
      destruct (mapM _ (g :: jop)) as [chosen|] eqn:Ec; [|discriminate].
      cbn [bind]. intros E. injection E as <-. intros Htp.
      apply in_app_or in Htp. destruct Htp as [Htp|Htp];
        apply in_concat in Htp; destruct Htp as (part & Hpart & Htp).
      * destruct (@mapM_In _ _ _ _ _ _ Es Hpart) as ([i t] & Hit & Et).
        apply filter_In in Hit. destruct Hit as [Hit _].
        apply in_enumerate in Hit. simpl in Et.
        exact (Hconv t part (nth_error_In _ _ Hit) Et Htp).
      * destruct (@mapM_In _ _ _ _ _ _ Ec Hpart) as (p & _ & Ep).
        cbv beta in Ep.
        destruct (choose_best filtered p) as [t|] eqn:Eb; [|discriminate].
        cbn [bind] in Ep.
        exact (Hconv t part (@choose_best_member _ _ _ Eb) Ep Htp).
Qed.

(** X19: every trajectory post_process_ctraj returns has at least two
    time points, as many positions, and strictly increasing times. *)
Theorem post_process_ctraj_two_points
    (join_pairs : list (nat * nat) -> list (list nat))
    (trajs_3d : list fragment) (t0 : Z) (z_min z_max : Q)
    (num : Z) (rtol : Q) out :
  post_process_ctraj join_pairs trajs_3d t0 z_min z_max num rtol = Some out ->
  Forall (fun tp : list Z * list point3 =>
            2 <= length (fst tp) /\ length (fst tp) = length (snd tp) /\
            StronglySorted Z.lt (fst tp)) out.
Proof.
  intros Hout. apply Forall_forall. intros tp Htp.
  destruct (post_process_ctraj_parts _ _ _ _ _ _ _ _ Hout Htp)
    as (t & _ & H2 & Et).
  destruct (@convert_two_points t t0 H2)
    as (time & positions & Eo & Hl & He & Hs).
  rewrite Eo in Et. injection Et as <-. simpl. auto.
Qed.

Lemma post_process_ctraj_two_points_witness :
  let A : fragment := ([Some (0, 0, 1); Some (1, 0, 1)]%Q, 3%Q) in
  post_process_ctraj join_pairs [A] 5 0 5 2 1
  = Some [([5; 6]%Z, [(0, 0, 1); (1, 0, 1)]%Q)] /\
  Forall (fun tp : list Z * list point3 =>
            2 <= length (fst tp) /\ length (fst tp) = length (snd tp) /\
            StronglySorted Z.lt (fst tp))
         [([5; 6]%Z, [(0, 0, 1); (1, 0, 1)]%Q)].
Proof.
  intros A. split; [reflexivity|].
  apply (@post_process_ctraj_two_points
           join_pairs [A] 5%Z 0%Q 5%Q 2%Z 1%Q).
  reflexivity.
Defined.

End PostProcessExtras.


(** ** get_temporal_overlapped_pairs and resolve_temporal_overlap *)

Module TemporalExtras.
Import ArrayFacts TemporalFacts ResolverFacts PostProcessExtras.

(** The adjacency matrix before the uniqueness masks. *)
Lemma temporal_pairs_adjacent batch_1 batch_2 lag ntol rtol unique pairs :
  get_temporal_overlapped_pairs batch_1 batch_2 lag ntol rtol unique
    = Some pairs ->
  exists dist_mat,
    temporal_dist_mat batch_1 batch_2 lag = Some dist_mat /\
    NoDup pairs /\
    incl pairs
         (nonzero (map (map (fun c => (ntol <=? Z.of_nat c)%Z))
                       (temporal_conn_mat dist_mat rtol))).
Proof.
  unfold get_temporal_overlapped_pairs.
  destruct (temporal_dist_mat batch_1 batch_2 lag) as [dm|]; [|discriminate].
  cbn [bind]. intros H. exists dm. split; [reflexivity|].
  destruct unique as [u|].
  - destruct ((0 <? length batch_1) && (0 <? length batch_2)).
    + destruct (score_mat u lag dm (temporal_conn_mat dm rtol)) as [sc|];
        [|discriminate].
      cbn [bind] in H. injection H as <-.
      split; [apply NoDup_nonzero|].
      intros [i j] Hin. apply in_nonzero. apply in_nonzero in Hin.
      apply nth_and_mat in Hin. exact (proj1 Hin).
    + cbn [bind] in H. injection H as <-.
      split; [apply NoDup_nonzero | apply incl_refl].
  - cbn [bind] in H. injection H as <-.
    split; [apply NoDup_nonzero | apply incl_refl].
Qed.

Lemma temporal_dist_mat_shape batch_1 batch_2 lag dist_mat :
  temporal_dist_mat batch_1 batch_2 lag = Some dist_mat ->
  length dist_mat = length batch_1 /\
  forall i, i < length dist_mat ->
            length (nth i dist_mat []) = length batch_2.
Proof.
  unfold temporal_dist_mat. intros H.
  destruct (mapM_Some _ _ H) as [Hl Hrow]. split; [exact Hl|].
  intros i Hi. rewrite Hl in Hi.
  destruct (nth_error batch_1 i) as [t1|] eqn:E1;
    [|apply nth_error_None in E1;
      exact (False_ind _ (Nat.lt_irrefl _ (Nat.lt_le_trans _ _ _ Hi E1)))].
  destruct (Hrow i t1 E1) as (row & Erow & Hnth).
  rewrite (nth_error_nth _ _ [] Hnth).
  exact (proj1 (mapM_Some _ _ Erow)).
Qed.

(** X21: the pairs get_temporal_overlapped_pairs returns are distinct, and
    each holds an index into the first batch and an index into the
    second. *)
Theorem temporal_pairs_in_range
    (batch_1 batch_2 : list fragment) (lag : nat) (ntol : Z) (rtol : Q)
    (unique : option policy) (pairs : list (nat * nat)) :
  get_temporal_overlapped_pairs batch_1 batch_2 lag ntol rtol unique
    = Some pairs ->
  NoDup pairs /\
  forall i j, In (i, j) pairs -> i < length batch_1 /\ j < length batch_2.
Proof.
  intros H.
  destruct (temporal_pairs_adjacent _ _ _ _ _ _ H) as (dm & Edm & Hnd & Hincl).
  split; [exact Hnd|]. intros i j Hin.
  apply Hincl, in_nonzero in Hin.
  apply (nth_map_map_true _ _ 0) in Hin. destruct Hin as (Hi & Hj & _).
  destruct (temporal_dist_mat_shape _ _ _ Edm) as [Hl Hrow].
  unfold temporal_conn_mat in Hi, Hj. rewrite length_map in Hi.
  rewrite (nth_map_in _ dm [] [] Hi), length_map, (Hrow i Hi) in Hj.
  rewrite Hl in Hi. split; assumption.
Qed.

Lemma temporal_pairs_in_range_witness :
  let X : fragment := (repeat (Some (0, 0, 0)%Q) 3, 1%Q) in
  let Y : fragment := (repeat (Some (1 # 4, 0, 0)%Q) 3, 1%Q) in
  let Z : fragment := (repeat (Some (1 # 5, 0, 0)%Q) 3, 1%Q) in
  get_temporal_overlapped_pairs [X; Y] [Z] 3 2 1 (Some Dist) = Some [(1, 0)] /\
  NoDup [(1, 0)] /\
  forall i j, In (i, j) [(1, 0)] -> i < 2 /\ j < 1.
Proof.
  intros X Y Z. split; [reflexivity|].
  apply (@temporal_pairs_in_range [X; Y] [Z] 3 2%Z 1%Q (Some Dist) [(1, 0)]).
  reflexivity.
Defined.

(** X22: the uniqueness policy only removes pairs: with a policy the
    result is part of the result without one. *)
Theorem temporal_pairs_policy_filters
    (batch_1 batch_2 : list fragment) (lag : nat) (ntol : Z) (rtol : Q)
    (u : policy) (pairs : list (nat * nat)) :
  get_temporal_overlapped_pairs batch_1 batch_2 lag ntol rtol (Some u)
    = Some pairs ->
  exists all_pairs,
    get_temporal_overlapped_pairs batch_1 batch_2 lag ntol rtol None
      = Some all_pairs /\
    incl pairs all_pairs.
Proof.
  intros H.
  destruct (temporal_pairs_adjacent _ _ _ _ _ _ H) as (dm & Edm & _ & Hincl).
  unfold get_temporal_overlapped_pairs. rewrite Edm. cbn [bind].
  eexists. split; [reflexivity | exact Hincl].
Qed.

Lemma temporal_pairs_policy_filters_witness :
  let X : fragment := (repeat (Some (0, 0, 0)%Q) 3, 1%Q) in
  let Y : fragment := (repeat (Some (1 # 4, 0, 0)%Q) 3, 1%Q) in
  let Z : fragment := (repeat (Some (1 # 5, 0, 0)%Q) 3, 1%Q) in
  get_temporal_overlapped_pairs [X; Y] [Z] 3 2 1 (Some Dist) = Some [(1, 0)] /\
  exists all_pairs,
    get_temporal_overlapped_pairs [X; Y] [Z] 3 2 1 None = Some all_pairs /\
    incl [(1, 0)] all_pairs.
Proof.
  intros X Y Z. split; [reflexivity|].
  apply (@temporal_pairs_policy_filters [X; Y] [Z] 3 2%Z 1%Q Dist [(1, 0)]).
  reflexivity.
Defined.

Ltac bind_inv H :=
  repeat match type of H with
         | bind ?m _ = Some _ =>
             let E := fresh "E" in
             destruct m eqn:E; [cbn [bind] in H | discriminate H]
         end.

Lemma mapM_length {A B : Type} (f : A -> option B) l ys :
  mapM f l = Some ys -> length ys = length l.
Proof. intros H. exact (proj1 (mapM_Some _ _ H)). Qed.

Lemma mapM_nth_error_In {A B : Type} (a : list A) (key : B -> nat) l ys y :
  mapM (fun p => nth_error a (key p)) l = Some ys -> In y ys -> In y a.
Proof.
  intros H Hy. destruct (@mapM_In _ _ _ _ _ _ H Hy) as (p & _ & Hp).
  exact (nth_error_In _ _ Hp).
Qed.

(** One iteration keeps the bookkeeping consistent. *)
Lemma stitch_step_inv lag ntol rtol st i b0 b1 st' :
  stitch_step lag ntol rtol st i b0 b1 = Some st' ->
  stitch_inv lag i st -> stitch_inv lag (S i) st'.
Proof.
  intros H (Hle & Hlf & Ht0).
  unfold stitch_step in H. cbv zeta in H.
  assert (Hold : forall t, In t (t0_extended st) \/ In t (t0_fragments st) ->
                           exists k, k < S i /\ t = k * lag).
  { intros t Hin. destruct (Ht0 t) as (k & Hk & Et);
      [apply in_or_app; exact Hin|].
    exists k. split; [lia | exact Et]. }
  assert (Hnew : forall A (f : A -> nat) (l : list A) t,
            (forall x, f x = i * lag) -> In t (map f l) ->
            exists k, k < S i /\ t = k * lag).
  { intros A f l t Hf Hin. apply in_map_iff in Hin.
    destruct Hin as (x & <- & _). exists i. split; [lia | apply Hf]. }
  destruct (0 <? length (extended st)) eqn:Ehas;
    bind_inv H; injection H as <-; unfold stitch_inv;
    cbn [extended fragments t0_extended t0_fragments];
    repeat match goal with
           | E : mapM _ _ = Some _ |- _ =>
               pose proof (mapM_length _ _ E); revert E
           end; intros;
    rewrite !length_app, !length_map;
    (split; [|split]); try (simpl; lia).
  - intros t Hin. rewrite !in_app_iff in Hin.
    destruct Hin as [[Hin|Hin]|[Hin|[Hin|Hin]]].
    + apply Hold. left.
      match goal with
      | E : mapM (fun p => nth_error (t0_extended st) (fst p)) _ = Some _
        |- _ => exact (@mapM_nth_error_In _ _ (t0_extended st) fst _ _ _ E Hin)
      end.
    + apply (Hnew _ _ _ _ (fun _ => eq_refl) Hin).
    + apply Hold. right. exact Hin.
    + apply Hold. left.
      match goal with
      | E : mapM (nth_error (t0_extended st)) _ = Some _ |- _ =>
          exact (@mapM_nth_error_In _ _ (t0_extended st) (fun x => x) _ _ _ E Hin)
      end.
    + apply (Hnew _ _ _ _ (fun _ => eq_refl) Hin).
  - intros t Hin. rewrite !in_app_iff in Hin.
    destruct Hin as [Hin|[Hin|[Hin|Hin]]].
    + apply (Hnew _ _ _ _ (fun _ => eq_refl) Hin).
    + apply Hold. right. exact Hin.
    + apply Hold. left.
      match goal with
      | E : mapM (nth_error (t0_extended st)) _ = Some _ |- _ =>
          exact (@mapM_nth_error_In _ _ (t0_extended st) (fun x => x) _ _ _ E Hin)
      end.
    + apply (Hnew _ _ _ _ (fun _ => eq_refl) Hin).
Qed.

Lemma stitch_loop_inv lag ntol rtol : forall batches st i st',
  stitch_loop lag ntol rtol st i batches = Some st' ->
  stitch_inv lag i st ->
  stitch_inv lag (i + (length batches - 1)) st'.
Proof.
  induction batches as [|b0 rest IH]; intros st i st' H Hinv.
  - simpl in H. injection H as <-. simpl. rewrite Nat.add_0_r. exact Hinv.
  - destruct rest as [|b1 rest'].
    + simpl in H. injection H as <-. simpl. rewrite Nat.add_0_r. exact Hinv.
    + cbn [stitch_loop] in H.
      destruct (stitch_step lag ntol rtol st i b0 b1) as [st1|] eqn:E1;
        [|discriminate].
      cbn [bind] in H.
      pose proof (IH st1 (S i) st' H (stitch_step_inv _ _ _ _ E1 Hinv))
        as Hfin.
      replace (i + (length (b0 :: b1 :: rest') - 1))
        with (S i + (length (b1 :: rest') - 1)) by (simpl; lia).
      exact Hfin.
Qed.

(** X23: with fewer than two batches there is no batch before the last
    one: resolve_temporal_overlap raises. *)
Theorem resolve_temporal_overlap_needs_two_batches
    (trajectory_batches : list (list fragment))
    (lag : nat) (ntol : Z) (rtol : Q) :
  length trajectory_batches < 2 ->
  resolve_temporal_overlap trajectory_batches lag ntol rtol = None.
Proof.
  intros Hlen. destruct trajectory_batches as [|b0 [|b1 rest]];
    [reflexivity | reflexivity | simpl in Hlen; lia].
Qed.

Lemma resolve_temporal_overlap_needs_two_batches_witness :
  let f : fragment := ([Some (1, 2, 3)%Q; Some (1, 2, 3)%Q], 1%Q) in
  resolve_temporal_overlap [[f]] 1 1 1 = None.
Proof.
  intros f.
  apply (@resolve_temporal_overlap_needs_two_batches [[f]] 1 1%Z 1%Q).
  simpl. lia.
Defined.

(** X24: resolve_temporal_overlap returns as many start frames as
    trajectories, and every start frame is [k * lag] for the index [k] of
    one of the batches. *)
Theorem resolve_temporal_overlap_start_frames
    (trajectory_batches : list (list fragment))
    (lag : nat) (ntol : Z) (rtol : Q)
    (trajs : list fragment) (t0s : list nat) :
  resolve_temporal_overlap trajectory_batches lag ntol rtol
    = Some (trajs, t0s) ->
  length trajs = length t0s /\
  Forall (fun t => exists k, k < length trajectory_batches /\ t = k * lag)
         t0s.
Proof.
  unfold resolve_temporal_overlap. intros H.
  destruct (stitch_loop lag ntol rtol _ 0 trajectory_batches) as [st|] eqn:El;
    [|discriminate].
  cbn [bind] in H.
  destruct (Nat.leb_spec 2 (length trajectory_batches)) as [Hn|Hn];
    [|discriminate].
  bind_inv H. injection H as <- <-.
  destruct (@stitch_loop_inv _ _ _ _ _ _ _ El) as (Hle & Hlf & Ht0).
  { split; [reflexivity|]. split; [reflexivity|]. intros t []. }
  split.
  - rewrite !length_app, length_map. lia.
  - apply Forall_forall. intros t Hin.
    apply in_app_or in Hin. rewrite in_app_iff in Hin.
    assert (Hold : In t (t0_extended st ++ t0_fragments st) ->
              exists k, k < length trajectory_batches /\ t = k * lag).
    { intros Ho. destruct (Ht0 t Ho) as (k & Hk & Et).
      exists k. split; [simpl in Hk; lia | exact Et]. }
    destruct Hin as [Hin|[Hin|Hin]].
    + apply Hold, in_or_app. left. exact Hin.
    + apply Hold, in_or_app. right. exact Hin.
    + apply in_map_iff in Hin. destruct Hin as (x & <- & _).
      exists (length trajectory_batches - 1). split; [lia | reflexivity].
Qed.

Lemma resolve_temporal_overlap_start_frames_witness :
  let p : position := Some (1, 2, 3)%Q in
  let f : fragment := ([p; p; p; p; p; p], 1%Q) in
  length [([p; p; p; p; p; p; p; p; p; p; p; p], (1 + 1 + 1)%Q)]
  = length [0] /\
  Forall (fun t => exists k, k < 3 /\ t = k * 3) [0].
Proof.
  intros p f.
  apply (@resolve_temporal_overlap_start_frames [[f]; [f]; [f]] 3 2%Z 1%Q).
  reflexivity.
Defined.

Lemma temporal_pairs_empty_first batch_2 lag ntol rtol unique :
  get_temporal_overlapped_pairs [] batch_2 lag ntol rtol unique = Some [].
Proof. destruct unique; reflexivity. Qed.

Lemma setdiff_arange_nil n : setdiff_arange n [] = seq 0 n.
Proof.
  unfold setdiff_arange. simpl.
  induction (seq 0 n) as [|x l IH]; simpl; [reflexivity|].
  rewrite IH. reflexivity.
Qed.

Lemma mapM_nth_error_seq {A : Type} (l : list A) :
  mapM (nth_error l) (seq 0 (length l)) = Some l.
Proof.
  assert (H : forall (l pre : list A),
            mapM (nth_error (pre ++ l)) (seq (length pre) (length l))
            = Some l).
  { clear l. induction l as [|x l IH]; intros pre; [reflexivity|].
    simpl. rewrite nth_error_app2, Nat.sub_diag by lia. simpl.
    specialize (IH (pre ++ [x])).
    rewrite <- app_assoc, length_app, Nat.add_1_r in IH. simpl in IH.
    rewrite IH. reflexivity. }
  exact (H l []).
Qed.

Lemma map_const_repeat {A B : Type} (c : B) (l : list A) :
  map (fun _ => c) l = repeat c (length l).
Proof. induction l as [|x l IH]; simpl; [reflexivity | rewrite IH; reflexivity]. Qed.

(** X25: for two batches between which no pair of fragments is matched,
    resolve_temporal_overlap returns the fragments of the first batch
    twice, once starting at frame 0 and once at frame [lag], and no
    fragment of the second batch: the last step reads
    [trajectory_batches[-2]]. *)
Theorem resolve_temporal_overlap_two_unmatched
    (b0 b1 : list fragment) (lag : nat) (ntol : Z) (rtol : Q) :
  get_temporal_overlapped_pairs b0 b1 lag ntol rtol (Some Conn) = Some [] ->
  resolve_temporal_overlap [b0; b1] lag ntol rtol
  = Some (b0 ++ b0, repeat 0 (length b0) ++ repeat lag (length b0)).
Proof.
  intros Hnone.
  unfold resolve_temporal_overlap, stitch_loop, stitch_step.
  cbn [extended fragments t0_extended t0_fragments previous_pairs].
  rewrite temporal_pairs_empty_first.
  cbn [bind length Nat.ltb Nat.leb mapM map app].
  rewrite !setdiff_arange_nil, !mapM_nth_error_seq.
  cbn [bind]. rewrite Hnone.
  cbn [bind mapM map app].
  rewrite !setdiff_arange_nil, !mapM_nth_error_seq.
  cbn [bind extended fragments t0_extended t0_fragments previous_pairs
       length Nat.leb Nat.sub nth_error map app].
  rewrite !setdiff_arange_nil, !mapM_nth_error_seq.
  cbn [bind app].
  rewrite !map_const_repeat, length_seq, Nat.mul_1_l. reflexivity.
Qed.

Lemma resolve_temporal_overlap_two_unmatched_witness :
  let a : fragment := ([Some (0, 0, 0)%Q; Some (0, 0, 0)%Q], 1%Q) in
  let b : fragment := ([Some (9, 9, 9)%Q; Some (9, 9, 9)%Q], 2%Q) in
  resolve_temporal_overlap [[a]; [b]] 1 1 1 = Some ([a; a], [0; 1]).
Proof.
  intros a b.
  apply (@resolve_temporal_overlap_two_unmatched [a] [b] 1 1%Z 1%Q).
  reflexivity.
Defined.

End TemporalExtras.


(** ** solve_overlap_lp and solve_overlap_lp_fast: what is returned *)

Module ResolverExtras.
Import ArrayFacts ResolverFacts.

Section Resolver.

Variable dist : point -> point -> Q.
Variable solve : lp_model -> option (list bool).
Variable connected_components : list (list bool) -> nat * list nat.

Lemma take_incl {A : Type} (a : list A) idxs res :
  take a idxs = Some res -> incl res a.
Proof.
  unfold take. intros H y Hy.
  destruct (@mapM_In _ _ _ _ _ _ H Hy) as (i & _ & Hi).
  exact (nth_error_In _ _ Hi).
Qed.

(** X26: solve_overlap_lp and solve_overlap_lp_fast return only points of
    their input. *)
Theorem resolvers_return_input_points
    (points : list point) (errors : list Q) (diameter : Q) :
  (forall res,
     solve_overlap_lp dist solve points errors diameter = Some res ->
     incl res points) /\
  (forall res,
     solve_overlap_lp_fast dist solve connected_components
                           points errors diameter = Some res ->
     incl res points).
Proof.
  split; [intros res; apply solve_overlap_lp_incl|].
  intros res. unfold solve_overlap_lp_fast. cbv zeta.
  destruct (mapM _ (seq 0 _)) as [result|] eqn:Er; [|discriminate].
  cbn [bind]. destruct result as [|r0 rs] eqn:Eres; [discriminate|].
  rewrite <- Eres in *. clear Eres. intros E. injection E as <-.
  intros y Hy. apply in_concat in Hy. destruct Hy as (part & Hpart & Hy).
  destruct (@mapM_In _ _ _ _ _ _ Er Hpart) as (val & _ & Hval).
  cbv beta zeta in Hval.
  destruct (length _ =? 1).
  - exact (take_incl _ _ Hval y Hy).
  - destruct (take points _) as [pts|] eqn:Ep; [|discriminate].
    cbn [bind] in Hval.
    destruct (take errors _) as [errs|]; [|discriminate].
    cbn [bind] in Hval.
    apply (take_incl _ _ Ep). exact (solve_overlap_lp_incl _ _ _ _ _ Hval y Hy).
Qed.

(** The backend is sound: an assignment it returns satisfies the
    constraints it was given. *)
Hypothesis solve_sound : forall m x, solve m = Some x -> feasible m x = true.

Lemma mask_select_length {A : Type} : forall (x : list bool) (a : list A) res,
  mask_select x a = Some res ->
  length res = length (filter (fun b => b) x).
Proof.
  unfold mask_select. intros x a res.
  destruct (Nat.eqb_spec (length x) (length a)) as [Hl|]; [|discriminate].
  intros E. injection E as <-. rewrite length_map.
  revert a Hl. induction x as [|b x IH]; intros [|y a] Hl;
    simpl in *; try discriminate; [reflexivity|].
  destruct b; simpl; rewrite IH by lia; reflexivity.
Qed.

Lemma seq_split_after : forall l1 a k n l2,
  seq a k = l1 ++ n :: l2 ->
  forall m, n < m < a + k -> In m l2.
Proof.
  induction l1 as [|x l1 IH]; intros a k n l2 E m Hm.
  - destruct k as [|k]; [discriminate|]. simpl in E.
    injection E as <- <-. apply in_seq. lia.
  - destruct k as [|k]; [discriminate|]. simpl in E.
    injection E as _ E. apply (IH _ _ _ _ E). lia.
Qed.

(** The loop stops at the first target size the backend can solve. *)
Lemma ladder_first points errors diameter : forall targets res,
  ladder dist solve points errors diameter targets = Some res ->
  (exists pre n post,
     targets = pre ++ n :: post /\ length res = n /\
     forall m, In m pre ->
       solve (overlap_model dist points errors diameter m) = None) \/
  (length res = 1 /\
   forall m, In m targets ->
     solve (overlap_model dist points errors diameter m) = None).
Proof.
  induction targets as [|n rest IH]; intros res H.
  - right. simpl in H.
    destruct (argmin errors) as [b|]; [|discriminate].
    cbn [bind] in H. destruct (nth_error points b); [|discriminate].
    cbn [bind] in H. injection H as <-. split; [reflexivity | intros m []].
  - simpl in H.
    destruct (solve (overlap_model dist points errors diameter n))
      as [x|] eqn:Ex.
    + left. exists [], n, rest. split; [reflexivity|]. split; [|intros m []].
      rewrite (mask_select_length _ _ H).
      pose proof (solve_sound Ex) as Hf. unfold feasible in Hf.
      apply andb_prop in Hf. destruct Hf as [Hf _].
      apply andb_prop in Hf. destruct Hf as [_ Hf].
      apply Nat.eqb_eq in Hf. exact Hf.
    + destruct (IH res H) as [(pre & k & post & -> & Hl & Hpre)|[Hl Hall]].
      * left. exists (n :: pre), k, post.
        split; [reflexivity|]. split; [exact Hl|].
        intros m [<-|Hm]; [exact Ex | exact (Hpre m Hm)].
      * right. split; [exact Hl|].
        intros m [<-|Hm]; [exact Ex | exact (Hall m Hm)].
Qed.

(** X27: solve_overlap_lp keeps as many points as the backend can
    separate: for every target size above the number of points it
    returns, the backend found no solution. *)
Theorem solve_overlap_lp_keeps_most
    (points : list point) (errors : list Q) (diameter : Q)
    (res : list point) (m : nat) :
  solve_overlap_lp dist solve points errors diameter = Some res ->
  length res < m <= length points ->
  solve (overlap_model dist points errors diameter m) = None.
Proof.
  unfold solve_overlap_lp. intros H Hm.
  destruct (forallb _ _); [injection H as <-; lia|].
  destruct (_ <=? 1); [injection H as <-; lia|].
  destruct (ladder_first _ _ _ _ H)
    as [(pre & n & post & E & Hl & Hpre)|[Hl Hall]].
  - apply Hpre. unfold ladder_sizes in E.
    apply (f_equal (@rev nat)) in E.
    rewrite rev_involutive, rev_app_distr in E. simpl in E.
    rewrite <- app_assoc in E. simpl in E.
    apply in_rev. apply (@seq_split_after _ _ _ _ _ E). lia.
  - apply Hall. unfold ladder_sizes. apply -> in_rev. apply in_seq. lia.
Qed.

(** X20: with a sound backend, solve_overlap_lp never removes every
    point: for a non-empty input the result, when there is one, is not
    empty. *)
Theorem solve_overlap_lp_keeps_some
    (points : list point) (errors : list Q) (diameter : Q)
    (res : list point) :
  points <> [] ->
  solve_overlap_lp dist solve points errors diameter = Some res ->
  res <> [].
Proof.
  unfold solve_overlap_lp. intros Hne H.
  destruct (forallb _ _); [injection H as <-; exact Hne|].
  destruct (_ <=? 1); [injection H as <-; exact Hne|].
  assert (Hlen : 1 <= length res); [|destruct res; [simpl in Hlen; lia | discriminate]].
  destruct (ladder_first _ _ _ _ H)
    as [(pre & n & post & E & Hl & _)|[Hl _]]; [|lia].
  assert (Hin : In n (ladder_sizes (length points)))
    by (rewrite E; apply in_or_app; right; left; reflexivity).
  unfold ladder_sizes in Hin. apply in_rev, in_seq in Hin. lia.
Qed.

End Resolver.

Lemma solve_overlap_lp_keeps_some_witness :
  let pts : list point := [[0]; [1 # 2]; [10]]%Q in
  let errs : list Q := [3; 1; 5]%Q in
  solve_overlap_lp dist_1d exhaustive_solve pts errs 1
    = Some [[1 # 2]; [10]]%Q /\
  [[1 # 2]; [10]]%Q <> [].
Proof.
  intros pts errs. split; [reflexivity|].
  apply (@solve_overlap_lp_keeps_some dist_1d exhaustive_solve
           exhaustive_solve_sound pts errs 1%Q).
  - discriminate.
  - reflexivity.
Defined.

Lemma solve_overlap_lp_keeps_most_witness :
  let pts : list point := [[0]; [1 # 2]; [10]]%Q in
  let errs : list Q := [3; 1; 5]%Q in
  solve_overlap_lp dist_1d exhaustive_solve pts errs 1
    = Some [[1 # 2]; [10]]%Q /\
  exhaustive_solve (overlap_model dist_1d pts errs 1 3) = None.
Proof.
  intros pts errs. split; [reflexivity|].
  apply (@solve_overlap_lp_keeps_most dist_1d exhaustive_solve
           exhaustive_solve_sound pts errs 1%Q [[1 # 2]; [10]]%Q 3).
  - reflexivity.
  - simpl. lia.
Defined.

End ResolverExtras.


(** ** get_trajectory_batches and get_short_trajs: windows and contents *)

Module BatchExtras.
Import ArrayFacts TankFacts ResolverFacts PostProcessExtras.

Section Batches.

Variable frame : Type.
Variable get_trajs_3d : list frame -> list fragment.
Variable get_trajs_3d_t1t2 : nat -> nat -> list frame -> list fragment.
Variable get_trajs_3d_t1t2t3 : nat -> nat -> nat -> list frame -> list fragment.
Variable join_pairs : list (nat * nat) -> list (list nat).




(** X29: every fragment of every batch get_trajectory_batches returns
    passed the test of get_valid_ctraj: its valid z lie strictly between
    [z_min] and [z_max] and it has at least two valid samples. *)
Theorem get_trajectory_batches_in_tank
    (features_mv_mt : list frame) (tau : nat) (z_min z_max : Q)
    (overlap_num : Z) (overlap_rtol : Q) (t1 : nat)
    (batches : list (list fragment)) (batch : list fragment) (t : fragment) :
  get_trajectory_batches get_trajs_3d get_trajs_3d_t1t2 join_pairs
    features_mv_mt tau z_min z_max overlap_num overlap_rtol t1
    = Some batches ->
  In batch batches -> In t batch ->
  in_tank z_min z_max t = true.
Proof.
  unfold get_trajectory_batches. intros H Hb Ht.
  destruct (batch_starts (length features_mv_mt) tau) as [starts|];
    [|discriminate].
  cbn [bind] in H.
  destruct (@mapM_In _ _ _ _ _ _ H Hb) as (t0 & _ & Hbatch).
  cbv beta zeta in Hbatch.
  match type of Hbatch with
  | bind ?m _ = Some _ => destruct m as [ctrajs|]; [|discriminate]
  end.
  cbn [bind] in Hbatch.
  apply (remove_spatial_overlap_kept _ _ _ _ Hbatch) in Ht.
  apply filter_In in Ht. destruct Ht as [Hin _].
  rewrite get_valid_ctraj_prefix in Hin.
  pose proof (passing_prefix_Forall (in_tank z_min z_max) ctrajs) as Hall.
  rewrite Forall_forall in Hall. exact (Hall t Hin).
Qed.

(** X30: the last line of get_short_trajs, which drops the trajectories
    with fewer than two time points, drops nothing: the result is the
    trajectories of the windows, in order. *)
Theorem get_short_trajs_keeps_all
    (features_mv_mt : list frame) (t1 t2 t3 : nat) (z_min z_max : Q)
    (overlap_num : Z) (overlap_rtol : Q) :
  get_short_trajs get_trajs_3d get_trajs_3d_t1t2 get_trajs_3d_t1t2t3
    join_pairs features_mv_mt t1 t2 t3 z_min z_max overlap_num overlap_rtol
  = (parts <- short_traj_parts get_trajs_3d get_trajs_3d_t1t2
                get_trajs_3d_t1t2t3 join_pairs features_mv_mt t1 t2 t3
                z_min z_max overlap_num overlap_rtol ;;
     Some (concat parts)).
Proof.
  unfold get_short_trajs.
  destruct (short_traj_parts _ _ _ _ _ _ _ _ _ _ _ _) as [parts|] eqn:Ep;
    [|reflexivity].
  cbn [bind]. f_equal. apply filter_all. apply Forall_forall.
  intros tp Htp. apply in_concat in Htp. destruct Htp as (part & Hpart & Htp).
  unfold short_traj_parts in Ep. cbv zeta in Ep.
  destruct (t1 * t2 * t3 =? 0); [discriminate|].
  destruct (@mapM_In _ _ _ _ _ _ Ep Hpart) as (t0 & _ & Hp).
  cbv beta zeta in Hp.
  match type of Hp with
  | bind ?m _ = Some _ => destruct m as [ctrajs|]; [|discriminate]
  end.
  cbn [bind] in Hp.
  destruct (post_process_ctraj_parts _ _ _ _ _ _ _ _ Hp Htp)
    as (t & _ & H2 & Et).
  destruct (@convert_two_points t (Z.of_nat t0) H2)
    as (time & positions & Eo & Hl & _).
  rewrite Eo in Et. injection Et as <-.
  apply Nat.ltb_lt. simpl. lia.
Qed.

End Batches.


Lemma get_trajectory_batches_in_tank_witness :
  let a : fragment := ([Some (0, 0, 1)%Q; Some (0, 0, 2)%Q], 0%Q) in
  let engine := fun _ : list unit => [a] in
  let engine2 := fun (_ _ : nat) (_ : list unit) => @nil fragment in
  get_trajectory_batches engine engine2 join_pairs (repeat tt 4) 4 0 5 2 1 1
    = Some [[a]] /\
  in_tank 0 5 a = true.
Proof.
  intros a engine engine2. split; [reflexivity|].
  apply (@get_trajectory_batches_in_tank unit engine engine2 join_pairs
           (repeat tt 4) 4 0%Q 5%Q 2%Z 1%Q 1 [[a]] [a] a);
    [reflexivity | left; reflexivity | left; reflexivity].
Defined.

End BatchExtras.
